(** * kittomata/maze: the maze generator, the tile grid and the ray caster

    A shallow embedding of [src/maze.js].  Integers (cell and tile indices)
    are [Z]; the JavaScript numbers that carry positions and distances in the
    ray caster and the movement step are exact rationals [Q], so that the
    functions compute; the movement step is also given with a rounding
    after each operation ([updatePositionFl]), for the results that depend
    on it; the two formulas of the projector, which need the cosine, are
    over the real numbers [R].  Arrays are lists read with
    stdpp's lookup [!!] and written with [alter] / [<[i:=v]>].  A thrown
    [TypeError] (reading a property of [undefined]) is a constructor of the
    result type [Res]. *)

From Stdlib Require Import ZArith QArith Qround Qabs Lia Lqa Reals Lra.
From stdpp Require Import base list strings gmap.

Open Scope Z_scope.

(** ** Results of effectful code *)

(** [Ok] is a normal return.  [TypeError] is the exception JavaScript throws
    on [undefined.prop].  [OutOfFuel] is the model's bound on recursion and
    loops being exhausted; the theorems show it is never returned by the entry
    points.  [OutOfContract] marks a [Math.random()] value outside [0,1),
    which the language forbids and the model does not follow further. *)
Inductive Res (A : Type) : Type :=
| Ok (a : A)
| TypeError
| OutOfFuel
| OutOfContract.

Arguments Ok {A} a.
Arguments TypeError {A}.
Arguments OutOfFuel {A}.
Arguments OutOfContract {A}.

#[global] Instance Res_ret : MRet Res := fun A a => Ok a.

#[global] Instance Res_bind : MBind Res := fun A B f c =>
  match c with
  | Ok a => f a
  | TypeError => TypeError
  | OutOfFuel => OutOfFuel
  | OutOfContract => OutOfContract
  end.

(** ** The maze generator (maze.js, lines 32-72) *)

Inductive Dir : Type := north | south | west | east.

#[global] Instance Dir_eq_dec : EqDecision Dir.
Proof. solve_decision. Defined.

Record Walls : Type := mkWalls {
  w_north : bool;
  w_south : bool;
  w_west : bool;
  w_east : bool
}.

Record Cell : Type := mkCell {
  visited : bool;
  walls : Walls
}.

(** [maze[y][x]]: a list of rows. *)
Abbreviation Maze := (list (list Cell)) (only parsing).

(** The object literal of lines 37-40. *)
Definition freshCell : Cell :=
  mkCell false (mkWalls true true true true).

(** [cell.walls[dir]] *)
Definition wallOf (c : Cell) (d : Dir) : bool :=
  match d with
  | north => w_north (walls c)
  | south => w_south (walls c)
  | west => w_west (walls c)
  | east => w_east (walls c)
  end.

(** [cell.walls[dir] = false] *)
Definition clearWallOf (d : Dir) (c : Cell) : Cell :=
  let w := walls c in
  mkCell (visited c)
    match d with
    | north => mkWalls false (w_south w) (w_west w) (w_east w)
    | south => mkWalls (w_north w) false (w_west w) (w_east w)
    | west => mkWalls (w_north w) (w_south w) false (w_east w)
    | east => mkWalls (w_north w) (w_south w) (w_west w) false
    end.

(** [cell.visited = true] *)
Definition markVisited (c : Cell) : Cell := mkCell true (walls c).

(** [maze[y][x]] as an expression: [None] is [undefined] (or the
    [TypeError] of indexing an [undefined] row, which every use below turns
    into [TypeError] as well). *)
Definition getCell (m : Maze) (x y : Z) : option Cell :=
  if (y <? 0) || (x <? 0) then None
  else row ← m !! Z.to_nat y; row !! Z.to_nat x.

(** [maze[y][x].field = v]: throws when [maze[y][x]] is [undefined]. *)
Definition alterCell (f : Cell -> Cell) (m : Maze) (x y : Z) : Res Maze :=
  match getCell m x y with
  | Some _ => Ok (alter (alter f (Z.to_nat x)) (Z.to_nat y) m)
  | None => TypeError
  end.

(** Lines 33-42: [height] rows of [width] fresh cells (no row when
    [height <= 0], empty rows when [width <= 0]). *)
Definition initMaze (width height : Z) : Maze :=
  replicate (Z.to_nat height) (replicate (Z.to_nat width) freshCell).

(** The neighbour computed by lines 54-59; positions are pairs [(x, y)]. *)
Definition neighbour (p : Z * Z) (d : Dir) : Z * Z :=
  match d with
  | north => (p.1, p.2 - 1)
  | south => (p.1, p.2 + 1)
  | west => (p.1 - 1, p.2)
  | east => (p.1 + 1, p.2)
  end.

(** The opposite side, cleared on the neighbour by lines 62-65. *)
Definition opposite (d : Dir) : Dir :=
  match d with
  | north => south
  | south => north
  | west => east
  | east => west
  end.

(** [[array[i], array[j]] = [array[j], array[i]]] for indices inside the
    array. *)
Definition swap (array : list Dir) (i j : nat) : option (list Dir) :=
  ai ← array !! i;
  aj ← array !! j;
  Some (<[j:=ai]> (<[i:=aj]> array)).

(** Lines 44-47, the loop [for (i = array.length - 1; i > 0; i--)] entered
    at index [i]; [rnd k] is the value of the [k]-th call of [Math.random()]
    and [calls] counts the calls made so far. *)
Fixpoint shuffleFrom (rnd : nat -> Q) (i : nat) (array : list Dir) (calls : nat)
  : Res (list Dir * nat) :=
  match i with
  | O => Ok (array, calls)
  | S i' =>
      let j := Qfloor (rnd calls * inject_Z (Z.of_nat i + 1)) in
      if (j <? 0) || (Z.of_nat i <? j) then OutOfContract
      else match swap array i (Z.to_nat j) with
           | Some array' => shuffleFrom rnd i' array' (S calls)
           | None => OutOfContract
           end
  end.

Definition shuffle (rnd : nat -> Q) (array : list Dir) (calls : nat)
  : Res (list Dir * nat) :=
  shuffleFrom rnd (length array - 1) array calls.

(** The state threaded through [carve]: the lattice and the number of
    [Math.random()] calls made. *)
Record GenState : Type := mkGen {
  maze : Maze;
  calls : nat
}.

(** Lines 60-66 for one direction [dir] at cell [(x, y)], with [rec] the
    recursive call [carve(nx, ny)]. *)
Definition carveDir (width height : Z) (rec : Z -> Z -> GenState -> Res GenState)
    (x y : Z) (dir : Dir) (st : GenState) : Res GenState :=
  let '(nx, ny) := neighbour (x, y) dir in
  if (0 <=? nx) && (nx <? width) && (0 <=? ny) && (ny <? height) then
    match getCell (maze st) nx ny with
    | None => TypeError
    | Some c =>
        if visited c then Ok st
        else
          m1 ← alterCell (clearWallOf dir) (maze st) x y;
          m2 ← alterCell (clearWallOf (opposite dir)) m1 nx ny;
          rec nx ny (mkGen m2 (calls st))
    end
  else Ok st.

(** The [for (const dir of dirs)] loop of lines 53-68. *)
Fixpoint carveDirs (width height : Z) (rec : Z -> Z -> GenState -> Res GenState)
    (x y : Z) (dirs : list Dir) (st : GenState) : Res GenState :=
  match dirs with
  | [] => Ok st
  | dir :: rest =>
      st' ← carveDir width height rec x y dir st;
      carveDirs width height rec x y rest st'
  end.

(** [carve(x, y)], lines 50-69.  [fuel] bounds the depth of the recursion. *)
Fixpoint carve (rnd : nat -> Q) (width height : Z) (fuel : nat)
    (x y : Z) (st : GenState) : Res GenState :=
  match fuel with
  | O => OutOfFuel
  | S fuel' =>
      m1 ← alterCell markVisited (maze st) x y;
      '(dirs, calls1) ← shuffle rnd [north; south; west; east] (calls st);
      carveDirs width height (carve rnd width height fuel') x y dirs
        (mkGen m1 calls1)
  end.

(** [generateMaze(width, height)].  The recursion of [carve] is never deeper
    than the number of cells, so one more than that is enough fuel
    ([carve_fuel_mono] and [generateMaze_total]).  The call stack of a
    JavaScript engine is not part of this embedding: on a lattice so large
    that the engine gives up ([RangeError]) no lattice is returned, and the
    results below are about the lattices that are. *)
Definition generateMaze (rnd : nat -> Q) (width height : Z) : Res Maze :=
  st ← carve rnd width height (S (Z.to_nat (width * height))) 0 0
         (mkGen (initMaze width height) 0);
  Ok (maze st).

(** ** The tile grid (maze.js, lines 77-96) *)

(** [grid[gy][gx]]: [1] is a wall tile, [0] an open tile. *)
Abbreviation Grid := (list (list Z)) (only parsing).

(** [grid[gy][gx] = v].  The loops of [mazeToGrid] run the writes of lines
    88-92 only for [x < w] and [y < h], so [gx + 1 <= 2 * w] and
    [gy + 1 <= 2 * h]: every write is inside the array built on line 82 and
    the growth JavaScript performs on a write past the end never happens. *)
Definition setTile (g : Grid) (gx gy : nat) (v : Z) : Grid :=
  alter (<[gx:=v]>) gy g.

(** [for (let i = start; i < start + count; i++) body]. *)
Fixpoint forRange {A : Type} (body : nat -> A -> Res A) (start count : nat) (a : A)
  : Res A :=
  match count with
  | O => Ok a
  | S count' => a' ← body start a; forRange body (S start) count' a'
  end.

(** Lines 85-92, the body of the inner loop.  A row shorter than the first
    one makes [cell] [undefined] and line 89 throws. *)
Definition gridCell (m : Maze) (y x : nat) (g : Grid) : Res Grid :=
  let gy := (y * 2 + 1)%nat in
  let gx := (x * 2 + 1)%nat in
  let g0 := setTile g gx gy 0 in
  match row ← m !! y; row !! x with
  | None => TypeError
  | Some cell =>
      let g1 := if negb (w_north (walls cell)) then setTile g0 gx (gy - 1) 0 else g0 in
      let g2 := if negb (w_south (walls cell)) then setTile g1 gx (gy + 1) 0 else g1 in
      let g3 := if negb (w_west (walls cell)) then setTile g2 (gx - 1) gy 0 else g2 in
      let g4 := if negb (w_east (walls cell)) then setTile g3 (gx + 1) gy 0 else g3 in
      Ok g4
  end.

(** [mazeToGrid(maze)]; [maze[0].length] throws on an empty lattice. *)
Definition mazeToGrid (m : Maze) : Res Grid :=
  match m !! 0%nat with
  | None => TypeError
  | Some row0 =>
      let h := length m in
      let w := length row0 in
      let gridH := (h * 2 + 1)%nat in
      let gridW := (w * 2 + 1)%nat in
      forRange (fun y => forRange (gridCell m y) 0 w) 0 h
        (replicate gridH (replicate gridW 1))
  end.

(** [grid[gy][gx]] at integer indices.  Its callers have checked
    [0 <= gy < grid.length] and [0 <= gx] before, so the row exists and
    [None] stands for [undefined], the entry past the end of a row. *)
Definition tileAt (g : Grid) (gx gy : Z) : option Z :=
  if (gy <? 0) || (gx <? 0) then None
  else row ← g !! Z.to_nat gy; row !! Z.to_nat gx.

(** ** Game state read by the ray caster (lines 107-135) *)

Record World : Type := mkWorld {
  grid : Grid;
  exitX : Z;
  exitY : Z
}.

Definition startGridX : Z := 1.
Definition startGridY : Z := 1.

(** Lines 129-130. *)
Definition exitOf (mazeSize : Z) : Z := mazeSize * 2 - 1.

(** Lines 119-121. *)
Definition stageSize (stage : Z) : Z := 8 + (stage - 1) * 2.

(** [initGame()] for the current [stage]: the grid and the exit landmark. *)
Definition initGame (rnd : nat -> Q) (stage : Z) : Res World :=
  let mazeWidth := stageSize stage in
  let mazeHeight := stageSize stage in
  m ← generateMaze rnd mazeWidth mazeHeight;
  g ← mazeToGrid m;
  Ok (mkWorld g (exitOf mazeWidth) (exitOf mazeHeight)).

(** The test [x < 0 || x >= grid[0].length || y < 0 || y >= grid.length] of
    lines 354 and 514, with its short-circuit order: [grid[0].length] is
    evaluated (and throws on an empty grid) only when [x >= 0]. *)
Definition outside (g : Grid) (x y : Z) : Res bool :=
  if x <? 0 then Ok true
  else match g !! 0%nat with
       | None => TypeError
       | Some row0 =>
           Ok ((Z.of_nat (length row0) <=? x) || (y <? 0) || (Z.of_nat (length g) <=? y))
       end.

(** ** The ray caster (maze.js, lines 310-374) *)

(** [dist] of the returned object: a number or [Infinity]. *)
Inductive Dist : Type :=
| Finite (d : Q)
| Infinity.

Record RayResult : Type := mkResult {
  dist : Dist;
  side : Z;
  startSeen : bool;
  exitSeen : bool
}.

(** The constants of one cast. *)
Record Ray : Type := mkRay {
  stepX : Z;
  stepY : Z;
  deltaDistX : Q;
  deltaDistY : Q
}.

(** The variables the loop of lines 343-365 updates. *)
Record Dda : Type := mkDda {
  sideDistX : Q;
  sideDistY : Q;
  mapX : Z;
  mapY : Z;
  lastSide : Z;
  seenStart : bool;
  seenExit : bool
}.

(** Lines 317-318. *)
Definition deltaDist (rayDir : Q) : Q :=
  if Qeq_bool rayDir 0 then inject_Z (10 ^ 30) else Qabs (1 / rayDir).

(** Lines 322-335, one axis: the step and the initial side distance. *)
Definition initAxis (rayDir pos : Q) : Z * Q :=
  let map := Qfloor pos in
  if Qlt_le_dec rayDir 0
  then (-1, ((pos - inject_Z map) * deltaDist rayDir)%Q)
  else (1, ((inject_Z map + 1 - pos) * deltaDist rayDir)%Q).

(** Lines 344-352: advance along the axis with the smaller side distance. *)
Definition advance (r : Ray) (s : Dda) : Dda :=
  if Qlt_le_dec (sideDistX s) (sideDistY s)
  then mkDda (sideDistX s + deltaDistX r) (sideDistY s)
             (mapX s + stepX r) (mapY s) 0 (seenStart s) (seenExit s)
  else mkDda (sideDistX s) (sideDistY s + deltaDistY r)
             (mapX s) (mapY s + stepY r) 1 (seenStart s) (seenExit s).

(** What one iteration of the loop does after the step. *)
Inductive Iter : Type :=
| LeftGrid        (* line 355: return the no-hit object *)
| HitWall (s : Dda)   (* line 363: hit = true, the loop ends *)
| Continue (s : Dda)  (* next iteration *)
| Throw.

(** Lines 358-361: latch the landmark flags on an open tile. *)
Definition latch (W : World) (s : Dda) : Dda :=
  if bool_decide (tileAt (grid W) (mapX s) (mapY s) = Some 0) then
    mkDda (sideDistX s) (sideDistY s) (mapX s) (mapY s) (lastSide s)
      (seenStart s || ((mapX s =? startGridX) && (mapY s =? startGridY)))
      (seenExit s || ((mapX s =? exitX W) && (mapY s =? exitY W)))
  else s.

(** One iteration, lines 344-364. *)
Definition ddaIter (W : World) (r : Ray) (s : Dda) : Iter :=
  let s1 := advance r s in
  match outside (grid W) (mapX s1) (mapY s1) with
  | Ok true => LeftGrid
  | Ok false =>
      let s2 := latch W s1 in
      if bool_decide (tileAt (grid W) (mapX s2) (mapY s2) = Some 1)
      then HitWall s2 else Continue s2
  | _ => Throw
  end.

(** The loop [while (!hit)]; each iteration uses one unit of [fuel].
    [None] is the early return of line 355. *)
Fixpoint ddaLoop (W : World) (r : Ray) (fuel : nat) (s : Dda) : Res (option Dda) :=
  match fuel with
  | O => OutOfFuel
  | S fuel' =>
      match ddaIter W r s with
      | LeftGrid => Ok None
      | HitWall s' => Ok (Some s')
      | Continue s' => ddaLoop W r fuel' s'
      | Throw => TypeError
      end
  end.

(** Lines 367-372 for one axis. *)
Definition perpDist (map : Z) (pos : Q) (step : Z) (rayDir : Q) : Q :=
  ((inject_Z map - pos + inject_Z (1 - step) / 2)
   / (if Qeq_bool rayDir 0 then 1 / inject_Z (10 ^ 6) else rayDir))%Q.

Definition initRay (rayDirX rayDirY posX posY : Q) : Ray :=
  mkRay (initAxis rayDirX posX).1 (initAxis rayDirY posY).1
        (deltaDist rayDirX) (deltaDist rayDirY).

Definition initDda (W : World) (rayDirX rayDirY posX posY : Q) : Dda :=
  mkDda (initAxis rayDirX posX).2 (initAxis rayDirY posY).2
        (Qfloor posX) (Qfloor posY) 0
        ((Qfloor posX =? startGridX) && (Qfloor posY =? startGridY))
        ((Qfloor posX =? exitX W) && (Qfloor posY =? exitY W)).

(** [castRay(posX, posY, rayAngle)] with the loop bounded by [fuel]
    iterations.  Lines 311-312 compute [rayDirX = Math.cos(rayAngle)] and
    [rayDirY = Math.sin(rayAngle)]; the embedding takes these two numbers as
    its inputs, so a statement for every [rayDirX] and [rayDirY] covers
    every angle, and the angle [0] is the direction [(1, 0)]. *)
Definition castRayFuel (fuel : nat) (W : World) (posX posY rayDirX rayDirY : Q)
  : Res RayResult :=
  let r := initRay rayDirX rayDirY posX posY in
  o ← ddaLoop W r fuel (initDda W rayDirX rayDirY posX posY);
  match o with
  | None => Ok (mkResult Infinity 0 false false)
  | Some s =>
      let perpWallDist :=
        if lastSide s =? 0
        then perpDist (mapX s) posX (stepX r) rayDirX
        else perpDist (mapY s) posY (stepY r) rayDirY in
      Ok (mkResult (Finite perpWallDist) (lastSide s) (seenStart s) (seenExit s))
  end.

(** The number of rows plus the length of the first row. *)
Definition gridPerimeter (g : Grid) : nat :=
  (length g + match g !! 0%nat with Some row0 => length row0 | None => 0 end)%nat.

(** [castRay]: the loop never runs more than grid width + grid height + 1
    times, whatever the origin ([castRay_total]). *)
Definition castRay (W : World) (posX posY rayDirX rayDirY : Q) : Res RayResult :=
  castRayFuel (S (gridPerimeter (grid W))) W posX posY rayDirX rayDirY.

(** The tiles the loop steps into, in order, up to and including the one on
    which it stops. *)
Fixpoint ddaPath (W : World) (r : Ray) (fuel : nat) (s : Dda) : list (Z * Z) :=
  match fuel with
  | O => []
  | S fuel' =>
      let s1 := advance r s in
      (mapX s1, mapY s1) ::
      match ddaIter W r s with
      | Continue s' => ddaPath W r fuel' s'
      | _ => []
      end
  end.

Definition rayPath (fuel : nat) (W : World) (posX posY rayDirX rayDirY : Q)
  : list (Z * Z) :=
  ddaPath W (initRay rayDirX rayDirY posX posY) fuel
    (initDda W rayDirX rayDirY posX posY).

(** ** The movement step (maze.js, lines 500-525) *)

Record Keys : Type := mkKeys {
  forward : bool;
  backward : bool;
  strafeLeft : bool;
  strafeRight : bool
}.

(** The four values [Math.cos(angle)], [Math.sin(angle)],
    [Math.cos(angle + PI/2)] and [Math.sin(angle + PI/2)] of lines 506-507
    and 519-523, taken as inputs; [angle] is [player.angle] after the
    rotation of lines 494-498. *)
Record Heading : Type := mkHeading {
  cosA : Q;
  sinA : Q;
  cosA90 : Q;
  sinA90 : Q
}.

Definition moveSpeed : Q := 3.
Definition radius : Q := 2 # 10.

(** [isWall(x, y)], lines 511-516. *)
Definition isWall (g : Grid) (x y : Q) : Res bool :=
  let gx := Qfloor x in
  let gy := Qfloor y in
  o ← outside g gx gy;
  if (o : bool) then Ok true
  else Ok (bool_decide (tileAt g gx gy = Some 1)).

(** Lines 500-525 in first-person mode: the new player position after one
    frame of [delta] seconds. *)
Definition updatePosition (g : Grid) (hd : Heading) (keys : Keys) (delta : Q)
    (pos : Q * Q) : Res (Q * Q) :=
  let moveStep := ((if forward keys then moveSpeed * delta else 0)
                   - (if backward keys then moveSpeed * delta else 0))%Q in
  let strafeStep := ((if strafeRight keys then moveSpeed * delta else 0)
                     - (if strafeLeft keys then moveSpeed * delta else 0))%Q in
  let newX := (pos.1 + cosA hd * moveStep + cosA90 hd * strafeStep)%Q in
  let newY := (pos.2 + sinA hd * moveStep + sinA90 hd * strafeStep)%Q in
  bx ← isWall g (newX + cosA hd * radius)%Q pos.2;
  let x1 := if (bx : bool) then pos.1 else newX in
  by_ ← isWall g x1 (newY + sinA hd * radius)%Q;
  let y1 := if (by_ : bool) then pos.2 else newY in
  Ok (x1, y1).

(** [n] frames of the same keys and frame time. *)
Fixpoint frames (g : Grid) (hd : Heading) (keys : Keys) (delta : Q) (n : nat)
    (pos : Q * Q) : Res (Q * Q) :=
  match n with
  | O => Ok pos
  | S n' => pos' ← updatePosition g hd keys delta pos; frames g hd keys delta n' pos'
  end.

(** ** The movement step in floating point *)

(** JavaScript numbers are binary64: each arithmetic operation returns its
    exact result rounded.  [updatePositionFl fl] is lines 500-525 with the
    rounding [fl] applied after every operation, in the order in which
    JavaScript evaluates them; [Math.floor] in [isWall] is exact.  The
    literal [0.2] is the rounded [fl radius], and [moveStep] and
    [strafeStep] start at [0] and are updated by [+=] and [-=]. *)
Definition updatePositionFl (fl : Q -> Q) (g : Grid) (hd : Heading) (keys : Keys)
    (delta : Q) (pos : Q * Q) : Res (Q * Q) :=
  let moveStep := 0%Q in
  let moveStep :=
    if forward keys then fl (moveStep + fl (moveSpeed * delta))%Q else moveStep in
  let moveStep :=
    if backward keys then fl (moveStep - fl (moveSpeed * delta))%Q else moveStep in
  let strafeStep := 0%Q in
  let strafeStep :=
    if strafeLeft keys then fl (strafeStep - fl (moveSpeed * delta))%Q else strafeStep in
  let strafeStep :=
    if strafeRight keys then fl (strafeStep + fl (moveSpeed * delta))%Q else strafeStep in
  let newX :=
    fl (fl (pos.1 + fl (cosA hd * moveStep)) + fl (cosA90 hd * strafeStep))%Q in
  let newY :=
    fl (fl (pos.2 + fl (sinA hd * moveStep)) + fl (sinA90 hd * strafeStep))%Q in
  bx ← isWall g (fl (newX + fl (cosA hd * fl radius)))%Q pos.2;
  let x1 := if (bx : bool) then pos.1 else newX in
  by_ ← isWall g x1 (fl (newY + fl (sinA hd * fl radius)))%Q;
  let y1 := if (by_ : bool) then pos.2 else newY in
  Ok (x1, y1).

Fixpoint framesFl (fl : Q -> Q) (g : Grid) (hd : Heading) (keys : Keys) (delta : Q)
    (n : nat) (pos : Q * Q) : Res (Q * Q) :=
  match n with
  | O => Ok pos
  | S n' =>
      pos' ← updatePositionFl fl g hd keys delta pos;
      framesFl fl g hd keys delta n' pos'
  end.

(** ** The projector (maze.js, lines 390-397) *)

(** A JavaScript number as the projector sees it: [result.dist] may be
    [Infinity], and a product with it may be [NaN]. *)
Inductive JsNum : Type :=
| Num (r : R)
| PosInfinity
| NegInfinity
| NaN.

(** Line 390. *)
Definition fov : R := (PI / 3)%R.

(** [a * c] for a finite [c]. *)
Definition jsTimes (a : JsNum) (c : R) : JsNum :=
  match a with
  | Num r => Num (r * c)
  | PosInfinity =>
      match total_order_T 0 c with
      | inleft (left _) => PosInfinity
      | inleft (right _) => NaN
      | inright _ => NegInfinity
      end
  | NegInfinity =>
      match total_order_T 0 c with
      | inleft (left _) => NegInfinity
      | inleft (right _) => NaN
      | inright _ => PosInfinity
      end
  | NaN => NaN
  end.

(** Lines 393-397 for the column [x] of a canvas [w] pixels wide: the ray
    angle and the corrected distance.  [cast posX posY rayAngle] stands for
    [castRay(posX, posY, rayAngle).dist]. *)
Definition renderColumn (cast : R -> R -> R -> JsNum) (playerX playerY angle : R)
    (x w : Z) : R * JsNum :=
  let rayAngle := (angle - fov / 2 + (IZR x / IZR w) * fov)%R in
  let distance := cast playerX playerY rayAngle in
  let correctedDist := jsTimes distance (cos (rayAngle - angle)) in
  (rayAngle, correctedDist).

(** ** The rest of [update] (maze.js, lines 494-498 and 526-529) *)

Definition rotSpeed : R := PI.

(** Lines 497-498: at most one turn is added, then at most one removed. *)
Definition wrapAngle (angle : R) : R :=
  let a := if Rlt_dec angle 0 then (angle + PI * 2)%R else angle in
  if Rge_dec a (PI * 2) then (a - PI * 2)%R else a.

(** Lines 494-498: the heading after one frame of [delta] seconds. *)
Definition rotate (turnLeft turnRight : bool) (delta angle : R) : R :=
  let a1 := if turnLeft then (angle - rotSpeed * delta)%R else angle in
  let a2 := if turnRight then (a1 + rotSpeed * delta)%R else a1 in
  wrapAngle a2.

(** Lines 125-126: where [initGame] puts the player. *)
Definition startPos : Q * Q := (3 # 2, 3 # 2).

(** Lines 527-529: the test that starts the next stage. *)
Definition atExit (W : World) (pos : Q * Q) : bool :=
  (Qfloor pos.1 =? exitX W) && (Qfloor pos.2 =? exitY W).

(** ** One column of [render] (maze.js, lines 398-434) *)

Inductive Tint : Type := ExitTint | StartTint.

(** What is drawn in one column: the wall slice from [drawStart] to
    [drawEnd] in the grey [wallLevel], and for a landmark the floor line
    ([Tint], its level, its first row) down to the bottom of the canvas. *)
Record Column : Type := mkColumn {
  drawStart : Z;
  drawEnd : Z;
  wallLevel : Z;
  floorMark : option (Tint * Z * Q)
}.

(** Lines 408-409 and 421-422. *)
Definition clampLevel (b : Q) : Q :=
  let b1 := if Qlt_le_dec b 30 then 30%Q else b in
  if Qlt_le_dec 255 b1 then 255%Q else b1.

(** [base - correctedDist * k], clamped; with [correctedDist = Infinity] the
    difference is [-Infinity] and the first clamp gives 30. *)
Definition levelOf (base k : Q) (correctedDist : Dist) : Q :=
  match correctedDist with
  | Finite q => clampLevel (base - q * k)
  | Infinity => 30%Q
  end.

(** Line 399; [h / Infinity] is 0. *)
Definition lineHeight (h : Z) (correctedDist : Dist) : Z :=
  match correctedDist with
  | Finite q => if Qlt_le_dec 0 q then Qfloor (inject_Z h / q) else h
  | Infinity => 0
  end.

(** Lines 399-434 for a canvas [h] pixels high.  [correctedDist] is the
    product of line 397; the cosine is positive across the field of view, so
    it is a number or [Infinity]. *)
Definition drawColumn (h : Z) (correctedDist : Dist) (side : Z)
    (startSeen exitSeen : bool) : Column :=
  let lh := lineHeight h correctedDist in
  let ds := Qfloor (- inject_Z lh / 2 + inject_Z h / 2) in
  let ds := if ds <? 0 then 0 else ds in
  let de := Qfloor (inject_Z lh / 2 + inject_Z h / 2) in
  let de := if h <=? de then h - 1 else de in
  let shade := if side =? 1 then 180%Q else 220%Q in
  let brightness := levelOf shade 40 correctedDist in
  mkColumn ds de (Qfloor brightness)
    (if exitSeen || startSeen then
       let floorBrightness := levelOf 200 20 correctedDist in
       let floorStart := if Qlt_le_dec (inject_Z de) (inject_Z h / 2)
                         then (inject_Z h / 2)%Q else inject_Z de in
       Some (if exitSeen then ExitTint else StartTint, Qfloor floorBrightness, floorStart)
     else None).

(** ** Keyboard and touch input (maze.js, lines 140-212 and 235-306) *)

Inductive ViewMode : Type := FirstPerson | MapView.

(** The object [keys] of lines 140-147. *)
Record KeyState : Type := mkKeyState {
  k_forward : bool;
  k_backward : bool;
  k_strafeLeft : bool;
  k_strafeRight : bool;
  k_turnLeft : bool;
  k_turnRight : bool
}.

(** The four flags the movement step reads. *)
Definition moveKeys (ks : KeyState) : Keys :=
  mkKeys (k_forward ks) (k_backward ks) (k_strafeLeft ks) (k_strafeRight ks).

(** What the handlers read of the browser:
    [document.pointerLockElement === canvas] and ['ontouchstart' in window]. *)
Record Browser : Type := mkBrowser {
  pointerLocked : bool;
  touchDevice : bool
}.

(** The calls the handlers make on the document and the canvas. *)
Inductive Effect : Type := ExitPointerLock | RequestPointerLock.

(** The [switch (e.code)] of lines 150-170 ([v = true]) and of lines
    190-210 ([v = false]). *)
Definition setKey (code : string) (v : bool) (ks : KeyState) : KeyState :=
  if ((code =? "ArrowUp") || (code =? "KeyW"))%string then
    mkKeyState v (k_backward ks) (k_strafeLeft ks) (k_strafeRight ks)
      (k_turnLeft ks) (k_turnRight ks)
  else if ((code =? "ArrowDown") || (code =? "KeyS"))%string then
    mkKeyState (k_forward ks) v (k_strafeLeft ks) (k_strafeRight ks)
      (k_turnLeft ks) (k_turnRight ks)
  else if (code =? "KeyA")%string then
    mkKeyState (k_forward ks) (k_backward ks) v (k_strafeRight ks)
      (k_turnLeft ks) (k_turnRight ks)
  else if (code =? "KeyD")%string then
    mkKeyState (k_forward ks) (k_backward ks) (k_strafeLeft ks) v
      (k_turnLeft ks) (k_turnRight ks)
  else if (code =? "ArrowLeft")%string then
    mkKeyState (k_forward ks) (k_backward ks) (k_strafeLeft ks) (k_strafeRight ks)
      v (k_turnRight ks)
  else if (code =? "ArrowRight")%string then
    mkKeyState (k_forward ks) (k_backward ks) (k_strafeLeft ks) (k_strafeRight ks)
      (k_turnLeft ks) v
  else ks.

(** [onKeyDown(e)], lines 149-188: the new key flags and view mode, and
    the pointer-lock calls made. *)
Definition onKeyDown (env : Browser) (code : string) (st : KeyState * ViewMode)
  : KeyState * ViewMode * list Effect :=
  if (code =? "KeyM")%string then
    match st.2 with
    | FirstPerson =>
        (st.1, MapView, if pointerLocked env then [ExitPointerLock] else [])
    | MapView =>
        (st.1, FirstPerson,
         if negb (touchDevice env) && negb (pointerLocked env)
         then [RequestPointerLock] else [])
    end
  else (setKey code true st.1, st.2, []).

(** [onKeyUp(e)], lines 189-212. *)
Definition onKeyUp (code : string) (ks : KeyState) : KeyState :=
  setKey code false ks.

Inductive TouchType : Type := MoveTouch | LookTouch.

(** An entry of [ongoingTouches]. *)
Record TouchInfo : Type := mkTouchInfo {
  startX : Q;
  startY : Q;
  lastX : Q;
  lastY : Q;
  ttype : TouchType
}.

(** An element of [e.changedTouches]. *)
Record Touch : Type := mkTouch {
  identifier : Z;
  clientX : Q;
  clientY : Q
}.

(** Lines 243-251 for one entry: the four flags [forward], [backward],
    [strafeLeft], [strafeRight] so far and after the entry. *)
Definition touchFlags (acc : bool * bool * bool * bool) (info : TouchInfo)
  : bool * bool * bool * bool :=
  match ttype info with
  | LookTouch => acc
  | MoveTouch =>
      let '(f, b, l, r) := acc in
      let dx := (lastX info - startX info)%Q in
      let dy := (lastY info - startY info)%Q in
      (if Qlt_le_dec dy (-20) then true else f,
       if Qlt_le_dec 20 dy then true else b,
       if Qlt_le_dec dx (-20) then true else l,
       if Qlt_le_dec 20 dx then true else r)
  end.

(** [updateTouchMovement()], lines 236-257.  The loop [for (id in
    ongoingTouches)] runs over the entries of the table. *)
Definition updateTouchMovement (touches : gmap Z TouchInfo) (ks : KeyState)
  : KeyState :=
  let '(f, b, l, r) :=
    foldl touchFlags (false, false, false, false) (map_to_list touches).*2 in
  mkKeyState f b l r (k_turnLeft ks) (k_turnRight ks).

(** The state the touch handlers change: [ongoingTouches], [keys] and
    [player.angle]. *)
Record TouchState : Type := mkTouchState {
  ongoing : gmap Z TouchInfo;
  tkeys : KeyState;
  tangle : Q
}.

(** The [touchstart] handler, lines 259-270, on a window [innerWidth] wide. *)
Definition touchStart (innerWidth : Q) (changed : list Touch) (st : TouchState)
  : TouchState :=
  mkTouchState
    (foldl (fun ts t =>
              <[identifier t :=
                  mkTouchInfo (clientX t) (clientY t) (clientX t) (clientY t)
                    (if Qlt_le_dec (clientX t) (innerWidth / 2)
                     then MoveTouch else LookTouch)]> ts)
           (ongoing st) changed)
    (tkeys st) (tangle st).

(** Lines 273-290 for one changed touch. *)
Definition touchMoveOne (view : ViewMode) (acc : gmap Z TouchInfo * Q) (t : Touch)
  : gmap Z TouchInfo * Q :=
  match acc.1 !! identifier t with
  | None => acc
  | Some info =>
      let moved := mkTouchInfo (startX info) (startY info) (clientX t) (clientY t)
                     (ttype info) in
      match ttype info with
      | MoveTouch => (<[identifier t := moved]> acc.1, acc.2)
      | LookTouch =>
          (<[identifier t := moved]> acc.1,
           match view with
           | FirstPerson => (acc.2 + (clientX t - lastX info) * (5 # 1000))%Q
           | MapView => acc.2
           end)
      end
  end.

(** The [touchmove] handler, lines 271-292. *)
Definition touchMove (view : ViewMode) (changed : list Touch) (st : TouchState)
  : TouchState :=
  let '(ts, a) := foldl (touchMoveOne view) (ongoing st, tangle st) changed in
  mkTouchState ts (updateTouchMovement ts (tkeys st)) a.

(** [handleEnd], lines 293-301, for [touchend] and [touchcancel]. *)
Definition touchEnd (changed : list Touch) (st : TouchState) : TouchState :=
  let ts := foldl (fun ts t =>
                     match ts !! identifier t with
                     | None => ts
                     | Some _ => delete (identifier t) ts
                     end) (ongoing st) changed in
  mkTouchState ts (updateTouchMovement ts (tkeys st)) (tangle st).

(** ** Vocabulary of the statements *)

(** [p] is a cell of the [w] x [h] lattice. *)
Definition inb (w h : Z) (p : Z * Z) : Prop :=
  0 <= p.1 < w /\ 0 <= p.2 < h.

(** [maze[y][x].visited] and [maze[y][x].walls[d]], read off the lattice. *)
Definition vis (m : Maze) (p : Z * Z) : bool :=
  match getCell m p.1 p.2 with
  | Some c => visited c
  | None => false
  end.

Definition wallAt (m : Maze) (p : Z * Z) (d : Dir) : bool :=
  match getCell m p.1 p.2 with
  | Some c => wallOf c d
  | None => true
  end.

(** One can walk from [a] to [b]: they are neighbours and [a]'s wall on
    that side is absent. *)
Definition passage (m : Maze) (a b : Z * Z) : Prop :=
  exists d, b = neighbour a d /\ wallAt m a d = false.

(** [a :: l] is a walk along [E]; [endOf a l] is where it ends. *)
Fixpoint walk {V : Type} (E : V -> V -> Prop) (a : V) (l : list V) : Prop :=
  match l with
  | [] => True
  | b :: l' => E a b /\ walk E b l'
  end.

Fixpoint endOf {V : Type} (a : V) (l : list V) : V :=
  match l with
  | [] => a
  | b :: l' => endOf b l'
  end.

(** [a :: l] is a path from [a] to [b] that visits no cell twice. *)
Definition simplePath {V : Type} (E : V -> V -> Prop) (a : V) (l : list V) (b : V)
  : Prop :=
  walk E a l /\ endOf a l = b /\ NoDup (a :: l).

(** A sum over all cells of the lattice. *)
Definition sumCells (f : Cell -> nat) (m : Maze) : nat :=
  sum_list ((fun row => sum_list (f <$> row)) <$> m).

Definition absent (b : bool) : nat := if b then 0%nat else 1%nat.

(** Opened boundaries: each boundary between two cells is the east side of
    its left cell or the south side of its upper cell. *)
Definition openedBoundaries (m : Maze) : nat :=
  sumCells (fun c => (absent (w_east (walls c)) + absent (w_south (walls c)))%nat) m.

(** All absent wall flags; an opened boundary has one on each side. *)
Definition openedFlags (m : Maze) : nat :=
  sumCells (fun c => (absent (w_north (walls c)) + absent (w_south (walls c))
                      + absent (w_west (walls c)) + absent (w_east (walls c)))%nat) m.

Definition numVisited (m : Maze) : nat :=
  sumCells (fun c => if visited c then 1%nat else 0%nat) m.

(** [height] rows of [width] cells. *)
Definition shape (w h : Z) (m : Maze) : Prop :=
  length m = Z.to_nat h /\ Forall (fun row => length row = Z.to_nat w) m.

(** Every value of [Math.random()] is in [0, 1). *)
Definition valid_rng (rnd : nat -> Q) : Prop :=
  forall k, (0 <= rnd k)%Q /\ (rnd k < 1)%Q.

(** All neighbours of [p] inside the lattice are visited. *)
Definition closed (w h : Z) (m : Maze) (p : Z * Z) : Prop :=
  forall d, inb w h (neighbour p d) -> vis m (neighbour p d) = true.

(** The invariant of the lattice between two steps of [carve]. *)
Record Inv (w h : Z) (m : Maze) : Prop := mkInv {
  inv_shape : shape w h m;
  inv_outer : forall p d, inb w h p -> ~ inb w h (neighbour p d) -> wallAt m p d = true;
  inv_sym : forall p d, inb w h p -> inb w h (neighbour p d) ->
      wallAt m p d = wallAt m (neighbour p d) (opposite d);
  inv_open_vis : forall p d, wallAt m p d = false ->
      vis m p = true /\ vis m (neighbour p d) = true;
  inv_conn : forall a b, vis m a = true -> vis m b = true ->
      exists l, simplePath (passage m) a l b;
  inv_uniq : forall a b l1 l2,
      simplePath (passage m) a l1 b -> simplePath (passage m) a l2 b -> l1 = l2;
  inv_count : (openedBoundaries m + 1 = numVisited m)%nat;
  inv_flags : (openedFlags m + 2 = 2 * numVisited m)%nat
}.

(** [m'] has every visited cell of [m], and at least as many. *)
Definition extends (m m' : Maze) : Prop :=
  (forall p, vis m p = true -> vis m' p = true) /\ (numVisited m <= numVisited m')%nat.

(** Every cell visited in [m'] and not in [m] has all its neighbours
    visited in [m']. *)
Definition freshClosed (w h : Z) (m m' : Maze) : Prop :=
  forall p, vis m' p = true -> vis m p = true \/ closed w h m' p.

(** What a call of [carve] or one turn of its loop guarantees when it
    starts from the lattice [m] and returns [r]. *)
Definition carved (w h : Z) (m : Maze) (r : Res GenState) (P : Maze -> Prop) : Prop :=
  exists st', r = Ok st' /\ Inv w h (maze st') /\ extends m (maze st') /\ P (maze st').

(** [grid[gy][gx]] at natural indices. *)
Definition tileN (g : Grid) (gx gy : nat) : option Z :=
  row ← g !! gy; row !! gx.

(** [rows] rows of [cols] entries each. *)
Definition dims {A : Type} (cols rows : nat) (l : list (list A)) : Prop :=
  length l = rows /\ Forall (fun row => length row = cols) l.

(** Some write of lines 88-92 targets the tile [(gx, gy)]. *)
Definition opens (m : Maze) (gx gy : nat) : Prop :=
  exists (x y : nat) (c : Cell),
    (row ← m !! y; row !! x) = Some c /\
    ((gx = x * 2 + 1 /\ gy = y * 2 + 1)
     \/ (w_north (walls c) = false /\ gx = x * 2 + 1 /\ gy = y * 2)
     \/ (w_south (walls c) = false /\ gx = x * 2 + 1 /\ gy = y * 2 + 2)
     \/ (w_west (walls c) = false /\ gx = x * 2 /\ gy = y * 2 + 1)
     \/ (w_east (walls c) = false /\ gx = x * 2 + 2 /\ gy = y * 2 + 1))%nat.

(** The grid under construction: it has its final size and every tile is a
    wall unless a write opened it. *)
Definition gridInv (m : Maze) (gw gh : nat) (g : Grid) : Prop :=
  dims gw gh g /\
  forall gx gy v, tileN g gx gy = Some v -> v = 1 \/ (v = 0 /\ opens m gx gy).

(** The interior tiles of the cells before [(x, y)] in the order of the two
    loops are open. *)
Definition gridDone (w : nat) (y x : nat) (g : Grid) : Prop :=
  forall x' y', (y' < y \/ (y' = y /\ x' < x))%nat -> (x' < w)%nat ->
    tileN g (x' * 2 + 1) (y' * 2 + 1) = Some 0.

(** What a call [carve(x, y)] with [fuel] units of recursion depth does when
    it starts on an unvisited cell of a lattice that satisfies the invariant
    once the cell is marked. *)
Definition carveOk (rnd : nat -> Q) (w h : Z) (fuel : nat) : Prop :=
  forall x y st m1,
    alterCell markVisited (maze st) x y = Ok m1 ->
    inb w h (x, y) -> vis (maze st) (x, y) = false -> Inv w h m1 ->
    (Z.to_nat w * Z.to_nat h < numVisited m1 + fuel)%nat ->
    carved w h m1 (carve rnd w h fuel x y st) (freshClosed w h (maze st)).

(** Steps left along the two axes before the walk of a ray is out of a grid
    of [gw] columns and [gh] rows. *)
Definition stepsLeft (r : Ray) (gw gh : Z) (s : Dda) : Z :=
  (if stepX r =? 1 then gw - mapX s else mapX s + 1)
  + (if stepY r =? 1 then gh - mapY s else mapY s + 1).

(** The walk from the tile [(x0, y0)] never goes back, and the axis of its
    last step has moved by at least one tile. *)
Definition ahead (r : Ray) (x0 y0 : Z) (s : Dda) : Prop :=
  0 <= stepX r * (mapX s - x0) /\ 0 <= stepY r * (mapY s - y0).

Definition moved (r : Ray) (x0 y0 : Z) (s : Dda) : Prop :=
  (lastSide s = 0 /\ 1 <= stepX r * (mapX s - x0)) \/
  (lastSide s = 1 /\ 1 <= stepY r * (mapY s - y0)).

(** The projector's two formulas in the words of the specification. *)
Definition specRayAngle (poseAngle fieldOfView : R) (x screenWidth : Z) : R :=
  (poseAngle - fieldOfView / 2 + (IZR x / IZR screenWidth) * fieldOfView)%R.

Definition specCorrectedDistance (distance rayAngle poseAngle : R) : R :=
  (distance * cos (rayAngle - poseAngle))%R.

(** The movement step in the words of the specification: each axis is
    probed at the proposed position moved by the collision radius in the
    direction of travel along that axis. *)
Definition travelSign (from to : Q) : Q :=
  if Qlt_le_dec to from then (-1)%Q else if Qeq_bool to from then 0%Q else 1%Q.

Definition specUpdatePosition (g : Grid) (hd : Heading) (keys : Keys) (delta : Q)
    (pos : Q * Q) : Res (Q * Q) :=
  let moveStep := ((if forward keys then moveSpeed * delta else 0)
                   - (if backward keys then moveSpeed * delta else 0))%Q in
  let strafeStep := ((if strafeRight keys then moveSpeed * delta else 0)
                     - (if strafeLeft keys then moveSpeed * delta else 0))%Q in
  let newX := (pos.1 + cosA hd * moveStep + cosA90 hd * strafeStep)%Q in
  let newY := (pos.2 + sinA hd * moveStep + sinA90 hd * strafeStep)%Q in
  bx ← isWall g (newX + travelSign pos.1 newX * radius)%Q pos.2;
  let x1 := if (bx : bool) then pos.1 else newX in
  by_ ← isWall g x1 (newY + travelSign pos.2 newY * radius)%Q;
  let y1 := if (by_ : bool) then pos.2 else newY in
  Ok (x1, y1).

(** The tile on the outer boundary of a grid of [gw] columns and [gh] rows. *)
Definition onBorder (gw gh : Z) (gx gy : Z) : Prop :=
  0 <= gx < gw /\ 0 <= gy < gh /\ (gx = 0 \/ gx = gw - 1 \/ gy = 0 \/ gy = gh - 1).

(** A walk on the tiles that starts next to [p] and moves, at each step,
    one tile by [sx] along x or one tile by [sy] along y. *)
Fixpoint stepChain (sx sy : Z) (p : Z * Z) (l : list (Z * Z)) : Prop :=
  match l with
  | [] => True
  | c :: l' => (c = (p.1 + sx, p.2) \/ c = (p.1, p.2 + sy)) /\ stepChain sx sy c l'
  end.

(** The tile [t] is inside the grid and is not a wall. *)
Definition passable (W : World) (t : Z * Z) : Prop :=
  outside (grid W) t.1 t.2 = Ok false /\ tileAt (grid W) t.1 t.2 <> Some 1.

(** A write of lines 88-92 for the cell [c] at [(x, y)] targets [(gx, gy)]. *)
Definition opensBy (c : Cell) (x y gx gy : nat) : Prop :=
  ((gx = x * 2 + 1 /\ gy = y * 2 + 1)
   \/ (w_north (walls c) = false /\ gx = x * 2 + 1 /\ gy = y * 2)
   \/ (w_south (walls c) = false /\ gx = x * 2 + 1 /\ gy = y * 2 + 2)
   \/ (w_west (walls c) = false /\ gx = x * 2 /\ gy = y * 2 + 1)
   \/ (w_east (walls c) = false /\ gx = x * 2 + 2 /\ gy = y * 2 + 1))%nat.

(** The writes of the cells before [(x, y)] in the order of the two loops
    have taken effect. *)
Definition gridFilled (m : Maze) (w : nat) (y x : nat) (g : Grid) : Prop :=
  forall x' y' c gx gy,
    (y' < y \/ (y' = y /\ x' < x))%nat -> (x' < w)%nat ->
    (row ← m !! y'; row !! x') = Some c ->
    opensBy c x' y' gx gy -> tileN g gx gy = Some 0.

(** The six key flags are all false. *)
Definition noKeys : KeyState := mkKeyState false false false false false false.

(** Every flag set in [a] is set in [b]. *)
Definition flagsLe (a b : KeyState) : Prop :=
  (k_forward a = true -> k_forward b = true) /\
  (k_backward a = true -> k_backward b = true) /\
  (k_strafeLeft a = true -> k_strafeLeft b = true) /\
  (k_strafeRight a = true -> k_strafeRight b = true) /\
  (k_turnLeft a = true -> k_turnLeft b = true) /\
  (k_turnRight a = true -> k_turnRight b = true).

(** How far a touch has been dragged since it started. *)
Definition dragX (info : TouchInfo) : Q := lastX info - startX info.
Definition dragY (info : TouchInfo) : Q := lastY info - startY info.

(** Some ongoing touch of the movement half satisfies [P]. *)
Definition someMoveTouch (ts : gmap Z TouchInfo) (P : TouchInfo -> Prop) : Prop :=
  exists id info, ts !! id = Some info /\ ttype info = MoveTouch /\ P info.

(** What the movement step needs of the rounding [fl] of the arithmetic:
    it keeps the order, it leaves a rounded number as it is, and it is exact
    on the multiples of 1/4 from -1 to [bound + 2].  Rounding to the nearest
    binary64 number is such a rounding for every [bound] below 2^50. *)
Definition rounding (bound : Z) (fl : Q -> Q) : Prop :=
  (forall a b, (a <= b)%Q -> (fl a <= fl b)%Q) /\
  (forall a, (fl (fl a) == fl a)%Q) /\
  (forall k, -4 <= k <= 4 * (bound + 2) -> (fl (k # 4) == k # 4)%Q).

(** An instance: the rounding that cuts a number down to a multiple of
    1/1024. *)
Definition truncate (q : Q) : Q := Qfloor (q * 1024) # 1024.

(** The tile at the centre of the cell [p]. *)
Definition tileOf (p : Z * Z) : Z * Z := (2 * p.1 + 1, 2 * p.2 + 1).

(** One step on the grid [g]: [b] is next to [a] and is an open tile. *)
Definition corridor (g : Grid) (a b : Z * Z) : Prop :=
  (exists d, b = neighbour a d) /\ tileAt g b.1 b.2 = Some 0.

(** * Proofs *)

(** ** Paths in a graph that grows by one leaf *)

Lemma walk_app {V : Type} (E : V -> V -> Prop) (l1 l2 : list V) (a : V) :
  walk E a (l1 ++ l2) <-> walk E a l1 /\ walk E (endOf a l1) l2.
Proof.
  revert a. induction l1 as [|b l1 IH]; intros a; simpl.
  - tauto.
  - rewrite IH. tauto.
Qed.

Lemma endOf_app {V : Type} (l1 l2 : list V) (a : V) :
  endOf a (l1 ++ l2) = endOf (endOf a l1) l2.
Proof. revert a. induction l1 as [|b l1 IH]; intros a; simpl; auto. Qed.

Lemma walk_impl {V : Type} (E E' : V -> V -> Prop) (l : list V) (a : V) :
  (forall x y, E x y -> E' x y) -> walk E a l -> walk E' a l.
Proof.
  intros HE. revert a. induction l as [|b l IH]; intros a; simpl; [auto|].
  intros [H1 H2]. split; auto.
Qed.

Section Leaf.
Context {V : Type} `{EqDecision V}.
Variables (E E' : V -> V -> Prop) (A B : V).
Hypothesis HAB : A <> B.
Hypothesis HE' : forall x y, E' x y <-> E x y \/ (x = A /\ y = B) \/ (x = B /\ y = A).
Hypothesis HB : forall x y, E x y -> x <> B /\ y <> B.

Lemma leaf_into x : E' x B -> x = A.
Proof using HE' HB HAB.
  intros H. apply HE' in H. destruct H as [H|[[H _]|[_ H]]]; auto.
  - apply HB in H. tauto.
  - congruence.
Qed.

Lemma leaf_out_of y : E' B y -> y = A.
Proof using HE' HB HAB.
  intros H. apply HE' in H. destruct H as [H|[[H _]|[_ H]]]; auto.
  - apply HB in H. tauto.
  - congruence.
Qed.

Lemma leaf_old x y : E' x y -> x <> B -> y <> B -> E x y.
Proof using HE'.
  intros H Hx Hy. apply HE' in H. destruct H as [H|[[_ H]|[H _]]]; tauto.
Qed.

Lemma walk_old l a : a <> B -> B ∉ l -> walk E' a l -> walk E a l.
Proof using HE'.
  revert a. induction l as [|c l IH]; intros a Ha Hl; simpl; [auto|].
  intros [H1 H2]. apply not_elem_of_cons in Hl as [Hc Hl].
  split; [apply leaf_old; auto | apply IH; auto].
Qed.

Lemma walk_never_leaf l a : a <> B -> walk E a l -> B ∉ l.
Proof using HB.
  revert a. induction l as [|c l IH]; intros a Ha; simpl.
  - intros _. apply not_elem_of_nil.
  - intros [H1 H2]. apply HB in H1 as [_ Hc].
    apply not_elem_of_cons. split; [congruence | eapply IH; eauto].
Qed.

Lemma path_avoids_leaf l a b :
  simplePath E' a l b -> a <> B -> b <> B -> B ∉ l.
Proof using All.
  revert a. induction l as [|c l IH]; intros a (Hw & He & Hn) Ha Hb.
  - apply not_elem_of_nil.
  - simpl in Hw, He. destruct Hw as [Hac Hw].
    apply NoDup_cons in Hn as [Hnotin Hn].
    destruct (decide (c = B)) as [->|Hc].
    + exfalso. apply leaf_into in Hac. subst a.
      destruct l as [|c2 l]; simpl in *; [congruence|].
      destruct Hw as [Hw _]. apply leaf_out_of in Hw. subst c2.
      apply Hnotin. right. left.
    + apply not_elem_of_cons. split; [congruence|].
      apply (IH c); auto. repeat split; auto.
Qed.

Lemma path_to_leaf l a :
  simplePath E' a l B -> a <> B ->
  exists l0, l = l0 ++ [B] /\ simplePath E a l0 A.
Proof using All.
  revert a. induction l as [|c l IH]; intros a (Hw & He & Hn) Ha.
  - simpl in He. congruence.
  - simpl in Hw, He. destruct Hw as [Hac Hw].
    pose proof Hn as Hn0.
    apply NoDup_cons in Hn as [Hnotin Hn].
    destruct (decide (c = B)) as [->|Hc].
    + apply leaf_into in Hac. subst a.
      destruct l as [|c2 l].
      * exists []. split; [reflexivity|].
        repeat split; simpl; auto. apply NoDup_singleton.
      * exfalso. simpl in Hw. destruct Hw as [Hw _].
        apply leaf_out_of in Hw. subst c2. apply Hnotin. right. left.
    + destruct (IH c) as (l0 & -> & Hw0 & He0 & Hn1); [repeat split; auto|auto|].
      exists (c :: l0). split; [reflexivity|].
      split; [|split].
      * simpl. split; [apply leaf_old; auto|auto].
      * simpl. auto.
      * change (a :: c :: l0 ++ [B]) with ((a :: c :: l0) ++ [B]) in Hn0.
        apply NoDup_app in Hn0. tauto.
Qed.

Lemma path_from_leaf l b :
  simplePath E' B l b -> b <> B ->
  exists l0, l = A :: l0 /\ simplePath E A l0 b.
Proof using All.
  intros (Hw & He & Hn) Hb.
  destruct l as [|c l]; simpl in *; [congruence|].
  destruct Hw as [Hc Hw]. apply leaf_out_of in Hc. subst c.
  apply NoDup_cons in Hn as [_ Hn].
  exists l. split; [reflexivity|].
  assert (Hl : B ∉ l) by (apply (path_avoids_leaf l A b); repeat split; auto).
  repeat split; auto. apply walk_old; auto.
Qed.

Lemma path_leaf_leaf l : simplePath E' B l B -> l = [].
Proof using All.
  intros (Hw & He & Hn).
  destruct l as [|c l]; [reflexivity|exfalso].
  simpl in *. destruct Hw as [Hc Hw]. apply leaf_out_of in Hc. subst c.
  apply NoDup_cons in Hn as [Hnotin Hn].
  destruct (path_to_leaf l A) as (l0 & -> & _); [repeat split; auto|auto|].
  apply Hnotin. right. apply elem_of_app. right. left.
Qed.

Lemma leaf_unique :
  (forall a b l1 l2, simplePath E a l1 b -> simplePath E a l2 b -> l1 = l2) ->
  forall a b l1 l2, simplePath E' a l1 b -> simplePath E' a l2 b -> l1 = l2.
Proof using All.
  intros HU a b l1 l2 H1 H2.
  destruct (decide (a = B)) as [->|Ha]; destruct (decide (b = B)) as [->|Hb].
  - apply path_leaf_leaf in H1, H2. congruence.
  - apply path_from_leaf in H1 as (k1 & -> & H1); auto.
    apply path_from_leaf in H2 as (k2 & -> & H2); auto.
    f_equal. eapply HU; eauto.
  - apply path_to_leaf in H1 as (k1 & -> & H1); auto.
    apply path_to_leaf in H2 as (k2 & -> & H2); auto.
    f_equal. eapply HU; eauto.
  - pose proof (path_avoids_leaf _ _ _ H1 Ha Hb) as N1.
    pose proof (path_avoids_leaf _ _ _ H2 Ha Hb) as N2.
    destruct H1 as (W1 & E1 & D1), H2 as (W2 & E2 & D2).
    apply (HU a b); repeat split; auto; apply walk_old; auto.
Qed.

Lemma leaf_connected (S S' : V -> Prop) :
  (forall x, S x -> x <> B) -> S A ->
  (forall x, S' x -> S x \/ x = B) ->
  (forall a b, S a -> S b -> exists l, simplePath E a l b) ->
  forall a b, S' a -> S' b -> exists l, simplePath E' a l b.
Proof using All.
  intros HS HA HS' HC a b Ha Hb.
  assert (Hsub : forall x y, E x y -> E' x y) by (intros; apply HE'; auto).
  apply HS' in Ha, Hb. destruct Ha as [Ha| ->], Hb as [Hb| ->].
  - destruct (HC a b Ha Hb) as (l & Hw & He & Hn).
    exists l. repeat split; auto. eapply walk_impl; eauto.
  - destruct (HC a A Ha HA) as (l & Hw & He & Hn).
    exists (l ++ [B]). split; [|split].
    + apply walk_app. split; [eapply walk_impl; eauto|].
      simpl. split; auto. rewrite He. apply HE'. auto.
    + rewrite endOf_app. reflexivity.
    + change (a :: l ++ [B]) with ((a :: l) ++ [B]).
      apply NoDup_app. split; [auto|]. split; [|apply NoDup_singleton].
      intros x Hx Hx'. apply list_elem_of_singleton in Hx'. subst x.
      apply elem_of_cons in Hx as [Hx|Hx].
      * apply (HS a); auto.
      * eapply walk_never_leaf; [|exact Hw|exact Hx]. apply HS; auto.
  - destruct (HC A b HA Hb) as (l & Hw & He & Hn).
    exists (A :: l). split; [|split].
    + simpl. split; [apply HE'; auto|eapply walk_impl; eauto].
    + simpl. auto.
    + apply NoDup_cons. split; auto.
      intros Hx. apply elem_of_cons in Hx as [Hx|Hx]; [congruence|].
      eapply walk_never_leaf; [|exact Hw|exact Hx]. auto.
  - exists []. repeat split; simpl; auto. apply NoDup_singleton.
Qed.
End Leaf.

(** ** Reading and writing the lattice *)

Lemma getCell_alter f m x y m' x' y' :
  alterCell f m x y = Ok m' ->
  getCell m' x' y' =
    if decide ((x', y') = (x, y)) then f <$> getCell m x y else getCell m x' y'.
Proof.
  unfold alterCell. destruct (getCell m x y) as [c|] eqn:G; [|discriminate].
  intros [= <-].
  assert (0 <= y /\ 0 <= x) as [Hy Hx].
  { unfold getCell in G. destruct ((y <? 0) || (x <? 0)) eqn:Hs; [discriminate|].
    apply orb_false_elim in Hs as [Hy Hx].
    apply Z.ltb_ge in Hy. apply Z.ltb_ge in Hx. auto. }
  rewrite <- G. clear G. unfold getCell.
  rewrite (orb_false_intro (y <? 0) (x <? 0)) by (apply Z.ltb_ge; lia).
  destruct ((y' <? 0) || (x' <? 0)) eqn:Hs'.
  { case_decide as Hd; [|reflexivity]. injection Hd as -> ->.
    apply orb_true_iff in Hs'. rewrite !Z.ltb_lt in Hs'. lia. }
  apply orb_false_elim in Hs' as [Hy' Hx'].
  apply Z.ltb_ge in Hy'. apply Z.ltb_ge in Hx'.
  rewrite list_lookup_alter.
  destruct (decide (Z.to_nat y = Z.to_nat y')) as [Ey|Ey].
  - assert (y' = y) by lia. subst y'.
    destruct (m !! Z.to_nat y) as [row|]; simpl.
    + rewrite list_lookup_alter.
      destruct (decide (Z.to_nat x = Z.to_nat x')) as [Ex|Ex].
      * assert (x' = x) by lia. subst x'. rewrite decide_True by reflexivity.
        reflexivity.
      * rewrite decide_False; [reflexivity|]. intros [= ->]. lia.
    + case_decide; reflexivity.
  - rewrite decide_False; [reflexivity|]. intros [= -> ->]. lia.
Qed.

Lemma alterCell_Some f m x y c :
  getCell m x y = Some c -> exists m', alterCell f m x y = Ok m'.
Proof. intros G. unfold alterCell. rewrite G. eauto. Qed.

Lemma shape_alter f m x y m' w h :
  alterCell f m x y = Ok m' -> shape w h m -> shape w h m'.
Proof.
  unfold alterCell. destruct (getCell m x y); [|discriminate].
  intros [= <-] [Hl Hr]. split.
  - rewrite length_alter. exact Hl.
  - apply Forall_alter; [exact Hr|]. intros row _ Hrow.
    rewrite length_alter. exact Hrow.
Qed.

Lemma getCell_inb w h m x y :
  shape w h m -> is_Some (getCell m x y) <-> inb w h (x, y).
Proof.
  intros [Hl Hr]. unfold getCell, inb. simpl.
  destruct ((y <? 0) || (x <? 0)) eqn:Hs.
  - apply orb_true_iff in Hs. rewrite !Z.ltb_lt in Hs.
    split; [intros [? ?]; discriminate | lia].
  - apply orb_false_elim in Hs as [Hy Hx].
    apply Z.ltb_ge in Hy. apply Z.ltb_ge in Hx.
    destruct (m !! Z.to_nat y) as [row|] eqn:R; simpl.
    + assert (Z.to_nat y < length m)%nat by (apply lookup_lt_is_Some; eauto).
      rewrite Forall_lookup in Hr. apply Hr in R.
      rewrite lookup_lt_is_Some. lia.
    + apply lookup_ge_None in R. split; [intros [? ?]; discriminate | lia].
Qed.

Lemma vis_inb w h m p : shape w h m -> vis m p = true -> inb w h p.
Proof.
  intros Hs Hv. destruct p as [x y]. apply (getCell_inb w h m); auto.
  unfold vis in Hv. simpl in Hv. destruct (getCell m x y); [eauto|discriminate].
Qed.

Lemma sum_list_alter {A : Type} (G : A -> nat) (F : A -> A) (l : list A) i a :
  l !! i = Some a ->
  (sum_list (G <$> alter F i l) + G a = sum_list (G <$> l) + G (F a))%nat.
Proof.
  revert i. induction l as [|b l IH]; intros [|i] H; csimpl in *; try discriminate.
  - injection H as ->. lia.
  - specialize (IH i H). lia.
Qed.

Lemma sumCells_alter g f m x y m' c :
  getCell m x y = Some c -> alterCell f m x y = Ok m' ->
  (sumCells g m' + g c = sumCells g m + g (f c))%nat.
Proof.
  intros G. unfold alterCell. rewrite G. intros [= <-].
  unfold getCell in G. destruct ((y <? 0) || (x <? 0)); [discriminate|].
  destruct (m !! Z.to_nat y) as [row|] eqn:R; simpl in G; [|discriminate].
  unfold sumCells.
  pose proof (sum_list_alter (fun row => sum_list (g <$> row))
                (alter f (Z.to_nat x)) m _ _ R) as H1.
  pose proof (sum_list_alter g f row _ _ G) as H2. simpl in H1. lia.
Qed.

Lemma sumCells_bound g m w h :
  shape w h m -> (forall c, g c <= 1)%nat ->
  (sumCells g m <= Z.to_nat w * Z.to_nat h)%nat.
Proof.
  intros [Hl Hr] Hg. unfold sumCells. rewrite <- Hl. clear Hl.
  induction Hr as [|row m Hrow Hr IH]; csimpl; [lia|].
  assert (sum_list (g <$> row) <= length row)%nat.
  { clear -Hg. induction row as [|c row IH]; csimpl; [lia|]. specialize (Hg c). lia. }
  lia.
Qed.

Lemma sumCells_full g m w h :
  shape w h m -> (forall x y c, getCell m x y = Some c -> g c = 1%nat) ->
  sumCells g m = (Z.to_nat w * Z.to_nat h)%nat.
Proof.
  intros [Hl Hr] Hg. unfold sumCells.
  assert (Hrows : forall i row, m !! i = Some row ->
                    sum_list (g <$> row) = Z.to_nat w).
  { intros i row R. rewrite Forall_lookup in Hr. rewrite <- (Hr _ _ R).
    assert (Hc : forall j c, row !! j = Some c -> g c = 1%nat).
    { intros j c C. apply (Hg (Z.of_nat j) (Z.of_nat i)). unfold getCell.
      rewrite orb_false_intro by (apply Z.ltb_ge; lia).
      rewrite !Nat2Z.id, R. simpl. exact C. }
    clear -Hc. induction row as [|c row IH]; csimpl; [reflexivity|].
    rewrite (Hc 0%nat c eq_refl). f_equal. apply IH.
    intros j c' C. apply (Hc (S j)). exact C. }
  rewrite <- Hl. clear Hl Hr Hg.
  induction m as [|row m IH]; csimpl; [lia|].
  rewrite (Hrows 0%nat row eq_refl), IH; [lia|].
  intros i row' R. apply (Hrows (S i)). exact R.
Qed.

Lemma sumCells_replicate g n k c :
  sumCells g (replicate n (replicate k c)) = (n * (k * g c))%nat.
Proof.
  unfold sumCells. rewrite fmap_replicate, fmap_replicate.
  rewrite sum_list_replicate, sum_list_replicate. reflexivity.
Qed.

(** The three writes of [carve], seen through [vis] and [wallAt]. *)

Lemma wallOf_clear d d' c :
  wallOf (clearWallOf d c) d' = if decide (d' = d) then false else wallOf c d'.
Proof. destruct d, d'; reflexivity. Qed.

Lemma vis_clear d m x y m' p :
  alterCell (clearWallOf d) m x y = Ok m' -> vis m' p = vis m p.
Proof.
  intros H. unfold vis. rewrite (getCell_alter _ _ _ _ _ _ _ H).
  case_decide as Hd; [|reflexivity]. destruct p; injection Hd as -> ->. simpl.
  destruct (getCell m x y); reflexivity.
Qed.

Lemma getCell_alter_at f m (q : Z * Z) m' (p : Z * Z) :
  alterCell f m q.1 q.2 = Ok m' ->
  getCell m' p.1 p.2 =
    if decide (p = q) then f <$> getCell m q.1 q.2 else getCell m p.1 p.2.
Proof.
  intros H. rewrite (getCell_alter _ _ _ _ _ _ _ H).
  destruct p as [px py], q as [qx qy]. simpl. reflexivity.
Qed.

Lemma wallAt_clear d m (q : Z * Z) m' c p d' :
  getCell m q.1 q.2 = Some c ->
  alterCell (clearWallOf d) m q.1 q.2 = Ok m' ->
  wallAt m' p d' = if decide (p = q /\ d' = d) then false else wallAt m p d'.
Proof.
  intros G H. unfold wallAt. rewrite (getCell_alter_at _ _ _ _ _ H).
  destruct (decide (p = q)) as [Hd|Hd].
  - subst p. rewrite G. simpl. rewrite wallOf_clear.
    destruct (decide (d' = d)).
    + rewrite decide_True by auto. reflexivity.
    + rewrite decide_False by tauto. reflexivity.
  - rewrite decide_False by tauto. reflexivity.
Qed.

Lemma vis_mark m (q : Z * Z) m' c p :
  getCell m q.1 q.2 = Some c ->
  alterCell markVisited m q.1 q.2 = Ok m' ->
  vis m' p = if decide (p = q) then true else vis m p.
Proof.
  intros G H. unfold vis. rewrite (getCell_alter_at _ _ _ _ _ H).
  case_decide as Hd; [|reflexivity]. rewrite G. reflexivity.
Qed.

Lemma wallAt_mark m x y m' p d :
  alterCell markVisited m x y = Ok m' -> wallAt m' p d = wallAt m p d.
Proof.
  intros H. unfold wallAt. rewrite (getCell_alter _ _ _ _ _ _ _ H).
  case_decide as Hd; [|reflexivity]. destruct p; injection Hd as -> ->. simpl.
  destruct (getCell m x y); reflexivity.
Qed.

(** ** One carving step keeps the invariant *)

Lemma neighbour_opposite p d : neighbour (neighbour p d) (opposite d) = p.
Proof. destruct p as [x y], d; simpl; f_equal; lia. Qed.

Lemma opposite_opposite d : opposite (opposite d) = d.
Proof. destruct d; reflexivity. Qed.

Lemma neighbour_neq p d : neighbour p d <> p.
Proof. destruct p as [x y], d; simpl; intros [=]; lia. Qed.

Lemma inb_getCell w h m p :
  shape w h m -> inb w h p -> exists c, getCell m p.1 p.2 = Some c.
Proof.
  intros Hs Hp. destruct p as [x y].
  apply (getCell_inb w h m x y Hs) in Hp. destruct Hp as [c Hc]. eauto.
Qed.

Section Step.
Variables (w h : Z) (m m2 m3 m4 : Maze) (A B : Z * Z) (d : Dir).
Hypothesis HI : Inv w h m.
Hypothesis HA : inb w h A.
Hypothesis HBn : B = neighbour A d.
Hypothesis HBin : inb w h B.
Hypothesis HvA : vis m A = true.
Hypothesis HvB : vis m B = false.
Hypothesis H2 : alterCell (clearWallOf d) m A.1 A.2 = Ok m2.
Hypothesis H3 : alterCell (clearWallOf (opposite d)) m2 B.1 B.2 = Ok m3.
Hypothesis H4 : alterCell markVisited m3 B.1 B.2 = Ok m4.

Lemma step_neq : A <> B.
Proof using HBn. rewrite HBn. intros H. symmetry in H. eapply neighbour_neq; eauto. Qed.

Lemma step_back : neighbour B (opposite d) = A.
Proof using HBn. rewrite HBn. apply neighbour_opposite. Qed.

Lemma step_cells :
  exists cA cB,
    getCell m A.1 A.2 = Some cA /\ getCell m B.1 B.2 = Some cB /\
    getCell m2 B.1 B.2 = Some cB /\
    getCell m3 B.1 B.2 = Some (clearWallOf (opposite d) cB) /\
    wallOf cA d = true /\ wallOf cB (opposite d) = true /\ visited cB = false.
Proof using All.
  destruct (inb_getCell w h m A (inv_shape _ _ _ HI) HA) as [cA GA].
  destruct (inb_getCell w h m B (inv_shape _ _ _ HI) HBin) as [cB GB].
  exists cA, cB.
  assert (G2 : getCell m2 B.1 B.2 = Some cB).
  { rewrite (getCell_alter_at _ _ _ _ _ H2).
    rewrite decide_False; [exact GB|].
    intros E. apply step_neq. congruence. }
  assert (G3 : getCell m3 B.1 B.2 = Some (clearWallOf (opposite d) cB)).
  { rewrite (getCell_alter_at _ _ _ _ _ H3).
    rewrite decide_True by reflexivity. rewrite G2. reflexivity. }
  repeat split; auto.
  - destruct (wallOf cA d) eqn:Hw; [reflexivity|exfalso].
    destruct (inv_open_vis _ _ _ HI A d) as [_ Hv].
    { unfold wallAt. rewrite GA. exact Hw. }
    rewrite <- HBn in Hv. congruence.
  - destruct (wallOf cB (opposite d)) eqn:Hw; [reflexivity|exfalso].
    destruct (inv_open_vis _ _ _ HI B (opposite d)) as [Hv _].
    { unfold wallAt. rewrite GB. exact Hw. }
    congruence.
  - unfold vis in HvB. rewrite GB in HvB. exact HvB.
Qed.

Lemma step_wallAt p d' :
  wallAt m4 p d' =
    if decide ((p = A /\ d' = d) \/ (p = B /\ d' = opposite d)) then false
    else wallAt m p d'.
Proof using All.
  destruct step_cells as (cA & cB & GA & GB & G2 & G3 & _).
  rewrite (wallAt_mark _ _ _ _ _ _ H4).
  rewrite (wallAt_clear _ _ _ _ _ _ _ G2 H3).
  rewrite (wallAt_clear _ _ _ _ _ _ _ GA H2).
  repeat case_decide; try reflexivity; tauto.
Qed.

Lemma step_vis p : vis m4 p = if decide (p = B) then true else vis m p.
Proof using All.
  destruct step_cells as (cA & cB & GA & GB & G2 & G3 & _).
  rewrite (vis_mark _ _ _ _ _ G3 H4).
  case_decide; [reflexivity|].
  rewrite (vis_clear _ _ _ _ _ _ H3), (vis_clear _ _ _ _ _ _ H2). reflexivity.
Qed.

Lemma step_vis_mono p : vis m p = true -> vis m4 p = true.
Proof using All. intros Hp. rewrite step_vis. case_decide; auto. Qed.

Lemma step_sum g :
  exists cA cB,
    wallOf cA d = true /\ wallOf cB (opposite d) = true /\ visited cB = false /\
    (sumCells g m4 + g cA + g cB + g (clearWallOf (opposite d) cB)
     = sumCells g m + g (clearWallOf d cA) + g (clearWallOf (opposite d) cB)
       + g (markVisited (clearWallOf (opposite d) cB)))%nat.
Proof using All.
  destruct step_cells as (cA & cB & GA & GB & G2 & G3 & WA & WB & VB).
  exists cA, cB. repeat split; auto.
  pose proof (sumCells_alter g _ _ _ _ _ _ GA H2).
  pose proof (sumCells_alter g _ _ _ _ _ _ G2 H3).
  pose proof (sumCells_alter g _ _ _ _ _ _ G3 H4).
  lia.
Qed.

Lemma step_numVisited : numVisited m4 = S (numVisited m).
Proof using All.
  destruct (step_sum (fun c => if visited c then 1%nat else 0%nat))
    as (cA & cB & WA & WB & VB & Hs).
  unfold numVisited. destruct cA as [vA wA], cB as [vB wB], d; simpl in *;
    subst; simpl in *; lia.
Qed.

Lemma step_passage x y :
  passage m4 x y <-> passage m x y \/ (x = A /\ y = B) \/ (x = B /\ y = A).
Proof using All.
  unfold passage. split.
  - intros (d' & -> & Hw). rewrite step_wallAt in Hw.
    case_decide as Hc.
    + right. destruct Hc as [[-> ->]|[-> ->]].
      * left. auto.
      * right. split; [reflexivity|]. apply step_back.
    + left. eauto.
  - intros [(d' & -> & Hw)|[[-> ->]|[-> ->]]].
    + exists d'. split; [reflexivity|]. rewrite step_wallAt.
      case_decide; auto.
    + exists d. split; [exact HBn|]. rewrite step_wallAt.
      rewrite decide_True; auto.
    + exists (opposite d). split; [symmetry; apply step_back|].
      rewrite step_wallAt. rewrite decide_True; auto.
Qed.

Lemma step_isolated x y : passage m x y -> x <> B /\ y <> B.
Proof using All.
  intros (d' & -> & Hw). apply (inv_open_vis _ _ _ HI) in Hw as [V1 V2].
  split; intros E; congruence.
Qed.

Lemma step_Inv : Inv w h m4.
Proof using All.
  pose proof step_neq as Hne. pose proof step_back as Hback.
  constructor.
  - eapply shape_alter; [exact H4|]. eapply shape_alter; [exact H3|].
    eapply shape_alter; [exact H2|]. apply (inv_shape _ _ _ HI).
  - intros p d' Hp Hn. rewrite step_wallAt. case_decide as Hc.
    + exfalso. destruct Hc as [[-> ->]|[-> ->]]; apply Hn; congruence.
    + apply (inv_outer _ _ _ HI); auto.
  - intros p d' Hp Hn. rewrite !step_wallAt.
    destruct (decide ((p = A /\ d' = d) \/ (p = B /\ d' = opposite d))) as [Hc|Hc].
    + rewrite decide_True; [reflexivity|].
      destruct Hc as [[-> ->]|[-> ->]].
      * right. auto.
      * left. rewrite Hback, opposite_opposite. auto.
    + rewrite decide_False; [apply (inv_sym _ _ _ HI); auto|].
      intros [[E1 E2]|[E1 E2]]; apply Hc.
      * right. split; [|rewrite <- E2, opposite_opposite; reflexivity].
        rewrite <- (neighbour_opposite p d'), E1, E2. symmetry. exact HBn.
      * left.
        split; [|rewrite <- (opposite_opposite d'), E2; apply opposite_opposite].
        rewrite <- (neighbour_opposite p d'), E1, E2. exact Hback.
  - intros p d' Hw. rewrite step_wallAt in Hw. case_decide as Hc.
    + rewrite !step_vis. destruct Hc as [[-> ->]|[-> ->]].
      * rewrite <- HBn. rewrite decide_False by auto.
        rewrite decide_True by auto. auto.
      * rewrite Hback. rewrite decide_True by auto.
        rewrite decide_False by auto. auto.
    + apply (inv_open_vis _ _ _ HI) in Hw as [V1 V2].
      split; apply step_vis_mono; auto.
  - apply (leaf_connected (passage m) (passage m4) A B Hne step_passage
             step_isolated (fun p => vis m p = true) (fun p => vis m4 p = true)).
    + intros x Hx ->. congruence.
    + exact HvA.
    + intros x Hx. rewrite step_vis in Hx. case_decide; auto.
    + apply (inv_conn _ _ _ HI).
  - apply (leaf_unique (passage m) (passage m4) A B Hne step_passage step_isolated).
    apply (inv_uniq _ _ _ HI).
  - pose proof step_numVisited as Hv. pose proof (inv_count _ _ _ HI) as Hc.
    destruct (step_sum (fun c => (absent (w_east (walls c))
                                  + absent (w_south (walls c)))%nat))
      as (cA & cB & WA & WB & VB & Hs).
    unfold openedBoundaries in *.
    destruct cA as [vA [nA sA wA eA]], cB as [vB [nB sB wB eB]], d; simpl in *;
      subst; simpl in *; lia.
  - pose proof step_numVisited as Hv. pose proof (inv_flags _ _ _ HI) as Hc.
    destruct (step_sum (fun c => (absent (w_north (walls c))
                                  + absent (w_south (walls c))
                                  + absent (w_west (walls c))
                                  + absent (w_east (walls c)))%nat))
      as (cA & cB & WA & WB & VB & Hs).
    unfold openedFlags in *.
    destruct cA as [vA [nA sA wA eA]], cB as [vB [nB sB wB eB]], d; simpl in *;
      subst; simpl in *; lia.
Qed.
End Step.

(** ** The shuffle returns every direction *)

Lemma swap_length (l l' : list Dir) i j : swap l i j = Some l' -> length l' = length l.
Proof.
  unfold swap. destruct (l !! i); simpl; [|discriminate].
  destruct (l !! j); simpl; [|discriminate].
  intros [= <-]. rewrite !length_insert. reflexivity.
Qed.

Lemma swap_elem (l l' : list Dir) i j x : swap l i j = Some l' -> x ∈ l -> x ∈ l'.
Proof.
  unfold swap. destruct (l !! i) as [ai|] eqn:Hi; simpl; [|discriminate].
  destruct (l !! j) as [aj|] eqn:Hj; simpl; [|discriminate].
  intros [= <-] Hx. apply list_elem_of_lookup in Hx as [k Hk].
  assert (Li : (i < length l)%nat) by (apply lookup_lt_is_Some; eauto).
  assert (Lj : (j < length l)%nat) by (apply lookup_lt_is_Some; eauto).
  apply list_elem_of_lookup.
  destruct (decide (k = i)) as [->|Ki].
  - exists j. rewrite list_lookup_insert_eq by (rewrite length_insert; lia).
    congruence.
  - destruct (decide (k = j)) as [->|Kj].
    + exists i. rewrite list_lookup_insert_ne by auto.
      rewrite list_lookup_insert_eq by lia. congruence.
    + exists k. rewrite !list_lookup_insert_ne by auto. exact Hk.
Qed.

Lemma swap_Some (l : list Dir) i j :
  (i < length l)%nat -> (j < length l)%nat -> is_Some (swap l i j).
Proof.
  intros Hi Hj. apply lookup_lt_is_Some in Hi as [ai Hi].
  apply lookup_lt_is_Some in Hj as [aj Hj].
  unfold swap. rewrite Hi, Hj. simpl. eauto.
Qed.

Lemma random_index (r : Q) (i : nat) :
  (0 <= r)%Q -> (r < 1)%Q ->
  0 <= Qfloor (r * inject_Z (Z.of_nat i + 1)) <= Z.of_nat i.
Proof.
  intros H0 H1.
  assert (Hpos : (0 < inject_Z (Z.of_nat i + 1))%Q).
  { change 0%Q with (inject_Z 0). rewrite <- Zlt_Qlt. lia. }
  split.
  - change 0 with (Qfloor 0). apply Qfloor_resp_le.
    apply Qmult_le_0_compat; [exact H0 | apply Qlt_le_weak; exact Hpos].
  - assert (Hlt : (r * inject_Z (Z.of_nat i + 1) < inject_Z (Z.of_nat i + 1))%Q).
    { rewrite <- (Qmult_1_l (inject_Z (Z.of_nat i + 1))) at 2.
      apply Qmult_lt_compat_r; auto. }
    pose proof (Qfloor_le (r * inject_Z (Z.of_nat i + 1))) as Hf.
    assert (Hz : (inject_Z (Qfloor (r * inject_Z (Z.of_nat i + 1)))
                  < inject_Z (Z.of_nat i + 1))%Q)
      by (eapply Qle_lt_trans; eauto).
    rewrite <- Zlt_Qlt in Hz. lia.
Qed.

Lemma shuffleFrom_S (rnd : nat -> Q) i (l : list Dir) c :
  shuffleFrom rnd (S i) l c =
    let j := Qfloor (rnd c * inject_Z (Z.of_nat (S i) + 1)) in
    if (j <? 0) || (Z.of_nat (S i) <? j) then OutOfContract
    else match swap l (S i) (Z.to_nat j) with
         | Some l' => shuffleFrom rnd i l' (S c)
         | None => OutOfContract
         end.
Proof. reflexivity. Qed.

Lemma shuffleFrom_spec (rnd : nat -> Q) i (l : list Dir) c :
  valid_rng rnd -> (i < length l)%nat ->
  exists l' c', shuffleFrom rnd i l c = Ok (l', c') /\ forall x, x ∈ l -> x ∈ l'.
Proof.
  intros Hr. revert l c. induction i as [|i IH]; intros l c Hi.
  - simpl. eauto.
  - rewrite shuffleFrom_S. cbv zeta.
    destruct (Hr c) as [R0 R1].
    pose proof (random_index (rnd c) (S i) R0 R1) as [J0 J1].
    set (j := Qfloor (rnd c * inject_Z (Z.of_nat (S i) + 1))) in *.
    rewrite (orb_false_intro (j <? 0) (Z.of_nat (S i) <? j))
      by (apply Z.ltb_ge; lia).
    destruct (swap_Some l (S i) (Z.to_nat j)) as [l1 H1]; [lia|lia|].
    rewrite H1.
    destruct (IH l1 (S c)) as (l' & c' & H2 & Hin).
    { rewrite (swap_length _ _ _ _ H1). lia. }
    exists l', c'. split; [exact H2|].
    intros x Hx. apply Hin. eapply swap_elem; eauto.
Qed.

Lemma shuffle_all (rnd : nat -> Q) c :
  valid_rng rnd ->
  exists dirs c', shuffle rnd [north; south; west; east] c = Ok (dirs, c') /\
    forall d : Dir, d ∈ dirs.
Proof.
  intros Hr. destruct (shuffleFrom_spec rnd 3 [north; south; west; east] c Hr)
    as (l' & c' & H & Hin); [simpl; lia|].
  exists l', c'. split; [exact H|].
  intros d. apply Hin. destruct d; repeat constructor.
Qed.

(** ** The depth-first carving *)

Lemma extends_refl m : extends m m.
Proof. split; auto. Qed.

Lemma extends_trans m1 m2 m3 : extends m1 m2 -> extends m2 m3 -> extends m1 m3.
Proof. intros [A1 B1] [A2 B2]. split; [auto|lia]. Qed.

Lemma closed_extends w h m m' p : extends m m' -> closed w h m p -> closed w h m' p.
Proof. intros [He _] Hc d Hd. apply He, Hc, Hd. Qed.

Lemma numVisited_bound w h m : shape w h m -> (numVisited m <= Z.to_nat w * Z.to_nat h)%nat.
Proof. intros Hs. apply sumCells_bound; auto. intros c. destruct (visited c); lia. Qed.

Section Carve.
Variables (rnd : nat -> Q) (w h : Z).
Hypothesis Hrnd : valid_rng rnd.

Lemma carveDir_spec fuel x y d cur :
  carveOk rnd w h fuel ->
  Inv w h (maze cur) -> inb w h (x, y) -> vis (maze cur) (x, y) = true ->
  (Z.to_nat w * Z.to_nat h < numVisited (maze cur) + S fuel)%nat ->
  carved w h (maze cur) (carveDir w h (carve rnd w h fuel) x y d cur)
    (fun m' => freshClosed w h (maze cur) m' /\
               (inb w h (neighbour (x, y) d) -> vis m' (neighbour (x, y) d) = true)).
Proof using Type.
  intros IH HI HA HvA Hfuel. unfold carveDir.
  destruct (neighbour (x, y) d) as [nx ny] eqn:N.
  destruct ((0 <=? nx) && (nx <? w) && (0 <=? ny) && (ny <? h)) eqn:Hb.
  - assert (HB : inb w h (nx, ny)).
    { rewrite !andb_true_iff in Hb. unfold inb. simpl. lia. }
    pose proof (inv_shape _ _ _ HI) as Hs.
    destruct (inb_getCell w h _ _ Hs HB) as [cB GB]. simpl in GB. rewrite GB.
    destruct (visited cB) eqn:VB.
    + exists cur. split; [reflexivity|]. split; [exact HI|].
      split; [apply extends_refl|]. split.
      * intros p Hp. auto.
      * intros _. unfold vis. simpl. rewrite GB. exact VB.
    + destruct (inb_getCell w h _ _ Hs HA) as [cA GA]. simpl in GA.
      destruct (alterCell_Some (clearWallOf d) _ _ _ _ GA) as [m2 H2].
      assert (G2 : is_Some (getCell m2 nx ny)).
      { apply (getCell_inb w h); auto. eapply shape_alter; eauto. }
      destruct G2 as [c2 G2].
      destruct (alterCell_Some (clearWallOf (opposite d)) _ _ _ _ G2) as [m3 H3].
      assert (G3 : is_Some (getCell m3 nx ny)).
      { apply (getCell_inb w h); auto. do 2 (eapply shape_alter; eauto). }
      destruct G3 as [c3 G3].
      destruct (alterCell_Some markVisited _ _ _ _ G3) as [m4 H4].
      rewrite H2. simpl. rewrite H3. simpl.
      assert (HvB : vis (maze cur) (nx, ny) = false).
      { unfold vis. simpl. rewrite GB. exact VB. }
      pose proof (step_Inv w h (maze cur) m2 m3 m4 (x, y) (nx, ny) d
                    HI HA (eq_sym N) HB HvA HvB H2 H3 H4) as HI4.
      pose proof (step_numVisited w h (maze cur) m2 m3 m4 (x, y) (nx, ny) d
                    HI HA (eq_sym N) HB HvA HvB H2 H3 H4) as HN4.
      pose proof (step_vis w h (maze cur) m2 m3 m4 (x, y) (nx, ny) d
                    HI HA (eq_sym N) HB HvA HvB H2 H3 H4) as HV4.
      assert (Hv3 : forall p, vis m3 p = vis (maze cur) p).
      { intros p. rewrite (vis_clear _ _ _ _ _ _ H3), (vis_clear _ _ _ _ _ _ H2).
        reflexivity. }
      destruct (IH nx ny (mkGen m3 (calls cur)) m4) as (st' & Hr & HI' & He & Hf).
      { exact H4. }
      { exact HB. }
      { simpl. rewrite Hv3. exact HvB. }
      { exact HI4. }
      { lia. }
      simpl in Hf.
      exists st'. split; [exact Hr|]. split; [exact HI'|].
      destruct He as [He1 He2].
      split; [split|split].
      * intros p Hp. apply He1. rewrite HV4. case_decide; auto.
      * lia.
      * intros p Hp. destruct (Hf p Hp) as [Hp'|Hp']; auto.
        left. rewrite <- Hv3. exact Hp'.
      * intros _. apply He1. rewrite HV4. rewrite decide_True; auto.
  - exists cur. split; [reflexivity|]. split; [exact HI|].
    split; [apply extends_refl|]. split.
    + intros p Hp. auto.
    + intros [Hx Hy]. simpl in *. exfalso.
      rewrite !andb_false_iff in Hb.
      rewrite !Z.leb_gt, !Z.ltb_ge in Hb. lia.
Qed.

Lemma carveDirs_spec fuel x y dirs cur :
  carveOk rnd w h fuel ->
  Inv w h (maze cur) -> inb w h (x, y) -> vis (maze cur) (x, y) = true ->
  (Z.to_nat w * Z.to_nat h < numVisited (maze cur) + S fuel)%nat ->
  carved w h (maze cur) (carveDirs w h (carve rnd w h fuel) x y dirs cur)
    (fun m' => freshClosed w h (maze cur) m' /\
               forall d, d ∈ dirs -> inb w h (neighbour (x, y) d) ->
                         vis m' (neighbour (x, y) d) = true).
Proof using Type.
  intros IH. revert cur. induction dirs as [|d dirs IHd]; intros cur HI HA HvA Hfuel.
  - exists cur. split; [reflexivity|]. split; [exact HI|].
    split; [apply extends_refl|]. split.
    + intros p Hp. auto.
    + intros d Hd. apply elem_of_nil in Hd. contradiction.
  - simpl.
    destruct (carveDir_spec fuel x y d cur IH HI HA HvA Hfuel)
      as (st1 & Hr1 & HI1 & He1 & Hf1 & Hn1).
    rewrite Hr1. simpl.
    destruct (IHd st1) as (st2 & Hr2 & HI2 & He2 & Hf2 & Hn2); auto.
    { apply He1. exact HvA. }
    { destruct He1 as [_ He1]. lia. }
    exists st2. split; [exact Hr2|]. split; [exact HI2|].
    split; [eapply extends_trans; eauto|]. split.
    + intros p Hp. destruct (Hf2 p Hp) as [Hp'|Hp']; auto.
      destruct (Hf1 p Hp') as [Hp''|Hp'']; auto.
      right. eapply closed_extends; eauto.
    + intros d' Hd' Hin. apply elem_of_cons in Hd' as [->|Hd']; auto.
      apply He2. auto.
Qed.

Lemma carve_spec fuel : carveOk rnd w h fuel.
Proof using Hrnd.
  induction fuel as [|fuel IH]; intros x y st m1 H1 HA Hv HI Hfuel.
  - exfalso. pose proof (numVisited_bound w h m1 (inv_shape _ _ _ HI)). lia.
  - simpl. rewrite H1. simpl.
    destruct (shuffle_all rnd (calls st) Hrnd) as (dirs & c' & Hsh & Hall).
    rewrite Hsh. simpl.
    assert (GA : exists c, getCell (maze st) x y = Some c).
    { unfold alterCell in H1. destruct (getCell (maze st) x y); [eauto|discriminate]. }
    destruct GA as [cA GA].
    assert (HV1 : forall p, vis m1 p
              = if decide (p = (x, y)) then true else vis (maze st) p)
      by (intros p; apply (vis_mark (maze st) (x, y) m1 cA p GA H1)).
    destruct (carveDirs_spec fuel x y dirs (mkGen m1 c') IH)
      as (st' & Hr & HI' & He & Hf & Hn); simpl; auto.
    { rewrite HV1. rewrite decide_True; auto. }
    simpl in *.
    exists st'. split; [exact Hr|]. split; [exact HI'|]. split; [exact He|].
    intros p Hp. destruct (Hf p Hp) as [Hp'|Hp']; auto.
    rewrite HV1 in Hp'. case_decide as Hd; auto.
    subst p. right. intros d Hd. apply Hn; auto.
Qed.
End Carve.

(** ** The lattice before and after [carve(0, 0)] *)

Lemma shape_init w h : shape w h (initMaze w h).
Proof.
  split; unfold initMaze.
  - apply length_replicate.
  - apply Forall_replicate. apply length_replicate.
Qed.

Lemma getCell_init w h x y c : getCell (initMaze w h) x y = Some c -> c = freshCell.
Proof.
  unfold getCell, initMaze. destruct ((y <? 0) || (x <? 0)); [discriminate|].
  destruct (replicate (Z.to_nat h) _ !! Z.to_nat y) as [row|] eqn:R; [|discriminate].
  apply lookup_replicate in R as [-> _]. simpl.
  intros C. apply lookup_replicate in C as [-> _]. reflexivity.
Qed.

Lemma vis_init w h p : vis (initMaze w h) p = false.
Proof.
  unfold vis. destruct (getCell _ _ _) as [c|] eqn:G; [|reflexivity].
  apply getCell_init in G. subst c. reflexivity.
Qed.

Lemma wallAt_init w h p d : wallAt (initMaze w h) p d = true.
Proof.
  unfold wallAt. destruct (getCell _ _ _) as [c|] eqn:G; [|reflexivity].
  apply getCell_init in G. subst c. destruct d; reflexivity.
Qed.

Lemma init_Inv w h :
  1 <= w -> 1 <= h ->
  exists m1, alterCell markVisited (initMaze w h) 0 0 = Ok m1 /\ Inv w h m1 /\
             numVisited m1 = 1%nat.
Proof.
  intros Hw Hh.
  pose proof (shape_init w h) as Hs.
  destruct (inb_getCell w h _ (0, 0) Hs) as [c0 G0]; [unfold inb; simpl; lia|].
  simpl in G0. pose proof (getCell_init _ _ _ _ _ G0) as ->.
  destruct (alterCell_Some markVisited _ _ _ _ G0) as [m1 H1].
  exists m1. split; [exact H1|].
  assert (HW : forall p d, wallAt m1 p d = true).
  { intros p d. rewrite (wallAt_mark _ _ _ _ _ _ H1). apply wallAt_init. }
  assert (HV : forall p, vis m1 p = true -> p = (0, 0)).
  { intros p. rewrite (vis_mark _ (0, 0) _ _ _ G0 H1).
    case_decide; auto. rewrite vis_init. discriminate. }
  assert (HP : forall a l, walk (passage m1) a l -> l = []).
  { intros a [|c l]; [reflexivity|]. simpl. intros [(d & _ & Hd) _].
    rewrite HW in Hd. discriminate. }
  assert (Hsum : forall g, (sumCells g m1 + g freshCell
            = Z.to_nat h * (Z.to_nat w * g freshCell) + g (markVisited freshCell))%nat).
  { intros g. rewrite (sumCells_alter g _ _ _ _ _ _ G0 H1).
    unfold initMaze. rewrite sumCells_replicate. reflexivity. }
  assert (HN : numVisited m1 = 1%nat).
  { unfold numVisited. specialize (Hsum (fun c => if visited c then 1%nat else 0%nat)).
    simpl in Hsum. lia. }
  split; [|exact HN]. constructor.
  - eapply shape_alter; eauto.
  - intros; apply HW.
  - intros. rewrite !HW. reflexivity.
  - intros p d Hd. rewrite HW in Hd. discriminate.
  - intros a b Ha Hb. apply HV in Ha, Hb. subst. exists [].
    repeat split; simpl; auto. apply NoDup_singleton.
  - intros a b l1 l2 [W1 _] [W2 _]. apply HP in W1, W2. congruence.
  - rewrite HN. unfold openedBoundaries.
    specialize (Hsum (fun c => (absent (w_east (walls c))
                                + absent (w_south (walls c)))%nat)).
    simpl in Hsum. lia.
  - rewrite HN. unfold openedFlags.
    specialize (Hsum (fun c => (absent (w_north (walls c)) + absent (w_south (walls c))
                                + absent (w_west (walls c)) + absent (w_east (walls c)))%nat)).
    simpl in Hsum. lia.
Qed.

Lemma closed_reaches_all w h m :
  1 <= w -> 1 <= h -> vis m (0, 0) = true ->
  (forall p, vis m p = true -> closed w h m p) ->
  forall p, inb w h p -> vis m p = true.
Proof.
  intros Hw Hh H0 Hc.
  assert (H : forall n x y, (Z.to_nat x + Z.to_nat y = n)%nat ->
                inb w h (x, y) -> vis m (x, y) = true).
  { induction n as [|n IH]; intros x y Hn [Hx Hy]; simpl in *.
    - assert (x = 0) by lia. assert (y = 0) by lia. subst. exact H0.
    - destruct (decide (0 < x)) as [Hpos|Hzero].
      + assert (Hp : vis m (x - 1, y) = true).
        { apply IH; [lia|]. unfold inb. simpl. lia. }
        specialize (Hc _ Hp east). simpl in Hc.
        replace (x - 1 + 1) with x in Hc by lia. apply Hc. unfold inb. simpl. lia.
      + assert (Hp : vis m (x, y - 1) = true).
        { apply IH; [lia|]. unfold inb. simpl. lia. }
        specialize (Hc _ Hp south). simpl in Hc.
        replace (y - 1 + 1) with y in Hc by lia. apply Hc. unfold inb. simpl. lia. }
  intros [x y] Hp. eapply H; eauto.
Qed.

(** For positive dimensions [generateMaze] returns a lattice that satisfies
    the invariant and in which every cell has been visited. *)
Lemma generateMaze_spec rnd w h :
  valid_rng rnd -> 1 <= w -> 1 <= h ->
  exists m, generateMaze rnd w h = Ok m /\ Inv w h m /\
            (forall p, inb w h p -> vis m p = true) /\
            numVisited m = (Z.to_nat w * Z.to_nat h)%nat.
Proof.
  intros Hr Hw Hh. unfold generateMaze.
  destruct (init_Inv w h Hw Hh) as (m1 & H1 & HI1 & HN1).
  destruct (carve_spec rnd w h Hr (S (Z.to_nat (w * h))) 0 0
              (mkGen (initMaze w h) 0) m1) as (st' & Hc & HI & He & Hf).
  { exact H1. }
  { unfold inb. simpl. lia. }
  { apply vis_init. }
  { exact HI1. }
  { rewrite HN1. rewrite Z2Nat.inj_mul by lia. lia. }
  rewrite Hc. simpl. exists (maze st'). split; [reflexivity|]. split; [exact HI|].
  assert (Hall : forall p, inb w h p -> vis (maze st') p = true).
  { apply closed_reaches_all; auto.
    - apply He.
      assert (G0 : exists c, getCell (initMaze w h) 0 0 = Some c).
      { unfold alterCell in H1. destruct (getCell (initMaze w h) 0 0); [eauto|discriminate]. }
      destruct G0 as [c0 G0].
      rewrite (vis_mark _ (0, 0) _ _ _ G0 H1). rewrite decide_True; auto.
    - intros p Hp. destruct (Hf p Hp) as [Hp'|Hp']; auto.
      simpl in Hp'. rewrite vis_init in Hp'. discriminate. }
  split; [exact Hall|].
  apply sumCells_full; [apply (inv_shape _ _ _ HI)|].
  intros x y c G.
  assert (Hin : inb w h (x, y)).
  { apply (getCell_inb w h (maze st')); [apply (inv_shape _ _ _ HI)|eauto]. }
  specialize (Hall _ Hin). unfold vis in Hall. simpl in Hall. rewrite G in Hall.
  rewrite Hall. reflexivity.
Qed.

(** Non-positive dimensions: line 51 of the first call [carve(0, 0)] reads
    [maze[0][0]] of a lattice without that cell and throws. *)
Lemma generateMaze_degenerate rnd w h :
  w <= 0 \/ h <= 0 -> generateMaze rnd w h = TypeError.
Proof.
  intros Hd. unfold generateMaze. simpl.
  assert (G : getCell (initMaze w h) 0 0 = None).
  { destruct (getCell (initMaze w h) 0 0) as [c|] eqn:G; [|reflexivity].
    exfalso. assert (Hin : inb w h (0, 0)).
    { apply (getCell_inb w h (initMaze w h)); [apply shape_init|eauto]. }
    destruct Hin as [Hx Hy]. simpl in *. lia. }
  unfold alterCell. rewrite G. reflexivity.
Qed.

Lemma generateMaze_Ok_dims rnd w h m :
  generateMaze rnd w h = Ok m -> 1 <= w /\ 1 <= h.
Proof.
  intros H. destruct (decide (w <= 0 \/ h <= 0)) as [Hd|Hd]; [|lia].
  rewrite (generateMaze_degenerate rnd w h Hd) in H. discriminate.
Qed.

Lemma generateMaze_Inv rnd w h m :
  valid_rng rnd -> generateMaze rnd w h = Ok m ->
  1 <= w /\ 1 <= h /\ Inv w h m /\ (forall p, inb w h p -> vis m p = true) /\
  numVisited m = (Z.to_nat w * Z.to_nat h)%nat.
Proof.
  intros Hr H. destruct (generateMaze_Ok_dims _ _ _ _ H) as [Hw Hh].
  destruct (generateMaze_spec rnd w h Hr Hw Hh) as (m' & H' & HI & Hv & Hn).
  rewrite H in H'. injection H' as <-. auto.
Qed.

(** ** The fuel of [carve] is only a bound *)

Lemma carveDir_mono w h (rec rec' : Z -> Z -> GenState -> Res GenState) x y d st r :
  (forall x y st r, rec x y st = r -> r <> OutOfFuel -> rec' x y st = r) ->
  carveDir w h rec x y d st = r -> r <> OutOfFuel ->
  carveDir w h rec' x y d st = r.
Proof.
  intros Hrec. unfold carveDir. destruct (neighbour (x, y) d) as [nx ny].
  destruct ((0 <=? nx) && (nx <? w) && (0 <=? ny) && (ny <? h)); [|auto].
  destruct (getCell (maze st) nx ny) as [c|]; [|auto].
  destruct (visited c); [auto|].
  destruct (alterCell (clearWallOf d) (maze st) x y) as [m1| | |]; simpl; auto.
  destruct (alterCell (clearWallOf (opposite d)) m1 nx ny) as [m2| | |]; simpl; auto.
Qed.

Lemma carveDirs_mono w h (rec rec' : Z -> Z -> GenState -> Res GenState) x y dirs st r :
  (forall x y st r, rec x y st = r -> r <> OutOfFuel -> rec' x y st = r) ->
  carveDirs w h rec x y dirs st = r -> r <> OutOfFuel ->
  carveDirs w h rec' x y dirs st = r.
Proof.
  intros Hrec. revert st. induction dirs as [|d dirs IH]; intros st; simpl; [auto|].
  destruct (carveDir w h rec x y d st) as [st1| | |] eqn:E; simpl; intros <- Hne;
    try congruence;
    rewrite (carveDir_mono w h rec rec' x y d st _ Hrec E) by discriminate; simpl; auto.
Qed.

Lemma carve_fuel_mono rnd w h fuel fuel' x y st r :
  (fuel <= fuel')%nat ->
  carve rnd w h fuel x y st = r -> r <> OutOfFuel ->
  carve rnd w h fuel' x y st = r.
Proof.
  revert fuel' x y st r. induction fuel as [|fuel IH]; intros fuel' x y st r Hle.
  - simpl. congruence.
  - destruct fuel' as [|fuel']; [lia|]. simpl.
    destruct (alterCell markVisited (maze st) x y) as [m1| | |]; simpl; auto.
    destruct (shuffle rnd [north; south; west; east] (calls st)) as [[dirs c]| | |];
      simpl; auto.
    apply carveDirs_mono. intros x' y' st' r'. apply IH. lia.
Qed.

(** [generateMaze] never runs out of fuel. *)
Lemma generateMaze_total rnd w h :
  valid_rng rnd -> generateMaze rnd w h <> OutOfFuel.
Proof.
  intros Hr. destruct (decide (w <= 0 \/ h <= 0)) as [Hd|Hd].
  - rewrite generateMaze_degenerate by exact Hd. discriminate.
  - destruct (generateMaze_spec rnd w h Hr) as (m & -> & _); [lia|lia|discriminate].
Qed.

(** * Properties of the generator *)

(** C1.  For every width >= 1 and height >= 1 (and every sequence of
    [Math.random()] values in [0,1)), [generateMaze] returns a lattice that is
    a perfect maze: the number of opened boundaries is [width * height - 1]
    (each has an absent flag on both of its sides, twice that many flags in
    all), and between any two cells there is exactly one path that repeats
    no cell. *)
Theorem generateMaze_perfect rnd w h :
  valid_rng rnd -> 1 <= w -> 1 <= h ->
  exists m, generateMaze rnd w h = Ok m /\
    Z.of_nat (openedBoundaries m) = w * h - 1 /\
    Z.of_nat (openedFlags m) = 2 * (w * h - 1) /\
    forall a b, inb w h a -> inb w h b ->
      exists! l, simplePath (passage m) a l b.
Proof.
  intros Hr Hw Hh.
  destruct (generateMaze_spec rnd w h Hr Hw Hh) as (m & Hm & HI & Hv & Hn).
  exists m. split; [exact Hm|].
  pose proof (inv_count _ _ _ HI) as Hc. pose proof (inv_flags _ _ _ HI) as Hf.
  assert (Hwh : Z.of_nat (Z.to_nat w * Z.to_nat h) = w * h).
  { rewrite Nat2Z.inj_mul, !Z2Nat.id by lia. reflexivity. }
  rewrite Hn in Hc, Hf.
  split; [lia|]. split; [lia|].
  intros a b Ha Hb.
  destruct (inv_conn _ _ _ HI a b (Hv a Ha) (Hv b Hb)) as [l Hl].
  exists l. split; [exact Hl|].
  intros l' Hl'. eapply (inv_uniq _ _ _ HI); eauto.
Qed.

Lemma valid_rng_zero : valid_rng (fun _ => 0%Q).
Proof. intros k. split; [apply Qle_refl | reflexivity]. Qed.

Lemma generateMaze_perfect_witness :
  exists m, generateMaze (fun _ => 0%Q) 2 2 = Ok m /\
    Z.of_nat (openedBoundaries m) = 2 * 2 - 1 /\
    Z.of_nat (openedFlags m) = 2 * (2 * 2 - 1) /\
    forall a b, inb 2 2 a -> inb 2 2 b ->
      exists! l, simplePath (passage m) a l b.
Proof.
  apply (generateMaze_perfect (fun _ => 0%Q) 2 2); [apply valid_rng_zero | lia | lia].
Defined.

(** C4.  In every lattice returned by [generateMaze], for every pair of
    adjacent cells the two flags of the shared boundary agree: the wall of
    [p] on side [d] is absent exactly when the wall of its neighbour on the
    opposite side is absent. *)
Theorem generateMaze_walls_consistent rnd w h m :
  valid_rng rnd -> generateMaze rnd w h = Ok m ->
  forall p d, inb w h p -> inb w h (neighbour p d) ->
    (wallAt m p d = false <-> wallAt m (neighbour p d) (opposite d) = false).
Proof.
  intros Hr Hm p d Hp Hn.
  destruct (generateMaze_Inv rnd w h m Hr Hm) as (_ & _ & HI & _).
  rewrite (inv_sym _ _ _ HI p d Hp Hn). reflexivity.
Qed.

Lemma generateMaze_walls_consistent_witness :
  exists m, generateMaze (fun _ => 0%Q) 2 2 = Ok m /\
    forall p d, inb 2 2 p -> inb 2 2 (neighbour p d) ->
      (wallAt m p d = false <-> wallAt m (neighbour p d) (opposite d) = false).
Proof.
  eexists. split; [vm_compute; reflexivity|].
  apply (generateMaze_walls_consistent (fun _ => 0%Q) 2 2);
    [apply valid_rng_zero | vm_compute; reflexivity].
Defined.

(** C7.  For width <= 0 or height <= 0 the generator fails at once: the
    first statement of [carve(0, 0)] throws, no lattice is returned, and so no
    grid is built from one. *)
Theorem generateMaze_rejects rnd w h :
  w <= 0 \/ h <= 0 ->
  generateMaze rnd w h = TypeError /\
  (m ← generateMaze rnd w h; mazeToGrid m) = TypeError.
Proof.
  intros Hd. rewrite (generateMaze_degenerate rnd w h Hd). split; reflexivity.
Qed.

Lemma generateMaze_rejects_witness :
  generateMaze (fun _ => 0%Q) 0 5 = TypeError /\
  (m ← generateMaze (fun _ => 0%Q) 0 5; mazeToGrid m) = TypeError.
Proof.
  apply (generateMaze_rejects (fun _ => 0%Q) 0 5). left. lia.
Defined.

(** ** The tile grid *)

Lemma tileN_setTile (g : Grid) gx gy v gx' gy' :
  tileN (setTile g gx gy v) gx' gy' =
    if decide (gx' = gx /\ gy' = gy) then (fun _ => v) <$> tileN g gx gy
    else tileN g gx' gy'.
Proof.
  unfold tileN, setTile. rewrite list_lookup_alter.
  destruct (decide (gx' = gx /\ gy' = gy)) as [[-> ->]|Hne].
  - rewrite decide_True by reflexivity.
    destruct (g !! gy) as [row|]; simpl; [|reflexivity].
    rewrite list_lookup_insert.
    destruct (row !! gx) as [v0|] eqn:R; simpl.
    + rewrite decide_True; [reflexivity|].
      split; [reflexivity|]. apply lookup_lt_is_Some. eauto.
    + rewrite decide_False; [reflexivity|].
      intros [_ Hlt]. apply lookup_lt_is_Some in Hlt. destruct Hlt. congruence.
  - destruct (decide (gy = gy')) as [<-|Hy]; [|reflexivity].
    destruct (g !! gy) as [row|]; simpl; [|reflexivity].
    rewrite list_lookup_insert_ne; [reflexivity|].
    intros ->. apply Hne. auto.
Qed.

Lemma dims_setTile (g : Grid) gw gh gx gy v :
  dims gw gh g -> dims gw gh (setTile g gx gy v).
Proof.
  intros [Hl Hr]. unfold setTile. split.
  - rewrite length_alter. exact Hl.
  - apply Forall_alter; [exact Hr|]. intros row _ Hrow.
    rewrite length_insert. exact Hrow.
Qed.

Lemma dims_tileN (g : Grid) gw gh gx gy :
  dims gw gh g -> (gx < gw)%nat -> (gy < gh)%nat -> is_Some (tileN g gx gy).
Proof.
  intros [Hl Hr] Hx Hy. unfold tileN.
  destruct (g !! gy) as [row|] eqn:R.
  - simpl. apply lookup_lt_is_Some. rewrite Forall_lookup in Hr.
    rewrite (Hr _ _ R). exact Hx.
  - apply lookup_ge_None in R. lia.
Qed.

Lemma tileN_dims (g : Grid) gw gh gx gy v :
  dims gw gh g -> tileN g gx gy = Some v -> (gx < gw)%nat /\ (gy < gh)%nat.
Proof.
  intros [Hl Hr] H. unfold tileN in H.
  destruct (g !! gy) as [row|] eqn:R; simpl in H; [|discriminate].
  rewrite Forall_lookup in Hr. rewrite <- (Hr _ _ R), <- Hl. split.
  - apply lookup_lt_is_Some. eauto.
  - apply lookup_lt_is_Some. eauto.
Qed.

(** Opening one tile that some write of the source targets. *)
Lemma gridInv_open m gw gh (g : Grid) gx gy :
  gridInv m gw gh g -> opens m gx gy -> gridInv m gw gh (setTile g gx gy 0).
Proof.
  intros [Hd Hs] Ho. split; [apply dims_setTile; exact Hd|].
  intros gx' gy' v. rewrite tileN_setTile. case_decide as Hc.
  - destruct Hc as [-> ->]. destruct (tileN g gx gy); simpl; [|discriminate].
    intros [= <-]. right. auto.
  - apply Hs.
Qed.

Lemma zero_setTile (g : Grid) gx gy gx' gy' :
  tileN g gx' gy' = Some 0 -> tileN (setTile g gx gy 0) gx' gy' = Some 0.
Proof.
  intros H. rewrite tileN_setTile. case_decide as Hc; [|exact H].
  destruct Hc as [-> ->]. rewrite H. reflexivity.
Qed.

Lemma gridCell_spec m gw gh y x c (g : Grid) :
  (row ← m !! y; row !! x) = Some c ->
  (x * 2 + 1 < gw)%nat -> (y * 2 + 1 < gh)%nat ->
  gridInv m gw gh g ->
  exists g', gridCell m y x g = Ok g' /\ gridInv m gw gh g' /\
    tileN g' (x * 2 + 1) (y * 2 + 1) = Some 0 /\
    (forall gx gy, tileN g gx gy = Some 0 -> tileN g' gx gy = Some 0).
Proof.
  intros Hc Hx Hy HI. unfold gridCell. rewrite Hc.
  assert (Ho : forall gx gy,
             ((gx = x * 2 + 1 /\ gy = y * 2 + 1)
              \/ (w_north (walls c) = false /\ gx = x * 2 + 1 /\ gy = y * 2)
              \/ (w_south (walls c) = false /\ gx = x * 2 + 1 /\ gy = y * 2 + 2)
              \/ (w_west (walls c) = false /\ gx = x * 2 /\ gy = y * 2 + 1)
              \/ (w_east (walls c) = false /\ gx = x * 2 + 2 /\ gy = y * 2 + 1))%nat ->
             opens m gx gy).
  { intros gx gy H. exists x, y, c. auto. }
  set (g0 := setTile g (x * 2 + 1) (y * 2 + 1) 0).
  assert (I0 : gridInv m gw gh g0) by (apply gridInv_open; auto).
  assert (Z0 : tileN g0 (x * 2 + 1) (y * 2 + 1) = Some 0).
  { unfold g0. rewrite tileN_setTile. rewrite decide_True by auto.
    destruct (dims_tileN g gw gh (x * 2 + 1) (y * 2 + 1) (proj1 HI) Hx Hy) as [v ->].
    reflexivity. }
  assert (K0 : forall gx gy, tileN g gx gy = Some 0 -> tileN g0 gx gy = Some 0)
    by (intros; apply zero_setTile; auto).
  clearbody g0.
  eexists. split; [reflexivity|].
  destruct (w_north (walls c)) eqn:Wn, (w_south (walls c)) eqn:Ws,
           (w_west (walls c)) eqn:Ww, (w_east (walls c)) eqn:We; simpl;
    (split; [repeat (apply gridInv_open; [|apply Ho; lia]); exact I0 |
             split; [repeat apply zero_setTile; exact Z0 |
                     intros gx gy H; repeat apply zero_setTile; apply K0; exact H]]).
Qed.

Lemma forRange_inv {A : Type} (body : nat -> A -> Res A) (P : nat -> A -> Prop)
    count start a :
  P start a ->
  (forall i a, (start <= i < start + count)%nat -> P i a ->
               exists a', body i a = Ok a' /\ P (S i) a') ->
  exists a', forRange body start count a = Ok a' /\ P (start + count)%nat a'.
Proof.
  revert start a. induction count as [|count IH]; intros start a H0 Hstep; simpl.
  - exists a. rewrite Nat.add_0_r. auto.
  - destruct (Hstep start a) as (a1 & H1 & P1); [lia|auto|].
    rewrite H1. simpl.
    destruct (IH (S start) a1 P1) as (a2 & H2 & P2).
    { intros i a' Hi. apply Hstep. lia. }
    exists a2. split; [exact H2|].
    replace (start + S count)%nat with (S start + count)%nat by lia. exact P2.
Qed.

(** On a lattice of [h] rows of [w] cells, [mazeToGrid] returns a grid of
    [2h+1] rows of [2w+1] tiles in which the interior tile of every cell is
    open and every open tile was opened by a cell. *)
Lemma mazeToGrid_spec (m : Maze) w h :
  dims w h m -> (1 <= h)%nat ->
  exists g, mazeToGrid m = Ok g /\ gridInv m (w * 2 + 1) (h * 2 + 1) g /\
    forall x y, (x < w)%nat -> (y < h)%nat ->
      tileN g (x * 2 + 1) (y * 2 + 1) = Some 0.
Proof.
  intros [Hl Hr] Hh. unfold mazeToGrid.
  destruct (m !! 0%nat) as [row0|] eqn:R0;
    [|apply lookup_ge_None in R0; lia].
  assert (Hw0 : length row0 = w) by (rewrite Forall_lookup in Hr; eauto).
  rewrite Hw0, Hl.
  set (g0 := replicate (h * 2 + 1) (replicate (w * 2 + 1) 1)).
  assert (I0 : gridInv m (w * 2 + 1) (h * 2 + 1) g0).
  { split.
    - split; [apply length_replicate|].
      apply Forall_replicate, length_replicate.
    - intros gx gy v. unfold tileN, g0.
      destruct (replicate (h * 2 + 1) _ !! gy) as [row|] eqn:R; [|discriminate].
      apply lookup_replicate in R as [-> _]. simpl.
      intros H. apply lookup_replicate in H as [-> _]. auto. }
  clearbody g0.
  destruct (forRange_inv (fun y => forRange (gridCell m y) 0 w)
              (fun y g => gridInv m (w * 2 + 1) (h * 2 + 1) g /\ gridDone w y 0 g)
              h 0 g0) as (g & Hg & HI & HD).
  - split; [exact I0|]. intros x' y' Hlt. lia.
  - intros y g [HI HD] Hy.
    destruct (forRange_inv (gridCell m y)
                (fun x g => gridInv m (w * 2 + 1) (h * 2 + 1) g /\ gridDone w y x g)
                w 0 g) as (g' & Hg' & HI' & HD').
    + auto.
    + intros x g1 Hx [HI1 HD1].
      assert (Hc : is_Some (row ← m !! y; row !! x)).
      { destruct (m !! y) as [row|] eqn:R.
        - simpl. apply lookup_lt_is_Some. rewrite Forall_lookup in Hr.
          rewrite (Hr _ _ R). lia.
        - apply lookup_ge_None in R. lia. }
      destruct Hc as [c Hc].
      destruct (gridCell_spec m (w * 2 + 1) (h * 2 + 1) y x c g1 Hc)
        as (g2 & H2 & I2 & Z2 & K2); [lia|lia|exact HI1|].
      exists g2. split; [exact H2|]. split; [exact I2|].
      intros x' y' Hlt Hx'.
      destruct (decide (y' = y /\ x' = x)) as [[-> ->]|Hne]; [exact Z2|].
      apply K2, HD1; [lia|exact Hx'].
    + exists g'. split; [exact Hg'|]. split; [exact HI'|].
      intros x' y' Hlt Hx'. apply HD'; [|exact Hx']. simpl. lia.
  - exists g. split; [exact Hg|]. split; [exact HI|].
    intros x y Hx Hy. apply HD; [|exact Hx]. simpl. lia.
Qed.

Lemma tileAt_tileN (g : Grid) gx gy :
  0 <= gx -> 0 <= gy -> tileAt g gx gy = tileN g (Z.to_nat gx) (Z.to_nat gy).
Proof.
  intros Hx Hy. unfold tileAt, tileN.
  rewrite (orb_false_intro (gy <? 0) (gx <? 0)) by (apply Z.ltb_ge; lia).
  reflexivity.
Qed.

Lemma getCell_nat (m : Maze) (x y : nat) :
  getCell m (Z.of_nat x) (Z.of_nat y) = (row ← m !! y; row !! x).
Proof.
  unfold getCell.
  rewrite (orb_false_intro (Z.of_nat y <? 0) (Z.of_nat x <? 0)) by (apply Z.ltb_ge; lia).
  rewrite !Nat2Z.id. reflexivity.
Qed.

(** The border of the grid of a lattice whose outer walls are all present. *)
Lemma border_is_wall (m : Maze) w h (g : Grid) gx gy :
  shape w h m ->
  (forall p d, inb w h p -> ~ inb w h (neighbour p d) -> wallAt m p d = true) ->
  gridInv m (Z.to_nat w * 2 + 1) (Z.to_nat h * 2 + 1) g ->
  onBorder (2 * w + 1) (2 * h + 1) gx gy ->
  tileAt g gx gy = Some 1.
Proof.
  intros Hs Hout [Hd Hsound] (Hx & Hy & Hb).
  rewrite tileAt_tileN by lia.
  destruct (dims_tileN g _ _ (Z.to_nat gx) (Z.to_nat gy) Hd) as [v Hv]; [lia|lia|].
  rewrite Hv. destruct (Hsound _ _ _ Hv) as [->|[-> Ho]]; [reflexivity|exfalso].
  destruct Ho as (x & y & c & Hc & Hcase).
  rewrite <- getCell_nat in Hc.
  assert (Hin : inb w h (Z.of_nat x, Z.of_nat y))
    by (apply (getCell_inb w h m); eauto).
  assert (Hwall : forall d, ~ inb w h (neighbour (Z.of_nat x, Z.of_nat y) d) ->
                            wallOf c d = true).
  { intros d Hd'. specialize (Hout _ d Hin Hd'). unfold wallAt in Hout.
    simpl in Hout. rewrite Hc in Hout. exact Hout. }
  destruct Hin as [Hix Hiy]. simpl in Hix, Hiy.
  destruct Hcase as [[E1 E2]|[(W & E1 & E2)|[(W & E1 & E2)|[(W & E1 & E2)|(W & E1 & E2)]]]].
  - lia.
  - specialize (Hwall north). simpl in Hwall. rewrite Hwall in W; [discriminate|].
    unfold inb. simpl. lia.
  - specialize (Hwall south). simpl in Hwall. rewrite Hwall in W; [discriminate|].
    unfold inb. simpl. lia.
  - specialize (Hwall west). simpl in Hwall. rewrite Hwall in W; [discriminate|].
    unfold inb. simpl. lia.
  - specialize (Hwall east). simpl in Hwall. rewrite Hwall in W; [discriminate|].
    unfold inb. simpl. lia.
Qed.

Lemma generated_grid rnd w h m :
  valid_rng rnd -> generateMaze rnd w h = Ok m ->
  1 <= w /\ 1 <= h /\ Inv w h m /\
  exists g, mazeToGrid m = Ok g /\
    gridInv m (Z.to_nat w * 2 + 1) (Z.to_nat h * 2 + 1) g /\
    forall x y, (x < Z.to_nat w)%nat -> (y < Z.to_nat h)%nat ->
      tileN g (x * 2 + 1) (y * 2 + 1) = Some 0.
Proof.
  intros Hr Hm.
  destruct (generateMaze_Inv rnd w h m Hr Hm) as (Hw & Hh & HI & _).
  repeat (split; [assumption|]).
  apply mazeToGrid_spec; [apply (inv_shape _ _ _ HI) | lia].
Qed.

(** * Properties of the grid *)

(** C5.  The grid that [mazeToGrid] returns for a generated lattice of size
    W x H has 2H+1 rows of 2W+1 tiles, and every tile of its outer boundary
    (row 0, last row, column 0, last column) is a wall (value 1). *)
Theorem mazeToGrid_border rnd w h m :
  valid_rng rnd -> generateMaze rnd w h = Ok m ->
  exists g, mazeToGrid m = Ok g /\
    Z.of_nat (length g) = 2 * h + 1 /\
    (forall row, row ∈ g -> Z.of_nat (length row) = 2 * w + 1) /\
    forall gx gy, onBorder (2 * w + 1) (2 * h + 1) gx gy -> tileAt g gx gy = Some 1.
Proof.
  intros Hr Hm.
  destruct (generated_grid rnd w h m Hr Hm) as (Hw & Hh & HI & g & Hg & HG & _).
  exists g. split; [exact Hg|].
  pose proof HG as [[Hl Hrows] _].
  split; [lia|]. split.
  - intros row Hrow. rewrite Forall_forall in Hrows. rewrite (Hrows row Hrow). lia.
  - intros gx gy Hb.
    apply (border_is_wall m w h g gx gy (inv_shape _ _ _ HI) (inv_outer _ _ _ HI) HG Hb).
Qed.

Lemma mazeToGrid_border_witness :
  exists g, mazeToGrid [[mkCell true (mkWalls true false true true);
                         mkCell true (mkWalls true false true true)];
                        [mkCell true (mkWalls false true true false);
                         mkCell true (mkWalls false true false true)]] = Ok g /\
    Z.of_nat (length g) = 2 * 2 + 1 /\
    (forall row, row ∈ g -> Z.of_nat (length row) = 2 * 2 + 1) /\
    forall gx gy, onBorder (2 * 2 + 1) (2 * 2 + 1) gx gy -> tileAt g gx gy = Some 1.
Proof.
  apply (mazeToGrid_border (fun _ => 0%Q) 2 2);
    [apply valid_rng_zero | vm_compute; reflexivity].
Defined.

(** Both landmark tiles of a generated grid are open. *)
Lemma generated_landmarks rnd w h :
  valid_rng rnd -> 1 <= w -> 1 <= h ->
  exists m g, generateMaze rnd w h = Ok m /\ mazeToGrid m = Ok g /\
    tileAt g startGridX startGridY = Some 0 /\
    tileAt g (exitOf w) (exitOf h) = Some 0.
Proof.
  intros Hr Hw Hh.
  destruct (generateMaze_spec rnd w h Hr Hw Hh) as (m & Hm & _).
  destruct (generated_grid rnd w h m Hr Hm) as (_ & _ & _ & g & Hg & _ & Hopen).
  exists m, g. split; [exact Hm|]. split; [exact Hg|]. split.
  - unfold startGridX, startGridY. rewrite tileAt_tileN by lia.
    apply (Hopen 0%nat 0%nat); lia.
  - unfold exitOf. rewrite tileAt_tileN by lia.
    replace (Z.to_nat (w * 2 - 1)) with (Z.to_nat (w - 1) * 2 + 1)%nat by lia.
    replace (Z.to_nat (h * 2 - 1)) with (Z.to_nat (h - 1) * 2 + 1)%nat by lia.
    apply Hopen; lia.
Qed.

(** C10.  For every maze generated with width >= 1 and height >= 1, both
    landmark tiles of its grid are open (value 0): the start tile (1, 1) and
    the exit tile (2 * width - 1, 2 * height - 1). *)
Theorem landmarks_open rnd w h :
  valid_rng rnd -> 1 <= w -> 1 <= h ->
  exists m g, generateMaze rnd w h = Ok m /\ mazeToGrid m = Ok g /\
    tileAt g startGridX startGridY = Some 0 /\
    tileAt g (exitOf w) (exitOf h) = Some 0.
Proof. exact (generated_landmarks rnd w h). Qed.

Lemma landmarks_open_witness :
  exists m g, generateMaze (fun _ => 0%Q) 2 2 = Ok m /\ mazeToGrid m = Ok g /\
    tileAt g startGridX startGridY = Some 0 /\
    tileAt g (exitOf 2) (exitOf 2) = Some 0.
Proof.
  apply (landmarks_open (fun _ => 0%Q) 2 2); [apply valid_rng_zero | lia | lia].
Defined.

(** The same for the world that [initGame] builds at any stage >= 1. *)
Lemma initGame_landmarks rnd stage :
  valid_rng rnd -> 1 <= stage ->
  exists W, initGame rnd stage = Ok W /\
    tileAt (grid W) startGridX startGridY = Some 0 /\
    tileAt (grid W) (exitX W) (exitY W) = Some 0.
Proof.
  intros Hr Hs. unfold initGame.
  destruct (generated_landmarks rnd (stageSize stage) (stageSize stage) Hr)
    as (m & g & Hm & Hg & H1 & H2); [unfold stageSize; lia|unfold stageSize; lia|].
  rewrite Hm. simpl. rewrite Hg. simpl. eexists. split; [reflexivity|]. auto.
Qed.

(** ** The ray caster: termination *)

Lemma initAxis_step rayDir pos :
  (initAxis rayDir pos).1 = 1 \/ (initAxis rayDir pos).1 = -1.
Proof. unfold initAxis. destruct (Qlt_le_dec rayDir 0); simpl; auto. Qed.

Lemma outside_nonempty (g : Grid) row0 x y :
  g !! 0%nat = Some row0 ->
  outside g x y =
    Ok (negb ((0 <=? x) && (x <? Z.of_nat (length row0))
              && (0 <=? y) && (y <? Z.of_nat (length g)))).
Proof.
  intros H0. unfold outside. rewrite H0.
  destruct (x <? 0) eqn:E1.
  - apply Z.ltb_lt in E1. rewrite (proj2 (Z.leb_gt 0 x)) by lia. reflexivity.
  - apply Z.ltb_ge in E1. rewrite (proj2 (Z.leb_le 0 x)) by lia. f_equal.
    destruct (Z.of_nat (length row0) <=? x) eqn:E2, (x <? Z.of_nat (length row0)) eqn:E3,
      (y <? 0) eqn:E4, (0 <=? y) eqn:E5,
      (Z.of_nat (length g) <=? y) eqn:E6, (y <? Z.of_nat (length g)) eqn:E7;
      simpl; try reflexivity; exfalso;
      rewrite ?Z.leb_le, ?Z.leb_gt, ?Z.ltb_lt, ?Z.ltb_ge in *; lia.
Qed.

Lemma latch_map W s : mapX (latch W s) = mapX s /\ mapY (latch W s) = mapY s
                      /\ lastSide (latch W s) = lastSide s.
Proof. unfold latch. case_bool_decide; simpl; auto. Qed.

Section Dda.
Variables (W : World) (r : Ray) (row0 : list Z).
Hypothesis Hrow0 : grid W !! 0%nat = Some row0.
Hypothesis HstepX : stepX r = 1 \/ stepX r = -1.
Hypothesis HstepY : stepY r = 1 \/ stepY r = -1.

Lemma ddaIter_cases s :
  ddaIter W r s = LeftGrid \/
  (exists s', (ddaIter W r s = HitWall s' \/ ddaIter W r s = Continue s') /\
              s' = latch W (advance r s) /\
              0 <= mapX s' < Z.of_nat (length row0) /\
              0 <= mapY s' < Z.of_nat (length (grid W)) /\
              stepsLeft r (Z.of_nat (length row0)) (Z.of_nat (length (grid W))) s'
              = stepsLeft r (Z.of_nat (length row0)) (Z.of_nat (length (grid W))) s - 1).
Proof using Hrow0 HstepX HstepY.
  unfold ddaIter. rewrite (outside_nonempty _ _ _ _ Hrow0).
  destruct ((0 <=? mapX (advance r s)) && (mapX (advance r s) <? Z.of_nat (length row0))
            && (0 <=? mapY (advance r s))
            && (mapY (advance r s) <? Z.of_nat (length (grid W)))) eqn:Hb; simpl.
  - right. exists (latch W (advance r s)).
    split; [case_bool_decide; auto|]. split; [reflexivity|].
    destruct (latch_map W (advance r s)) as (Lx & Ly & _).
    rewrite !andb_true_iff, !Z.leb_le, !Z.ltb_lt in Hb.
    unfold stepsLeft. rewrite Lx, Ly.
    split; [lia|]. split; [lia|].
    revert Hb. unfold advance.
    destruct (Qlt_le_dec (sideDistX s) (sideDistY s)); simpl;
      destruct HstepX as [-> | ->], HstepY as [-> | ->]; simpl; lia.
  - left. reflexivity.
Qed.

Lemma ddaLoop_terminates fuel s :
  0 <= mapX s < Z.of_nat (length row0) ->
  0 <= mapY s < Z.of_nat (length (grid W)) ->
  stepsLeft r (Z.of_nat (length row0)) (Z.of_nat (length (grid W))) s <= Z.of_nat fuel + 1 ->
  exists o, ddaLoop W r fuel s = Ok o.
Proof using Hrow0 HstepX HstepY.
  revert s. induction fuel as [|fuel IH]; intros s Hx Hy Hrem.
  - exfalso. unfold stepsLeft in Hrem.
    destruct HstepX as [E1|E1], HstepY as [E2|E2]; rewrite E1, E2 in Hrem;
      simpl in Hrem; lia.
  - simpl. destruct (ddaIter_cases s) as [->|(s' & [-> | ->] & _ & Hx' & Hy' & Hr')];
      eauto.
    apply IH; auto. lia.
Qed.

(** One step from anywhere: the walk is out at once or inside the grid. *)
Lemma ddaLoop_terminates_any fuel s :
  Z.of_nat (length row0) + Z.of_nat (length (grid W)) <= Z.of_nat fuel ->
  exists o, ddaLoop W r (S fuel) s = Ok o.
Proof using Hrow0 HstepX HstepY.
  intros Hf. simpl.
  destruct (ddaIter_cases s) as [->|(s' & [-> | ->] & _ & Hx' & Hy' & Hr')]; eauto.
  apply ddaLoop_terminates; auto.
  unfold stepsLeft. destruct HstepX as [-> | ->], HstepY as [-> | ->]; simpl; lia.
Qed.
End Dda.

Lemma ddaLoop_mono W r fuel fuel' s o :
  (fuel <= fuel')%nat -> ddaLoop W r fuel s = Ok o -> ddaLoop W r fuel' s = Ok o.
Proof.
  revert fuel' s. induction fuel as [|fuel IH]; intros fuel' s Hle; simpl.
  - discriminate.
  - destruct fuel' as [|fuel']; [lia|]. simpl.
    destruct (ddaIter W r s); auto. apply IH. lia.
Qed.

Lemma castRayFuel_mono fuel fuel' W posX posY dirX dirY res :
  (fuel <= fuel')%nat ->
  castRayFuel fuel W posX posY dirX dirY = Ok res ->
  castRayFuel fuel' W posX posY dirX dirY = Ok res.
Proof.
  intros Hle. unfold castRayFuel.
  destruct (ddaLoop W _ fuel _) as [o| | |] eqn:E; simpl; try discriminate.
  rewrite (ddaLoop_mono _ _ _ _ _ _ Hle E). simpl. auto.
Qed.

(** [castRay] returns for every origin and direction on a grid that has a
    first row; on an empty grid it throws or leaves at the first step. *)
Lemma castRay_total W posX posY dirX dirY :
  castRay W posX posY dirX dirY <> OutOfFuel.
Proof.
  unfold castRay, castRayFuel, gridPerimeter.
  destruct (grid W !! 0%nat) as [row0|] eqn:R0.
  - destruct (ddaLoop_terminates_any W (initRay dirX dirY posX posY) row0 R0
                (initAxis_step _ _) (initAxis_step _ _)
                (length (grid W) + length row0)
                (initDda W dirX dirY posX posY)) as [o Ho]; [lia|].
    rewrite Ho. simpl. destruct o; discriminate.
  - simpl. unfold ddaIter, outside. rewrite R0.
    destruct (mapX _ <? 0); simpl; discriminate.
Qed.

(** ** The ray caster: the distance of a hit *)

Lemma ddaIter_latch W r s s' :
  ddaIter W r s = HitWall s' \/ ddaIter W r s = Continue s' ->
  s' = latch W (advance r s).
Proof.
  unfold ddaIter. destruct (outside _ _ _) as [[|]| | |];
    try (intros [?|?]; discriminate).
  case_bool_decide; intros [E|E]; congruence.
Qed.

Section Progress.
Variables (W : World) (r : Ray) (x0 y0 : Z).
Hypothesis HstepX : stepX r = 1 \/ stepX r = -1.
Hypothesis HstepY : stepY r = 1 \/ stepY r = -1.

Lemma advance_moved s :
  ahead r x0 y0 s ->
  ahead r x0 y0 (latch W (advance r s)) /\ moved r x0 y0 (latch W (advance r s)).
Proof using HstepX HstepY.
  unfold ahead, moved. intros [Hx Hy].
  destruct (latch_map W (advance r s)) as (-> & -> & ->).
  unfold advance. destruct (Qlt_le_dec (sideDistX s) (sideDistY s)); simpl;
    destruct HstepX as [E1|E1], HstepY as [E2|E2]; rewrite E1, E2 in *; lia.
Qed.

Lemma ddaLoop_moved fuel s s' :
  ahead r x0 y0 s -> ddaLoop W r fuel s = Ok (Some s') -> moved r x0 y0 s'.
Proof using HstepX HstepY.
  revert s. induction fuel as [|fuel IH]; intros s Ha; simpl; [discriminate|].
  destruct (ddaIter W r s) as [|s1|s1|] eqn:E; try discriminate.
  - intros [= <-]. rewrite (ddaIter_latch W r s s1) by auto.
    apply advance_moved. exact Ha.
  - apply IH. rewrite (ddaIter_latch W r s s1) by auto.
    apply advance_moved. exact Ha.
Qed.
End Progress.

Lemma Qdiv_nonneg (a b : Q) : (0 <= a)%Q -> (0 < b)%Q -> (0 <= a / b)%Q.
Proof.
  intros Ha Hb. apply Qle_shift_div_l; [exact Hb|]. rewrite Qmult_0_l. exact Ha.
Qed.

Lemma Qdiv_nonpos_neg (a b : Q) : (a <= 0)%Q -> (b < 0)%Q -> (0 <= a / b)%Q.
Proof.
  intros Ha Hb.
  assert (E : (a / b == (- a) / (- b))%Q).
  { field. intros E. rewrite E in Hb. apply (Qlt_irrefl 0). exact Hb. }
  rewrite E. apply Qdiv_nonneg; Lqa.lra.
Qed.

Lemma perpDist_nonneg rayDir pos map :
  1 <= (initAxis rayDir pos).1 * (map - Qfloor pos) ->
  (0 <= perpDist map pos (initAxis rayDir pos).1 rayDir)%Q.
Proof.
  unfold initAxis, perpDist. pose proof (Qfloor_le pos) as Hfl.
  pose proof (Qlt_floor pos) as Hfu.
  destruct (Qlt_le_dec rayDir 0) as [Hneg|Hpos]; simpl; intros Hm.
  - assert (Hne : Qeq_bool rayDir 0 = false).
    { destruct (Qeq_bool rayDir 0) eqn:E; [|reflexivity].
      apply Qeq_bool_eq in E. rewrite E in Hneg. discriminate. }
    rewrite Hne. apply Qdiv_nonpos_neg; [|exact Hneg].
    assert (Hz : (inject_Z map <= inject_Z (Qfloor pos + -1))%Q)
      by (rewrite <- Zle_Qle; lia).
    rewrite inject_Z_plus in Hz. change (inject_Z (-1)) with (-1)%Q in Hz.
    change (inject_Z (1 - -1)) with 2%Q.
    assert (T : (2 / 2 == 1)%Q) by reflexivity. rewrite T. Lqa.lra.
  - assert (Hz : (inject_Z (Qfloor pos + 1) <= inject_Z map)%Q)
      by (rewrite <- Zle_Qle; lia).
    change (inject_Z (1 - 1)) with 0%Q.
    assert (T : (0 / 2 == 0)%Q) by reflexivity. rewrite T.
    rewrite inject_Z_plus in Hz, Hfu. change (inject_Z 1) with 1%Q in Hz, Hfu.
    apply Qdiv_nonneg; [Lqa.lra|].
    destruct (Qeq_bool rayDir 0) eqn:E; [reflexivity|].
    apply Qeq_bool_neq in E. apply Qle_lteq in Hpos as [Hlt|Heq]; [exact Hlt|].
    exfalso. apply E. symmetry. exact Heq.
Qed.

Lemma Qfloor_inside (pos : Q) (n : Z) :
  (0 <= pos)%Q -> (pos < inject_Z n)%Q -> 0 <= Qfloor pos < n.
Proof.
  intros H0 Hn. split.
  - change 0 with (Qfloor 0). apply Qfloor_resp_le. exact H0.
  - pose proof (Qfloor_le pos) as Hf.
    assert (Hz : (inject_Z (Qfloor pos) < inject_Z n)%Q) by (eapply Qle_lt_trans; eauto).
    rewrite <- Zlt_Qlt in Hz. exact Hz.
Qed.

(** From an origin inside a grid with a first row, the loop ends within
    (number of rows + length of the first row) iterations, with a no-hit or
    with a hit at a non-negative distance. *)
Lemma castRayFuel_inside W row0 posX posY dirX dirY :
  grid W !! 0%nat = Some row0 ->
  0 <= Qfloor posX < Z.of_nat (length row0) ->
  0 <= Qfloor posY < Z.of_nat (length (grid W)) ->
  exists res,
    castRayFuel (length (grid W) + length row0) W posX posY dirX dirY = Ok res /\
    castRay W posX posY dirX dirY = Ok res /\
    (res = mkResult Infinity 0 false false \/
     exists d, dist res = Finite d /\ (0 <= d)%Q).
Proof.
  intros R0 Hx Hy.
  assert (Hfuel : exists res,
    castRayFuel (length (grid W) + length row0) W posX posY dirX dirY = Ok res /\
    (res = mkResult Infinity 0 false false \/
     exists d, dist res = Finite d /\ (0 <= d)%Q)).
  { unfold castRayFuel.
    destruct (ddaLoop_terminates W (initRay dirX dirY posX posY) row0 R0
                (initAxis_step _ _) (initAxis_step _ _)
                (length (grid W) + length row0)%nat
                (initDda W dirX dirY posX posY)) as [o Ho].
    { exact Hx. }
    { exact Hy. }
    { unfold stepsLeft, initRay, initDda. cbn [stepX stepY mapX mapY].
      destruct (initAxis_step dirX posX) as [-> | ->],
               (initAxis_step dirY posY) as [-> | ->]; simpl; lia. }
    rewrite Ho. simpl. destruct o as [s'|].
    - eexists. split; [reflexivity|]. right. simpl. eexists. split; [reflexivity|].
      assert (Hm := ddaLoop_moved W (initRay dirX dirY posX posY)
                    (Qfloor posX) (Qfloor posY)
                    (initAxis_step _ _) (initAxis_step _ _)
                    (length (grid W) + length row0)
                    (initDda W dirX dirY posX posY) s').
      specialize (Hm ltac:(unfold ahead, initDda; cbn [mapX mapY]; rewrite !Z.sub_diag; lia) Ho).
      unfold moved in Hm.
      simpl in Hm. destruct Hm as [[E Hm]|[E Hm]]; rewrite E; simpl.
      + apply perpDist_nonneg. exact Hm.
      + apply perpDist_nonneg. exact Hm.
    - eexists. split; [reflexivity|]. left. reflexivity. }
  destruct Hfuel as (res & H1 & H2). exists res. split; [exact H1|]. split; [|exact H2].
  unfold castRay. eapply castRayFuel_mono; [|exact H1].
  unfold gridPerimeter. rewrite R0. lia.
Qed.

(** In a grid whose border is all wall, a walk that starts on a tile off the
    border never leaves the grid: it reaches a border tile first. *)
Lemma ddaLoop_interior W r row0 fuel s :
  grid W !! 0%nat = Some row0 ->
  stepX r = 1 \/ stepX r = -1 -> stepY r = 1 \/ stepY r = -1 ->
  (forall gx gy,
      onBorder (Z.of_nat (length row0)) (Z.of_nat (length (grid W))) gx gy ->
      tileAt (grid W) gx gy = Some 1) ->
  1 <= mapX s <= Z.of_nat (length row0) - 2 ->
  1 <= mapY s <= Z.of_nat (length (grid W)) - 2 ->
  ddaLoop W r fuel s <> Ok None.
Proof.
  intros R0 HsX HsY Hborder. revert s.
  induction fuel as [|fuel IH]; intros s Hx Hy; simpl; [discriminate|].
  pose proof (latch_map W (advance r s)) as (Lx & Ly & _).
  assert (Hadv : (mapX (advance r s) = mapX s + stepX r /\ mapY (advance r s) = mapY s)
                 \/ (mapX (advance r s) = mapX s /\ mapY (advance r s) = mapY s + stepY r)).
  { unfold advance. destruct (Qlt_le_dec _ _); simpl; auto. }
  unfold ddaIter. rewrite (outside_nonempty _ _ _ _ R0).
  rewrite (proj2 (andb_true_iff _ _)); simpl.
  2:{ rewrite !andb_true_iff, !Z.leb_le, !Z.ltb_lt. lia. }
  rewrite Lx, Ly.
  destruct (decide (onBorder (Z.of_nat (length row0)) (Z.of_nat (length (grid W)))
                      (mapX (advance r s)) (mapY (advance r s)))) as [Hb|Hb].
  - rewrite (Hborder _ _ Hb). rewrite bool_decide_eq_true_2 by reflexivity.
    discriminate.
  - case_bool_decide; [discriminate|]. apply IH.
    + rewrite Lx. unfold onBorder in Hb. lia.
    + rewrite Ly. unfold onBorder in Hb. lia.
Qed.

(** On the grid of a generated maze every ray cast from a tile off the
    border hits a wall, at a non-negative distance. *)
Lemma castRay_generated_hits rnd w h m g ex ey posX posY dirX dirY :
  valid_rng rnd -> generateMaze rnd w h = Ok m -> mazeToGrid m = Ok g ->
  1 <= Qfloor posX <= 2 * w - 1 -> 1 <= Qfloor posY <= 2 * h - 1 ->
  exists res d,
    castRay (mkWorld g ex ey) posX posY dirX dirY = Ok res /\
    dist res = Finite d /\ (0 <= d)%Q.
Proof.
  intros Hr Hm Hg Hx Hy.
  destruct (generated_grid rnd w h m Hr Hm) as (Hw & Hh & HI & g' & Hg' & HG & _).
  rewrite Hg in Hg'. injection Hg' as <-.
  pose proof HG as [[Hl Hrows] _].
  destruct (g !! 0%nat) as [row0|] eqn:R0; [|apply lookup_ge_None in R0; lia].
  assert (Hl0 : length row0 = (Z.to_nat w * 2 + 1)%nat)
    by (rewrite Forall_lookup in Hrows; eauto).
  destruct (castRayFuel_inside (mkWorld g ex ey) row0 posX posY dirX dirY)
    as (res & _ & H2 & H3); simpl; auto; [lia|lia|].
  exists res.
  destruct H3 as [-> | (d & Hd & Hpos)]; [exfalso|eauto].
  unfold castRay, castRayFuel in H2.
  destruct (ddaLoop _ _ _ _) as [[s'|]| | |] eqn:E; simpl in H2; try discriminate.
  revert E. apply (ddaLoop_interior _ _ row0); simpl; auto using initAxis_step.
  - intros gx gy Hb. apply (border_is_wall m w h g gx gy (inv_shape _ _ _ HI)
                              (inv_outer _ _ _ HI) HG).
    destruct Hb as (B1 & B2 & B3). unfold onBorder. lia.
  - lia.
  - lia.
Qed.

(** ** The ray caster: the walk up to the first wall *)

Lemma advance_step r s :
  (mapX (advance r s) = mapX s + stepX r /\ mapY (advance r s) = mapY s
   /\ lastSide (advance r s) = 0)
  \/ (mapX (advance r s) = mapX s /\ mapY (advance r s) = mapY s + stepY r
      /\ lastSide (advance r s) = 1).
Proof. unfold advance. destruct (Qlt_le_dec _ _); simpl; auto. Qed.

Lemma ddaIter_spec W r s :
  match ddaIter W r s with
  | LeftGrid => outside (grid W) (mapX (advance r s)) (mapY (advance r s)) = Ok true
  | HitWall s' =>
      s' = latch W (advance r s) /\
      outside (grid W) (mapX s') (mapY s') = Ok false /\
      tileAt (grid W) (mapX s') (mapY s') = Some 1
  | Continue s' =>
      s' = latch W (advance r s) /\
      outside (grid W) (mapX s') (mapY s') = Ok false /\
      tileAt (grid W) (mapX s') (mapY s') <> Some 1
  | Throw => outside (grid W) (mapX (advance r s)) (mapY (advance r s)) = TypeError
  end.
Proof.
  unfold ddaIter.
  destruct (latch_map W (advance r s)) as (Lx & Ly & _).
  destruct (outside _ _ _) as [[|]| | |] eqn:E; auto.
  - case_bool_decide as Ht; rewrite Lx, Ly in *; auto.
  - exfalso. unfold outside in E. destruct (_ <? 0); [discriminate|].
    destruct (grid W !! 0%nat); discriminate.
  - exfalso. unfold outside in E. destruct (_ <? 0); [discriminate|].
    destruct (grid W !! 0%nat); discriminate.
Qed.

Lemma ddaLoop_walk W r fuel s o :
  ddaLoop W r fuel s = Ok o ->
  exists pre c,
    ddaPath W r fuel s = pre ++ [c] /\ Forall (passable W) pre /\
    match o with
    | None => outside (grid W) c.1 c.2 = Ok true
    | Some s' =>
        c = (mapX s', mapY s') /\ outside (grid W) c.1 c.2 = Ok false /\
        tileAt (grid W) c.1 c.2 = Some 1 /\ (lastSide s' = 0 \/ lastSide s' = 1)
    end.
Proof.
  revert s. induction fuel as [|fuel IH]; intros s; simpl; [discriminate|].
  pose proof (ddaIter_spec W r s) as Hs.
  destruct (latch_map W (advance r s)) as (Lx & Ly & Ls).
  destruct (ddaIter W r s) as [|s1|s1|] eqn:E.
  - intros [= <-]. exists [], (mapX (advance r s), mapY (advance r s)).
    split; [reflexivity|]. split; [constructor|]. exact Hs.
  - intros [= <-]. destruct Hs as (-> & Ho & Ht).
    exists [], (mapX (advance r s), mapY (advance r s)).
    split; [reflexivity|]. split; [constructor|].
    rewrite Lx, Ly in *. repeat split; auto.
    rewrite Ls. destruct (advance_step r s) as [(_ & _ & ->)|(_ & _ & ->)]; auto.
  - intros Hl. destruct Hs as (Es & Ho & Ht).
    destruct (IH s1 Hl) as (pre & c & Hp & Hpre & Hc).
    exists ((mapX (advance r s), mapY (advance r s)) :: pre), c.
    split; [rewrite Hp; reflexivity|]. split; [|exact Hc].
    constructor; [|exact Hpre]. rewrite Es, Lx, Ly in Ho, Ht. split; assumption.
  - discriminate.
Qed.

Lemma ddaPath_length W r fuel s : (length (ddaPath W r fuel s) <= fuel)%nat.
Proof.
  revert s. induction fuel as [|fuel IH]; intros s; cbn [ddaPath length]; [lia|].
  destruct (ddaIter W r s) as [|s1|s1|]; cbn [length]; try lia.
  pose proof (IH s1). lia.
Qed.

(** * Properties of the ray caster *)



(** ** The ray caster: the tiles of the walk *)

Lemma ddaIter_inside W r s s' :
  ddaIter W r s = HitWall s' \/ ddaIter W r s = Continue s' ->
  outside (grid W) (mapX (advance r s)) (mapY (advance r s)) = Ok false.
Proof.
  unfold ddaIter. destruct (outside _ _ _) as [[|]| | |];
    try (intros [?|?]; discriminate). reflexivity.
Qed.

Lemma ddaPath_nil W r fuel s : ddaPath W r fuel s = [] -> fuel = 0%nat.
Proof. destruct fuel; [reflexivity|discriminate]. Qed.

Lemma ddaIter_left W r s :
  outside (grid W) (mapX (advance r s)) (mapY (advance r s)) = Ok true ->
  ddaIter W r s = LeftGrid.
Proof. intros H. unfold ddaIter. rewrite H. reflexivity. Qed.

Lemma ddaLoop_left W r fuel s c :
  last (ddaPath W r fuel s) = Some c ->
  outside (grid W) c.1 c.2 = Ok true ->
  ddaLoop W r fuel s = Ok None.
Proof.
  revert s. induction fuel as [|fuel IH]; intros s; simpl; [discriminate|].
  destruct (ddaIter W r s) as [|s1|s1|] eqn:E.
  - reflexivity.
  - intros [= <-] Hout. rewrite (ddaIter_left W r s Hout) in E. discriminate.
  - destruct (ddaPath W r fuel s1) as [|c' p] eqn:P.
    + intros [= <-] Hout. rewrite (ddaIter_left W r s Hout) in E. discriminate.
    + intros Hlast Hout. apply IH; [|exact Hout]. rewrite P. exact Hlast.
  - intros [= <-] Hout. rewrite (ddaIter_left W r s Hout) in E. discriminate.
Qed.

Lemma latch_seen W s :
  (seenStart (latch W s) = true <->
     seenStart s = true \/
     ((mapX s, mapY s) = (startGridX, startGridY) /\
      tileAt (grid W) startGridX startGridY = Some 0)) /\
  (seenExit (latch W s) = true <->
     seenExit s = true \/
     ((mapX s, mapY s) = (exitX W, exitY W) /\
      tileAt (grid W) (exitX W) (exitY W) = Some 0)).
Proof.
  unfold latch. case_bool_decide as Ht; simpl.
  - rewrite !orb_true_iff, !andb_true_iff, !Z.eqb_eq. split; split.
    + intros [?|[E1 E2]]; [auto|right]. rewrite <- E1, <- E2. auto.
    + intros [?|[[= E1 E2] _]]; auto.
    + intros [?|[E1 E2]]; [auto|right]. rewrite <- E1, <- E2. auto.
    + intros [?|[[= E1 E2] _]]; auto.
  - split; split; auto; intros [?|[[= E1 E2] Hz]]; auto; exfalso; apply Ht;
      rewrite E1, E2; exact Hz.
Qed.

Lemma advance_seen r s :
  seenStart (advance r s) = seenStart s /\ seenExit (advance r s) = seenExit s.
Proof. unfold advance. destruct (Qlt_le_dec _ _); simpl; auto. Qed.

Lemma ddaLoop_seen W r fuel s s' :
  ddaLoop W r fuel s = Ok (Some s') ->
  (seenStart s' = true <->
     seenStart s = true \/
     ((startGridX, startGridY) ∈ ddaPath W r fuel s /\
      tileAt (grid W) startGridX startGridY = Some 0)) /\
  (seenExit s' = true <->
     seenExit s = true \/
     ((exitX W, exitY W) ∈ ddaPath W r fuel s /\
      tileAt (grid W) (exitX W) (exitY W) = Some 0)).
Proof.
  revert s. induction fuel as [|fuel IH]; intros s; simpl; [discriminate|].
  destruct (ddaIter W r s) as [|s1|s1|] eqn:E; try discriminate.
  - intros [= <-]. rewrite (ddaIter_latch W r s s1) by auto.
    destruct (latch_seen W (advance r s)) as [L1 L2]. rewrite L1, L2.
    destruct (advance_seen r s) as [-> ->].
    rewrite !list_elem_of_singleton. split; split;
      (intros [?|[Hc Hz]]; [auto|right; split; [congruence|exact Hz]]).
  - intros Hl. destruct (IH s1 Hl) as [I1 I2]. rewrite I1, I2.
    rewrite (ddaIter_latch W r s s1) by auto.
    destruct (latch_seen W (advance r s)) as [L1 L2]. rewrite L1, L2.
    destruct (advance_seen r s) as [-> ->].
    rewrite !elem_of_cons. split; split.
    + intros [[?|[Hc Hz]]|[Hin Hz]]; auto.
    + intros [?|[[Hc|Hin] Hz]]; auto.
    + intros [[?|[Hc Hz]]|[Hin Hz]]; auto.
    + intros [?|[[Hc|Hin] Hz]]; auto.
Qed.

(** C3, amended.  Whenever the last tile the walk steps into lies outside
    the grid, [castRay] returns [dist = Infinity], side 0 and both landmark
    flags false, whatever was latched before; with an origin outside the
    grid this is the case when the first step does not enter the grid. *)
Theorem castRay_leaves_grid fuel W posX posY dirX dirY c :
  last (rayPath fuel W posX posY dirX dirY) = Some c ->
  outside (grid W) c.1 c.2 = Ok true ->
  castRayFuel fuel W posX posY dirX dirY = Ok (mkResult Infinity 0 false false).
Proof.
  unfold castRayFuel, rayPath. intros Hlast Hout.
  rewrite (ddaLoop_left _ _ _ _ _ Hlast Hout). reflexivity.
Qed.

Lemma castRay_leaves_grid_witness :
  Qfloor (3 # 2) = startGridX /\ Qfloor (3 # 2) = startGridY /\
  castRay (mkWorld [[0; 0; 0]; [0; 0; 0]; [0; 0; 0]] 2 2) (3 # 2) (3 # 2) 1 0
    = Ok (mkResult Infinity 0 false false).
Proof.
  split; [reflexivity|]. split; [reflexivity|].
  apply (castRay_leaves_grid 7 (mkWorld [[0; 0; 0]; [0; 0; 0]; [0; 0; 0]] 2 2)
           (3 # 2) (3 # 2) 1 0 (3, 1)); vm_compute; reflexivity.
Defined.

(** Counterexample to C3 as stated: an origin one tile outside the grid,
    looking into it (angle 0, direction (1, 0)), hits the border wall at
    distance 1/2 instead of returning [Infinity]. *)
Lemma castRay_outside_origin_hits :
  outside [[1; 1; 1]; [1; 0; 1]; [1; 1; 1]] (Qfloor (-1 # 2)) (Qfloor (3 # 2)) = Ok true /\
  castRay (mkWorld [[1; 1; 1]; [1; 0; 1]; [1; 1; 1]] 1 1) (-1 # 2) (3 # 2) 1 0
    = Ok (mkResult (Finite (2 # 4)) 0 false false).
Proof. split; vm_compute; reflexivity. Qed.

(** C6.  For a ray that hits a wall: [startSeen] is true exactly when the
    origin lies in the start tile or the walk steps into the start tile and
    that tile is open; the same for the exit tile and [exitSeen].  So a
    ray whose walk enters the landmark before the wall reports it, and one
    that never enters it reports false. *)
Theorem castRay_landmarks fuel W posX posY dirX dirY res :
  castRayFuel fuel W posX posY dirX dirY = Ok res ->
  dist res <> Infinity ->
  (startSeen res = true <->
     (Qfloor posX = startGridX /\ Qfloor posY = startGridY) \/
     ((startGridX, startGridY) ∈ rayPath fuel W posX posY dirX dirY /\
      tileAt (grid W) startGridX startGridY = Some 0)) /\
  (exitSeen res = true <->
     (Qfloor posX = exitX W /\ Qfloor posY = exitY W) \/
     ((exitX W, exitY W) ∈ rayPath fuel W posX posY dirX dirY /\
      tileAt (grid W) (exitX W) (exitY W) = Some 0)).
Proof.
  unfold castRayFuel, rayPath.
  destruct (ddaLoop W _ fuel _) as [[s'|]| | |] eqn:E; simpl; try discriminate.
  - intros [= <-] _. simpl.
    destruct (ddaLoop_seen _ _ _ _ _ E) as [I1 I2]. rewrite I1, I2. simpl.
    rewrite !andb_true_iff, !Z.eqb_eq. tauto.
  - intros [= <-]. simpl. congruence.
Qed.

Lemma castRay_landmarks_witness :
  let W := mkWorld [[1; 1; 1; 1; 1]; [1; 0; 1; 0; 1]; [1; 0; 1; 0; 1];
                    [1; 0; 0; 0; 1]; [1; 1; 1; 1; 1]] 3 3 in
  let res := mkResult (Finite (10 # 4)) 1 true false in
  castRay W (3 # 2) (3 # 2) 0 1 = Ok res /\
  (startSeen res = true <->
     (Qfloor (3 # 2) = startGridX /\ Qfloor (3 # 2) = startGridY) \/
     ((startGridX, startGridY) ∈ rayPath 11 W (3 # 2) (3 # 2) 0 1 /\
      tileAt (grid W) startGridX startGridY = Some 0)) /\
  (exitSeen res = true <->
     (Qfloor (3 # 2) = exitX W /\ Qfloor (3 # 2) = exitY W) \/
     ((exitX W, exitY W) ∈ rayPath 11 W (3 # 2) (3 # 2) 0 1 /\
      tileAt (grid W) (exitX W) (exitY W) = Some 0)).
Proof.
  intros W res. split; [vm_compute; reflexivity|].
  apply (castRay_landmarks 11 W (3 # 2) (3 # 2) 0 1 res);
    [vm_compute; reflexivity | discriminate].
Defined.

(** * The projector *)

Lemma jsTimes_one (a : JsNum) : jsTimes a 1 = a.
Proof.
  destruct a as [r| | |]; simpl.
  - f_equal. apply Rmult_1_r.
  - destruct (total_order_T 0 1) as [[H|H]|H]; [reflexivity| |]; exfalso; Lra.lra.
  - destruct (total_order_T 0 1) as [[H|H]|H]; [reflexivity| |]; exfalso; Lra.lra.
  - reflexivity.
Qed.

(** The middle column of a canvas of even width looks straight ahead. *)
Lemma centre_column_straight angle x w :
  (0 < w)%Z -> (2 * x = w)%Z -> specRayAngle angle fov x w = angle.
Proof.
  intros Hw Hx. unfold specRayAngle. subst w. rewrite mult_IZR.
  assert (IZR x <> 0%R) by (apply not_0_IZR; lia).
  field. exact H.
Qed.

Lemma view_cos_pos (x w : Z) :
  (0 <= x < w)%Z -> (0 < cos (- (fov / 2) + IZR x / IZR w * fov))%R.
Proof.
  intros [H0 Hw]. pose proof PI_RGT_0 as Hpi. unfold fov.
  assert (Hw' : (0 < IZR w)%R) by (apply IZR_lt; lia).
  assert (Hx0 : (0 <= IZR x)%R) by (apply IZR_le; lia).
  assert (Hx1 : (IZR x < IZR w)%R) by (apply IZR_lt; lia).
  assert (Hq0 : (0 <= IZR x / IZR w)%R).
  { apply Rmult_le_pos; [exact Hx0|]. left. apply Rinv_0_lt_compat. exact Hw'. }
  assert (Hq1 : (IZR x / IZR w < 1)%R).
  { apply (Rmult_lt_reg_r (IZR w)); [exact Hw'|].
    unfold Rdiv. rewrite Rmult_assoc, Rinv_l, Rmult_1_r, Rmult_1_l; [exact Hx1|].
    intros C. rewrite C in Hw'. apply (Rlt_irrefl 0). exact Hw'. }
  remember (IZR x / IZR w)%R as q.
  assert (Ha : (0 <= q * (PI / 3))%R) by (apply Rmult_le_pos; Lra.lra).
  assert (Hb : (q * (PI / 3) <= 1 * (PI / 3))%R)
    by (apply Rmult_le_compat_r; Lra.lra).
  remember (q * (PI / 3))%R as t.
  apply cos_gt_0; Lra.lra.
Qed.

(** C8.  For every screen column [x] in [0, w), [render] computes the ray
    angle [angle - fov/2 + (x/w) * fov], and the corrected distance is the
    product [distance * cos(rayAngle - angle)] of real numbers when the
    distance is a number, and [Infinity] when the distance is [Infinity]
    (the cosine is positive across the field of view); when the ray angle
    equals the pose angle the corrected distance is the raw distance
    itself. *)
Theorem render_fisheye cast playerX playerY angle x w :
  (0 <= x < w)%Z ->
  let col := renderColumn cast playerX playerY angle x w in
  let distance := cast playerX playerY col.1 in
  col.1 = specRayAngle angle fov x w /\
  (forall d, distance = Num d -> col.2 = Num (specCorrectedDistance d col.1 angle)) /\
  (distance = PosInfinity -> col.2 = PosInfinity) /\
  (col.1 = angle -> col.2 = distance).
Proof.
  intros Hx col distance. split; [reflexivity|].
  assert (Hc : col.2 = jsTimes distance (cos (col.1 - angle))) by reflexivity.
  split; [|split].
  - intros d Hd. rewrite Hc, Hd. reflexivity.
  - intros Hd. rewrite Hc, Hd. cbn [jsTimes].
    assert (Hpos : (0 < cos (col.1 - angle))%R).
    { replace (col.1 - angle)%R with (- (fov / 2) + IZR x / IZR w * fov)%R
        by (unfold col, renderColumn; cbn [fst]; ring).
      apply view_cos_pos. exact Hx. }
    destruct (total_order_T 0 (cos (col.1 - angle))) as [[H|H]|H];
      [reflexivity|exfalso; Lra.lra|exfalso; Lra.lra].
  - intros Heq. rewrite Hc, Heq, Rminus_diag, cos_0. apply jsTimes_one.
Qed.

Lemma render_fisheye_witness :
  let col := renderColumn (fun _ _ _ => Num 2) (3 / 2) (3 / 2) 0 1 4 in
  col.1 = specRayAngle 0 fov 1 4 /\
  (forall d, Num 2 = Num d -> col.2 = Num (specCorrectedDistance d col.1 0)) /\
  (Num 2 = PosInfinity -> col.2 = PosInfinity) /\
  (col.1 = 0%R -> col.2 = Num 2).
Proof.
  apply (render_fisheye (fun _ _ _ => Num 2) (3 / 2) (3 / 2) 0 1 4). lia.
Defined.

(** * The movement step *)

(** C9 at a failing input.  Stage 1, start pose (1.5, 1.5) facing angle 0
    (cos 1, sin 0), the backward key held for four frames of 1/20 s: the
    probe of line 519 is placed ahead of the player, not behind it where the
    player is going, so the fourth frame moves the player to x = 0.9, inside
    the border wall.  With the probe in the direction of travel the move is
    rejected and the player stays in the open tile. *)
Theorem update_backward_enters_wall :
  exists W q p p',
    initGame (fun _ => 0%Q) 1 = Ok W /\
    isWall (grid W) (3 # 2) (3 # 2) = Ok false /\
    frames (grid W) (mkHeading 1 0 0 1) (mkKeys false true false false) (1 # 20) 3
      (3 # 2, 3 # 2) = Ok q /\
    (q.1 == 105 # 100)%Q /\ (q.2 == 3 # 2)%Q /\
    updatePosition (grid W) (mkHeading 1 0 0 1) (mkKeys false true false false)
      (1 # 20) q = Ok p /\
    (p.1 == 9 # 10)%Q /\ (p.2 == 3 # 2)%Q /\
    isWall (grid W) p.1 p.2 = Ok true /\
    specUpdatePosition (grid W) (mkHeading 1 0 0 1) (mkKeys false true false false)
      (1 # 20) q = Ok p' /\
    (p'.1 == 105 # 100)%Q /\ (p'.2 == 3 # 2)%Q /\
    isWall (grid W) p'.1 p'.2 = Ok false.
Proof.
  eexists. eexists. eexists. eexists.
  split; [vm_compute; reflexivity|].
  split; [vm_compute; reflexivity|].
  split; [vm_compute; reflexivity|].
  split; [reflexivity|]. split; [reflexivity|].
  split; [vm_compute; reflexivity|].
  split; [reflexivity|]. split; [reflexivity|].
  split; [vm_compute; reflexivity|].
  split; [vm_compute; reflexivity|].
  split; [reflexivity|]. split; [reflexivity|].
  vm_compute; reflexivity.
Qed.

(** * More on the ray caster *)

Lemma ddaPath_chain W r fuel s :
  stepChain (stepX r) (stepY r) (mapX s, mapY s) (ddaPath W r fuel s).
Proof.
  revert s. induction fuel as [|fuel IH]; intros s; simpl; [exact I|].
  split.
  - destruct (advance_step r s) as [(-> & -> & _)|(-> & -> & _)]; auto.
  - destruct (ddaIter W r s) as [|s1|s1|] eqn:E; simpl; auto.
    rewrite (ddaIter_latch W r s s1) by auto.
    destruct (latch_map W (advance r s)) as (Lx & Ly & _).
    rewrite <- Lx, <- Ly. rewrite <- (ddaIter_latch W r s s1) by auto. apply IH.
Qed.

(** X1.  The walk of a ray starts next to the origin tile and moves one tile at
    a time, along x or along y, never against the sign of the direction. *)
Theorem rayPath_steps fuel W posX posY dirX dirY :
  stepChain (if Qlt_le_dec dirX 0 then -1 else 1) (if Qlt_le_dec dirY 0 then -1 else 1)
    (Qfloor posX, Qfloor posY) (rayPath fuel W posX posY dirX dirY).
Proof.
  assert (Ex : stepX (initRay dirX dirY posX posY)
               = if Qlt_le_dec dirX 0 then -1 else 1).
  { unfold initRay, initAxis. cbn [stepX]. destruct (Qlt_le_dec dirX 0); reflexivity. }
  assert (Ey : stepY (initRay dirX dirY posX posY)
               = if Qlt_le_dec dirY 0 then -1 else 1).
  { unfold initRay, initAxis. cbn [stepY]. destruct (Qlt_le_dec dirY 0); reflexivity. }
  rewrite <- Ex, <- Ey. unfold rayPath.
  apply (ddaPath_chain W (initRay dirX dirY posX posY) fuel
           (initDda W dirX dirY posX posY)).
Qed.



(** X4.  On every grid that has a first row, from every origin (inside the grid
    or not) and in every direction, [castRay] returns: the loop makes at
    most rows + columns + 1 iterations and nothing is thrown. *)
Theorem castRay_returns W row0 posX posY dirX dirY :
  grid W !! 0%nat = Some row0 ->
  exists res,
    castRayFuel (S (length (grid W) + length row0)) W posX posY dirX dirY = Ok res /\
    castRay W posX posY dirX dirY = Ok res.
Proof.
  intros R0.
  assert (H : exists res, castRayFuel (S (length (grid W) + length row0)) W
                            posX posY dirX dirY = Ok res).
  { unfold castRayFuel.
    destruct (ddaLoop_terminates_any W (initRay dirX dirY posX posY) row0 R0
                (initAxis_step _ _) (initAxis_step _ _)
                (length (grid W) + length row0)
                (initDda W dirX dirY posX posY)) as [o Ho]; [lia|].
    rewrite Ho. simpl. destruct o; eauto. }
  destruct H as [res H]. exists res. split; [exact H|].
  unfold castRay, gridPerimeter. rewrite R0. exact H.
Qed.

Lemma castRay_returns_witness :
  exists res,
    castRayFuel (S (length [[1; 1; 1]; [1; 0; 1]; [1; 1; 1]] + length [1; 1; 1]))
      (mkWorld [[1; 1; 1]; [1; 0; 1]; [1; 1; 1]] 1 1) (-7 # 2) (9 # 2) 1 (-1) = Ok res /\
    castRay (mkWorld [[1; 1; 1]; [1; 0; 1]; [1; 1; 1]] 1 1) (-7 # 2) (9 # 2) 1 (-1) = Ok res.
Proof.
  apply (castRay_returns (mkWorld [[1; 1; 1]; [1; 0; 1]; [1; 1; 1]] 1 1) [1; 1; 1]).
  reflexivity.
Defined.



(** * More on the tile grid *)

Lemma opens_opensBy m gx gy :
  opens m gx gy <->
  exists x y c, (row ← m !! y; row !! x) = Some c /\ opensBy c x y gx gy.
Proof. unfold opens, opensBy. reflexivity. Qed.

Lemma tileN_setTile_here (g : Grid) a b gx gy :
  a = gx -> b = gy -> is_Some (tileN g a b) ->
  tileN (setTile g a b 0) gx gy = Some 0.
Proof.
  intros <- <- [v Hv]. rewrite tileN_setTile, decide_True by auto.
  rewrite Hv. reflexivity.
Qed.

(** After the writes of one cell, each of their targets is open. *)
Lemma gridCell_fills m gw gh y x c (g g' : Grid) gx gy :
  (row ← m !! y; row !! x) = Some c ->
  (x * 2 + 2 < gw)%nat -> (y * 2 + 2 < gh)%nat ->
  dims gw gh g -> gridCell m y x g = Ok g' ->
  opensBy c x y gx gy -> tileN g' gx gy = Some 0.
Proof.
  intros Hc Hx Hy Hd. unfold gridCell. rewrite Hc. intros [= <-] Ho.
  assert (Hsome : forall (g1 : Grid) a b, dims gw gh g1 -> (a < gw)%nat -> (b < gh)%nat ->
                    is_Some (tileN g1 a b))
    by (intros; eapply dims_tileN; eauto).
  destruct Ho as [[-> ->]|[(W & -> & ->)|[(W & -> & ->)|[(W & -> & ->)|(W & -> & ->)]]]];
    try rewrite W; simpl;
    destruct (w_north (walls c)), (w_south (walls c)),
             (w_west (walls c)), (w_east (walls c)); simpl; try discriminate;
    repeat first
      [ apply tileN_setTile_here;
        [lia | lia | apply Hsome; [repeat apply dims_setTile; exact Hd | lia | lia]]
      | apply zero_setTile ].
Qed.

Lemma mazeToGrid_fills (m : Maze) w h :
  dims w h m -> (1 <= h)%nat ->
  exists g, mazeToGrid m = Ok g /\ dims (w * 2 + 1) (h * 2 + 1) g /\
    forall gx gy, (gx < w * 2 + 1)%nat -> (gy < h * 2 + 1)%nat ->
      (opens m gx gy /\ tileN g gx gy = Some 0) \/
      (~ opens m gx gy /\ tileN g gx gy = Some 1).
Proof.
  intros [Hl Hr] Hh. unfold mazeToGrid.
  destruct (m !! 0%nat) as [row0|] eqn:R0;
    [|apply lookup_ge_None in R0; lia].
  assert (Hw0 : length row0 = w) by (rewrite Forall_lookup in Hr; eauto).
  rewrite Hw0, Hl.
  set (g0 := replicate (h * 2 + 1) (replicate (w * 2 + 1) 1)).
  assert (I0 : gridInv m (w * 2 + 1) (h * 2 + 1) g0).
  { split.
    - split; [apply length_replicate|].
      apply Forall_replicate, length_replicate.
    - intros gx gy v. unfold tileN, g0.
      destruct (replicate (h * 2 + 1) _ !! gy) as [row|] eqn:R; [|discriminate].
      apply lookup_replicate in R as [-> _]. simpl.
      intros H. apply lookup_replicate in H as [-> _]. auto. }
  clearbody g0.
  assert (Hcell : forall x y, (x < w)%nat -> (y < h)%nat ->
                    is_Some (row ← m !! y; row !! x)).
  { intros x y Hx Hy. destruct (m !! y) as [row|] eqn:R.
    - simpl. apply lookup_lt_is_Some. rewrite Forall_lookup in Hr.
      rewrite (Hr _ _ R). lia.
    - apply lookup_ge_None in R. lia. }
  destruct (forRange_inv (fun y => forRange (gridCell m y) 0 w)
              (fun y g => gridInv m (w * 2 + 1) (h * 2 + 1) g /\ gridFilled m w y 0 g)
              h 0 g0) as (g & Hg & HI & HF).
  - split; [exact I0|]. intros x' y' c gx gy Hlt. lia.
  - intros y g [HI HF] Hy.
    destruct (forRange_inv (gridCell m y)
                (fun x g => gridInv m (w * 2 + 1) (h * 2 + 1) g /\ gridFilled m w y x g)
                w 0 g) as (g' & Hg' & HI' & HF').
    + auto.
    + intros x g1 Hx [HI1 HF1].
      destruct (Hcell x y) as [c Hc]; [lia|lia|].
      destruct (gridCell_spec m (w * 2 + 1) (h * 2 + 1) y x c g1 Hc)
        as (g2 & H2 & I2 & Z2 & K2); [lia|lia|exact HI1|].
      exists g2. split; [exact H2|]. split; [exact I2|].
      intros x' y' c' gx gy Hlt Hx' Hc' Ho.
      destruct (decide (y' = y /\ x' = x)) as [[-> ->]|Hne].
      * rewrite Hc in Hc'. injection Hc' as <-.
        apply (gridCell_fills m (w * 2 + 1) (h * 2 + 1) y x c g1 g2 gx gy Hc);
          [lia|lia|exact (proj1 HI1)|exact H2|exact Ho].
      * apply K2. apply (HF1 x' y' c'); auto. lia.
    + exists g'. split; [exact Hg'|]. split; [exact HI'|].
      intros x' y' c gx gy Hlt Hx'. apply HF'; [|exact Hx']. simpl. lia.
  - exists g. split; [exact Hg|]. split; [exact (proj1 HI)|].
    intros gx gy Hgx Hgy.
    assert (Hfill : opens m gx gy -> tileN g gx gy = Some 0).
    { intros (x & y & c & Hc & Ho).
      assert (Hx : (x < w)%nat /\ (y < h)%nat).
      { destruct (m !! y) as [row|] eqn:R; simpl in Hc; [|discriminate].
        split.
        - rewrite Forall_lookup in Hr. rewrite <- (Hr _ _ R).
          apply lookup_lt_is_Some. eauto.
        - rewrite <- Hl. apply lookup_lt_is_Some. eauto. }
      apply (HF x y c gx gy); [simpl; lia|tauto|exact Hc|exact Ho]. }
    destruct (dims_tileN g _ _ gx gy (proj1 HI) Hgx Hgy) as [v Hv].
    destruct (proj2 HI _ _ _ Hv) as [->|[-> Ho]].
    + right. split; [|exact Hv]. intros Ho. rewrite (Hfill Ho) in Hv. discriminate.
    + left. auto.
Qed.

(** X6.  A tile of the grid is open exactly when it is the interior of a cell or
    lies on a side of a cell whose wall flag there is absent; every other
    tile, the pillars at even coordinates among them, is a wall. *)
Theorem mazeToGrid_tiles (m : Maze) w h :
  dims w h m -> (1 <= h)%nat ->
  exists g, mazeToGrid m = Ok g /\ dims (w * 2 + 1) (h * 2 + 1) g /\
    forall gx gy, (gx < w * 2 + 1)%nat -> (gy < h * 2 + 1)%nat ->
      (opens m gx gy /\ tileN g gx gy = Some 0) \/
      (~ opens m gx gy /\ tileN g gx gy = Some 1).
Proof. exact (mazeToGrid_fills m w h). Qed.

Lemma mazeToGrid_tiles_witness :
  exists g, mazeToGrid [[freshCell; mkCell true (mkWalls true false true true)]] = Ok g /\
    dims (2 * 2 + 1) (1 * 2 + 1) g /\
    forall gx gy, (gx < 2 * 2 + 1)%nat -> (gy < 1 * 2 + 1)%nat ->
      (opens [[freshCell; mkCell true (mkWalls true false true true)]] gx gy
       /\ tileN g gx gy = Some 0) \/
      (~ opens [[freshCell; mkCell true (mkWalls true false true true)]] gx gy
       /\ tileN g gx gy = Some 1).
Proof.
  apply (mazeToGrid_tiles [[freshCell; mkCell true (mkWalls true false true true)]] 2 1).
  - split; [reflexivity|]. repeat constructor.
  - lia.
Defined.

Lemma forRange_Ok_or_TypeError {A : Type} (body : nat -> A -> Res A) count start a :
  (forall i a, body i a = TypeError \/ exists a', body i a = Ok a') ->
  forRange body start count a = TypeError \/ exists a', forRange body start count a = Ok a'.
Proof.
  intros Hb. revert start a. induction count as [|count IH]; intros start a; simpl.
  - eauto.
  - destruct (Hb start a) as [->|[a' ->]]; simpl; auto.
Qed.

Lemma forRange_TypeError {A : Type} (body : nat -> A -> Res A) count start k a :
  (forall i a, body i a = TypeError \/ exists a', body i a = Ok a') ->
  (start <= k < start + count)%nat ->
  (forall a, body k a = TypeError) ->
  forRange body start count a = TypeError.
Proof.
  intros Hb. revert start a. induction count as [|count IH]; intros start a Hk Hfail;
    simpl; [lia|].
  destruct (decide (k = start)) as [->|Hne].
  - rewrite Hfail. reflexivity.
  - destruct (Hb start a) as [->|[a' ->]]; simpl; [reflexivity|].
    apply IH; [lia|exact Hfail].
Qed.

Lemma gridCell_Ok_or_TypeError m y x (g : Grid) :
  gridCell m y x g = TypeError \/ exists g', gridCell m y x g = Ok g'.
Proof. unfold gridCell. destruct (_ ≫= _); eauto. Qed.

(** X7.  [mazeToGrid] throws on a lattice without rows and on a lattice with a
    row shorter than the first one; no grid is returned. *)
Theorem mazeToGrid_rejects (m : Maze) :
  m = [] \/ (exists row0 y row, m !! 0%nat = Some row0 /\ m !! y = Some row /\
                                (length row < length row0)%nat) ->
  mazeToGrid m = TypeError.
Proof.
  intros [->|(row0 & y & row & R0 & Ry & Hlt)]; [reflexivity|].
  unfold mazeToGrid. rewrite R0.
  assert (Hy : (y < length m)%nat) by (apply lookup_lt_is_Some; eauto).
  apply (forRange_TypeError _ _ _ y).
  - intros i a. apply forRange_Ok_or_TypeError. intros. apply gridCell_Ok_or_TypeError.
  - lia.
  - intros a. apply (forRange_TypeError _ _ _ (length row)).
    + intros. apply gridCell_Ok_or_TypeError.
    + lia.
    + intros g. unfold gridCell. rewrite Ry. simpl.
      rewrite (proj2 (lookup_ge_None row (length row))) by lia. reflexivity.
Qed.

Lemma mazeToGrid_rejects_witness :
  mazeToGrid [[freshCell; freshCell]; [freshCell]] = TypeError.
Proof.
  apply mazeToGrid_rejects. right. exists [freshCell; freshCell], 1%nat, [freshCell].
  repeat split. simpl. lia.
Defined.

Lemma generated_grid_picture rnd w h m g :
  valid_rng rnd -> generateMaze rnd w h = Ok m -> mazeToGrid m = Ok g ->
  (forall x y, 0 <= x < w - 1 -> 0 <= y < h ->
     tileAt g (2 * x + 2) (2 * y + 1) = Some (if wallAt m (x, y) east then 1 else 0)) /\
  (forall x y, 0 <= x < w -> 0 <= y < h - 1 ->
     tileAt g (2 * x + 1) (2 * y + 2) = Some (if wallAt m (x, y) south then 1 else 0)) /\
  (forall x y, 0 <= x <= w -> 0 <= y <= h -> tileAt g (2 * x) (2 * y) = Some 1).
Proof.
  intros Hr Hm Hg.
  destruct (generateMaze_Inv rnd w h m Hr Hm) as (Hw & Hh & HI & _).
  pose proof (inv_shape _ _ _ HI) as Hs.
  destruct (mazeToGrid_fills m (Z.to_nat w) (Z.to_nat h) Hs) as (g' & Hg' & Hd & Ht); [lia|].
  rewrite Hg in Hg'. injection Hg' as <-.
  assert (Hcell : forall x y c (d : Dir),
            (row ← m !! y; row !! x) = Some c ->
            inb w h (Z.of_nat x, Z.of_nat y) /\
            wallOf c d = wallAt m (Z.of_nat x, Z.of_nat y) d).
  { intros x y c d Hc. rewrite <- getCell_nat in Hc. split.
    - apply (getCell_inb w h m); eauto.
    - unfold wallAt. simpl. rewrite Hc. reflexivity. }
  assert (Hnat : forall x y, 0 <= x -> 0 <= y ->
            (Z.of_nat (Z.to_nat x), Z.of_nat (Z.to_nat y)) = (x, y))
    by (intros; rewrite !Z2Nat.id by lia; reflexivity).
  split; [|split].
  - intros x y Hx Hy. rewrite tileAt_tileN by lia.
    destruct (inb_getCell w h m (x, y) Hs) as [c Hc]; [unfold inb; simpl; lia|].
    simpl in Hc.
    destruct (Ht (Z.to_nat (2 * x + 2)) (Z.to_nat (2 * y + 1))) as [[Ho ->]|[Hno ->]];
      [lia|lia| |].
    + destruct Ho as (x' & y' & c' & Hc' & Ho).
      destruct (Hcell x' y' c' east Hc') as [Hin E1].
      destruct (Hcell x' y' c' west Hc') as [_ E2].
      destruct Hin as [Hix Hiy]. simpl in Hix, Hiy.
      destruct Ho as [[? ?]|[(W & ? & ?)|[(W & ? & ?)|[(W & ? & ?)|(W & ? & ?)]]]];
        try lia.
      * assert (Z.of_nat x' = x + 1) by lia. assert (Z.of_nat y' = y) by lia.
        change (w_west (walls c')) with (wallOf c' west) in W. rewrite E2 in W.
        rewrite (inv_sym _ _ _ HI (x, y) east); [|unfold inb; simpl; lia|unfold inb; simpl; lia].
        simpl. rewrite <- H1, <- H2. rewrite W. reflexivity.
      * assert (Z.of_nat x' = x) by lia. assert (Z.of_nat y' = y) by lia.
        change (w_east (walls c')) with (wallOf c' east) in W. rewrite E1 in W.
        rewrite <- H1, <- H2. rewrite W. reflexivity.
    + destruct (wallAt m (x, y) east) eqn:E; [reflexivity|exfalso].
      apply Hno. exists (Z.to_nat x), (Z.to_nat y), c. split.
      * rewrite <- getCell_nat. rewrite !Z2Nat.id by lia. exact Hc.
      * right. right. right. right. unfold wallAt in E. simpl in E. rewrite Hc in E.
        split; [exact E|]. lia.
  - intros x y Hx Hy. rewrite tileAt_tileN by lia.
    destruct (inb_getCell w h m (x, y) Hs) as [c Hc]; [unfold inb; simpl; lia|].
    simpl in Hc.
    destruct (Ht (Z.to_nat (2 * x + 1)) (Z.to_nat (2 * y + 2))) as [[Ho ->]|[Hno ->]];
      [lia|lia| |].
    + destruct Ho as (x' & y' & c' & Hc' & Ho).
      destruct (Hcell x' y' c' south Hc') as [Hin E1].
      destruct (Hcell x' y' c' north Hc') as [_ E2].
      destruct Hin as [Hix Hiy]. simpl in Hix, Hiy.
      destruct Ho as [[? ?]|[(W & ? & ?)|[(W & ? & ?)|[(W & ? & ?)|(W & ? & ?)]]]];
        try lia.
      * assert (Z.of_nat x' = x) by lia. assert (Z.of_nat y' = y + 1) by lia.
        change (w_north (walls c')) with (wallOf c' north) in W. rewrite E2 in W.
        rewrite (inv_sym _ _ _ HI (x, y) south); [|unfold inb; simpl; lia|unfold inb; simpl; lia].
        simpl. rewrite <- H1, <- H2. rewrite W. reflexivity.
      * assert (Z.of_nat x' = x) by lia. assert (Z.of_nat y' = y) by lia.
        change (w_south (walls c')) with (wallOf c' south) in W. rewrite E1 in W.
        rewrite <- H1, <- H2. rewrite W. reflexivity.
    + destruct (wallAt m (x, y) south) eqn:E; [reflexivity|exfalso].
      apply Hno. exists (Z.to_nat x), (Z.to_nat y), c. split.
      * rewrite <- getCell_nat. rewrite !Z2Nat.id by lia. exact Hc.
      * right. right. left. unfold wallAt in E. simpl in E. rewrite Hc in E.
        split; [exact E|]. lia.
  - intros x y Hx Hy. rewrite tileAt_tileN by lia.
    destruct (Ht (Z.to_nat (2 * x)) (Z.to_nat (2 * y))) as [[Ho _]|[_ ->]];
      [lia|lia| |reflexivity].
    exfalso. destruct Ho as (x' & y' & c' & _ & Ho).
    destruct Ho as [[? ?]|[(W & ? & ?)|[(W & ? & ?)|[(W & ? & ?)|(W & ? & ?)]]]]; lia.
Qed.

(** X8.  The grid of a generated maze is a picture of its lattice: the tile
    between two cells is open exactly when the wall between them is absent,
    and every tile with two even coordinates is a wall. *)
Theorem generated_grid_passages rnd w h m g :
  valid_rng rnd -> generateMaze rnd w h = Ok m -> mazeToGrid m = Ok g ->
  (forall x y, 0 <= x < w - 1 -> 0 <= y < h ->
     tileAt g (2 * x + 2) (2 * y + 1) = Some (if wallAt m (x, y) east then 1 else 0)) /\
  (forall x y, 0 <= x < w -> 0 <= y < h - 1 ->
     tileAt g (2 * x + 1) (2 * y + 2) = Some (if wallAt m (x, y) south then 1 else 0)) /\
  (forall x y, 0 <= x <= w -> 0 <= y <= h -> tileAt g (2 * x) (2 * y) = Some 1).
Proof. exact (generated_grid_picture rnd w h m g). Qed.

Lemma generated_grid_passages_witness :
  let m := [[mkCell true (mkWalls true false true true);
             mkCell true (mkWalls true false true true)];
            [mkCell true (mkWalls false true true false);
             mkCell true (mkWalls false true false true)]] in
  let g := [[1; 1; 1; 1; 1]; [1; 0; 1; 0; 1]; [1; 0; 1; 0; 1];
            [1; 0; 0; 0; 1]; [1; 1; 1; 1; 1]] in
  (forall x y, 0 <= x < 2 - 1 -> 0 <= y < 2 ->
     tileAt g (2 * x + 2) (2 * y + 1) = Some (if wallAt m (x, y) east then 1 else 0)) /\
  (forall x y, 0 <= x < 2 -> 0 <= y < 2 - 1 ->
     tileAt g (2 * x + 1) (2 * y + 2) = Some (if wallAt m (x, y) south then 1 else 0)) /\
  (forall x y, 0 <= x <= 2 -> 0 <= y <= 2 -> tileAt g (2 * x) (2 * y) = Some 1).
Proof.
  intros m g.
  apply (generated_grid_passages (fun _ => 0%Q) 2 2 m g);
    [apply valid_rng_zero | vm_compute; reflexivity | vm_compute; reflexivity].
Defined.

(** * More on the generator *)

Lemma swap_Permutation (l l' : list Dir) i j : swap l i j = Some l' -> l' ≡ₚ l.
Proof.
  unfold swap. destruct (l !! i) as [ai|] eqn:Hi; simpl; [|discriminate].
  destruct (l !! j) as [aj|] eqn:Hj; simpl; [|discriminate].
  intros [= <-]. apply Permutation_insert_swap; assumption.
Qed.

Lemma shuffleFrom_Permutation (rnd : nat -> Q) i (l : list Dir) c :
  valid_rng rnd -> (i < length l)%nat ->
  exists l', shuffleFrom rnd i l c = Ok (l', (c + i)%nat) /\ l' ≡ₚ l.
Proof.
  intros Hr. revert l c. induction i as [|i IH]; intros l c Hi.
  - simpl. exists l. rewrite Nat.add_0_r. auto.
  - rewrite shuffleFrom_S. cbv zeta.
    destruct (Hr c) as [R0 R1].
    pose proof (random_index (rnd c) (S i) R0 R1) as [J0 J1].
    set (j := Qfloor (rnd c * inject_Z (Z.of_nat (S i) + 1))) in *.
    rewrite (orb_false_intro (j <? 0) (Z.of_nat (S i) <? j))
      by (apply Z.ltb_ge; lia).
    destruct (swap_Some l (S i) (Z.to_nat j)) as [l1 H1]; [lia|lia|].
    rewrite H1.
    destruct (IH l1 (S c)) as (l' & H2 & Hp).
    { rewrite (swap_length _ _ _ _ H1). lia. }
    exists l'. replace (c + S i)%nat with (S c + i)%nat by lia.
    split; [exact H2|]. rewrite Hp. eapply swap_Permutation; eauto.
Qed.

(** X9.  With [Math.random()] in [0, 1), [shuffle] returns a permutation of its
    array and calls [Math.random()] once for every element but one. *)
Theorem shuffle_permutation (rnd : nat -> Q) (array : list Dir) (calls : nat) :
  valid_rng rnd ->
  exists array',
    shuffle rnd array calls = Ok (array', (calls + (length array - 1))%nat) /\
    array' ≡ₚ array.
Proof.
  intros Hr. unfold shuffle. destruct array as [|d array].
  - simpl. exists []. rewrite Nat.add_0_r. auto.
  - apply shuffleFrom_Permutation; [exact Hr|]. simpl. lia.
Qed.

Lemma shuffle_permutation_witness :
  exists array',
    shuffle (fun _ => 0%Q) [north; south; west; east] 5
      = Ok (array', (5 + (length [north; south; west; east] - 1))%nat) /\
    array' ≡ₚ [north; south; west; east].
Proof. apply (shuffle_permutation (fun _ => 0%Q)). apply valid_rng_zero. Defined.

(** X10.  The lattice [generateMaze] returns has [height] rows of [width] cells,
    every cell is marked visited, and every wall on the outer boundary of
    the lattice is still present. *)
Theorem generateMaze_lattice rnd w h m :
  valid_rng rnd -> generateMaze rnd w h = Ok m ->
  length m = Z.to_nat h /\
  (forall row, row ∈ m -> length row = Z.to_nat w) /\
  (forall x y c, getCell m x y = Some c -> visited c = true) /\
  (forall p d, inb w h p -> ~ inb w h (neighbour p d) -> wallAt m p d = true).
Proof.
  intros Hr Hm.
  destruct (generateMaze_Inv rnd w h m Hr Hm) as (Hw & Hh & HI & Hv & _).
  pose proof (inv_shape _ _ _ HI) as [Hl Hrows].
  split; [exact Hl|]. split; [|split].
  - intros row Hrow. rewrite Forall_forall in Hrows. auto.
  - intros x y c Hc.
    assert (Hin : inb w h (x, y)) by (apply (getCell_inb w h m); [split|]; eauto).
    specialize (Hv _ Hin). unfold vis in Hv. simpl in Hv. rewrite Hc in Hv. exact Hv.
  - apply (inv_outer _ _ _ HI).
Qed.

Lemma generateMaze_lattice_witness :
  let m := [[mkCell true (mkWalls true false true true);
             mkCell true (mkWalls true false true true)];
            [mkCell true (mkWalls false true true false);
             mkCell true (mkWalls false true false true)]] in
  length m = Z.to_nat 2 /\
  (forall row, row ∈ m -> length row = Z.to_nat 2) /\
  (forall x y c, getCell m x y = Some c -> visited c = true) /\
  (forall p d, inb 2 2 p -> ~ inb 2 2 (neighbour p d) -> wallAt m p d = true).
Proof.
  intros m. apply (generateMaze_lattice (fun _ => 0%Q) 2 2 m);
    [apply valid_rng_zero | vm_compute; reflexivity].
Defined.

(** X11.  In a generated maze with more than one cell no cell is sealed: every
    cell has at least one absent wall, and it leads to a cell of the
    lattice. *)
Theorem generateMaze_no_sealed_cell rnd w h m p :
  valid_rng rnd -> generateMaze rnd w h = Ok m -> 2 <= w * h -> inb w h p ->
  exists d, wallAt m p d = false /\ inb w h (neighbour p d).
Proof.
  intros Hr Hm Hwh Hp.
  destruct (generateMaze_Inv rnd w h m Hr Hm) as (Hw & Hh & HI & Hv & _).
  assert (Hq : exists q, inb w h q /\ q <> p).
  { destruct p as [x y]. destruct Hp as [Hx Hy]. simpl in Hx, Hy.
    destruct (decide (w = 1)) as [->|Hw1].
    - assert (2 <= h) by lia.
      destruct (decide (y = 0)) as [->|Hy0].
      + exists (x, 1). split; [unfold inb; simpl; lia|]. intros [= ?].
      + exists (x, 0). split; [unfold inb; simpl; lia|]. intros [= ?]. lia.
    - destruct (decide (x = 0)) as [->|Hx0].
      + exists (1, y). split; [unfold inb; simpl; lia|]. intros [= ?].
      + exists (0, y). split; [unfold inb; simpl; lia|]. intros [= ?]. lia. }
  destruct Hq as (q & Hq & Hne).
  destruct (inv_conn _ _ _ HI p q (Hv p Hp) (Hv q Hq)) as (l & Hwalk & Hend & _).
  destruct l as [|c l]; simpl in *; [congruence|].
  destruct Hwalk as [(d & -> & Hd) _]. exists d. split; [exact Hd|].
  destruct (decide (inb w h (neighbour p d))) as [Hin|Hout]; [exact Hin|].
  rewrite (inv_outer _ _ _ HI p d Hp Hout) in Hd. discriminate.
Qed.

Lemma generateMaze_no_sealed_cell_witness :
  exists d,
    wallAt [[mkCell true (mkWalls true false true true);
             mkCell true (mkWalls true false true true)];
            [mkCell true (mkWalls false true true false);
             mkCell true (mkWalls false true false true)]] (1, 0) d = false /\
    inb 2 2 (neighbour (1, 0) d).
Proof.
  apply (generateMaze_no_sealed_cell (fun _ => 0%Q) 2 2);
    [apply valid_rng_zero | vm_compute; reflexivity | lia | unfold inb; simpl; lia].
Defined.

(** * The stages *)

(** X12.  The world that [initGame] returns at a stage >= 1 has a square grid
    of side [4 * stage + 13] with the exit at
    [(4 * stage + 11, 4 * stage + 11)]; the player is put on an open tile
    that is not the exit, so a new stage never ends at once. *)
Theorem initGame_stage rnd stage W :
  valid_rng rnd -> 1 <= stage -> initGame rnd stage = Ok W ->
  Z.of_nat (length (grid W)) = 4 * stage + 13 /\
  (forall row, row ∈ grid W -> Z.of_nat (length row) = 4 * stage + 13) /\
  exitX W = 4 * stage + 11 /\ exitY W = 4 * stage + 11 /\
  isWall (grid W) startPos.1 startPos.2 = Ok false /\
  atExit W startPos = false.
Proof.
  intros Hr Hs HW. unfold initGame in HW.
  destruct (generateMaze_spec rnd (stageSize stage) (stageSize stage) Hr)
    as (m & Hm & _); [unfold stageSize; lia|unfold stageSize; lia|].
  destruct (generated_grid rnd _ _ m Hr Hm) as (_ & _ & _ & g & Hg & [[Hl Hrows] _] & Hopen).
  rewrite Hm in HW. simpl in HW. rewrite Hg in HW. simpl in HW. injection HW as <-.
  cbn [grid exitX exitY].
  assert (Hsz : 8 <= stageSize stage) by (unfold stageSize; lia).
  split; [unfold stageSize in *; lia|]. split; [|split; [|split; [|split]]].
  - intros row Hrow. rewrite Forall_forall in Hrows. rewrite (Hrows row Hrow).
    unfold stageSize in *. lia.
  - unfold exitOf, stageSize. lia.
  - unfold exitOf, stageSize. lia.
  - unfold isWall, startPos. cbn [fst snd].
    change (Qfloor (3 # 2)) with 1.
    destruct (g !! 0%nat) as [row0|] eqn:R0; [|apply lookup_ge_None in R0; lia].
    assert (Hl0 : length row0 = (Z.to_nat (stageSize stage) * 2 + 1)%nat)
      by (rewrite Forall_lookup in Hrows; eauto).
    rewrite (outside_nonempty _ _ _ _ R0).
    rewrite (proj2 (Z.ltb_lt 1 (Z.of_nat (length row0)))) by lia.
    rewrite (proj2 (Z.ltb_lt 1 (Z.of_nat (length g)))) by lia.
    simpl. f_equal. apply bool_decide_eq_false.
    rewrite (tileAt_tileN g 1 1) by lia.
    change (Z.to_nat 1) with (0 * 2 + 1)%nat. rewrite Hopen by lia. discriminate.
  - unfold atExit, startPos, exitOf. cbn [fst snd exitX exitY].
    change (Qfloor (3 # 2)) with 1.
    apply andb_false_intro1. apply Z.eqb_neq. lia.
Qed.

Lemma initGame_stage_witness :
  exists W, initGame (fun _ => 0%Q) 1 = Ok W /\
    Z.of_nat (length (grid W)) = 4 * 1 + 13 /\
    (forall row, row ∈ grid W -> Z.of_nat (length row) = 4 * 1 + 13) /\
    exitX W = 4 * 1 + 11 /\ exitY W = 4 * 1 + 11 /\
    isWall (grid W) startPos.1 startPos.2 = Ok false /\
    atExit W startPos = false.
Proof.
  eexists. split; [vm_compute; reflexivity|].
  apply (initGame_stage (fun _ => 0%Q) 1);
    [apply valid_rng_zero | lia | vm_compute; reflexivity].
Defined.

(** * From the start to the exit *)

Lemma tileOf_neighbour (a : Z * Z) (d : Dir) :
  tileOf (neighbour a d) = neighbour (neighbour (tileOf a) d) d.
Proof. destruct a as [x y], d; unfold tileOf, neighbour; cbn [fst snd]; f_equal; lia. Qed.

Lemma cell_tile_open rnd w h m g (p : Z * Z) :
  valid_rng rnd -> generateMaze rnd w h = Ok m -> mazeToGrid m = Ok g ->
  inb w h p -> tileAt g (tileOf p).1 (tileOf p).2 = Some 0.
Proof.
  intros Hr Hm Hg [Hx Hy].
  destruct (generated_grid rnd w h m Hr Hm) as (_ & _ & _ & g' & Hg' & _ & Hopen).
  rewrite Hg in Hg'. injection Hg' as <-.
  unfold tileOf. cbn [fst snd]. rewrite tileAt_tileN by lia.
  replace (Z.to_nat (2 * p.1 + 1)) with (Z.to_nat p.1 * 2 + 1)%nat by lia.
  replace (Z.to_nat (2 * p.2 + 1)) with (Z.to_nat p.2 * 2 + 1)%nat by lia.
  apply Hopen; lia.
Qed.

Lemma passage_tile_open rnd w h m g (a : Z * Z) (d : Dir) :
  valid_rng rnd -> generateMaze rnd w h = Ok m -> mazeToGrid m = Ok g ->
  inb w h a -> inb w h (neighbour a d) -> wallAt m a d = false ->
  tileAt g (neighbour (tileOf a) d).1 (neighbour (tileOf a) d).2 = Some 0.
Proof.
  intros Hr Hm Hg Ha Hb Hwall.
  destruct (generateMaze_Inv rnd w h m Hr Hm) as (_ & _ & HI & _).
  destruct (generated_grid_picture rnd w h m g Hr Hm Hg) as (He & Hs & _).
  assert (Hsym : wallAt m (neighbour a d) (opposite d) = false)
    by (rewrite <- (inv_sym _ _ _ HI a d Ha Hb); exact Hwall).
  destruct a as [x y]. destruct Ha as [Hx Hy]. destruct Hb as [Hbx Hby].
  destruct d; unfold tileOf, neighbour in *; cbn [fst snd opposite] in *.
  - replace (2 * y + 1 - 1) with (2 * (y - 1) + 2) by lia.
    rewrite Hs by lia. rewrite Hsym. reflexivity.
  - replace (2 * y + 1 + 1) with (2 * y + 2) by lia.
    rewrite Hs by lia. rewrite Hwall. reflexivity.
  - replace (2 * x + 1 - 1) with (2 * (x - 1) + 2) by lia.
    rewrite He by lia. rewrite Hsym. reflexivity.
  - replace (2 * x + 1 + 1) with (2 * x + 2) by lia.
    rewrite He by lia. rewrite Hwall. reflexivity.
Qed.

Lemma maze_walk_corridor rnd w h m g :
  valid_rng rnd -> generateMaze rnd w h = Ok m -> mazeToGrid m = Ok g ->
  forall l a, inb w h a -> walk (passage m) a l ->
    exists l', walk (corridor g) (tileOf a) l' /\
               endOf (tileOf a) l' = tileOf (endOf a l).
Proof.
  intros Hr Hm Hg.
  destruct (generateMaze_Inv rnd w h m Hr Hm) as (_ & _ & HI & _).
  induction l as [|b l IH]; intros a Ha Hw.
  - exists []. split; [exact I|reflexivity].
  - destruct Hw as [(d & -> & Hwall) Hrest].
    assert (Hb : inb w h (neighbour a d)).
    { apply (vis_inb w h m); [apply (inv_shape _ _ _ HI)|].
      apply (inv_open_vis _ _ _ HI a d Hwall). }
    destruct (IH _ Hb Hrest) as (l' & Hl' & He').
    exists (neighbour (tileOf a) d :: tileOf (neighbour a d) :: l').
    cbn [walk endOf]. split; [|exact He'].
    split; [|split; [|exact Hl']].
    + split; [exists d; reflexivity|].
      apply (passage_tile_open rnd w h m g a d); assumption.
    + split; [exists d; apply tileOf_neighbour|].
      apply (cell_tile_open rnd w h m g); assumption.
Qed.

(** X13.  Every stage can be finished: in the world that [initGame] builds, a
    walk over open tiles, each next to the one before, leads from the start
    tile to the exit tile. *)
Theorem initGame_exit_reachable rnd stage :
  valid_rng rnd -> 1 <= stage ->
  exists W, initGame rnd stage = Ok W /\
    exists l, walk (corridor (grid W)) (startGridX, startGridY) l /\
              endOf (startGridX, startGridY) l = (exitX W, exitY W).
Proof.
  intros Hr Hs. unfold initGame.
  assert (Hsz : 8 <= stageSize stage) by (unfold stageSize; lia).
  destruct (generateMaze_spec rnd (stageSize stage) (stageSize stage) Hr)
    as (m & Hm & _); [lia|lia|].
  destruct (generated_grid rnd _ _ m Hr Hm) as (_ & _ & _ & g & Hg & _).
  destruct (generateMaze_Inv rnd _ _ m Hr Hm) as (_ & _ & HI & Hvis & _).
  rewrite Hm. simpl. rewrite Hg. simpl. eexists. split; [reflexivity|].
  cbn [grid exitX exitY].
  assert (Ha : inb (stageSize stage) (stageSize stage) (0, 0))
    by (unfold inb; cbn [fst snd]; lia).
  assert (Hb : inb (stageSize stage) (stageSize stage)
                 (stageSize stage - 1, stageSize stage - 1))
    by (unfold inb; cbn [fst snd]; lia).
  destruct (inv_conn _ _ _ HI _ _ (Hvis _ Ha) (Hvis _ Hb)) as (l & Hw & He & _).
  destruct (maze_walk_corridor rnd _ _ m g Hr Hm Hg l (0, 0) Ha Hw) as (l' & Hl' & He').
  exists l'. split; [exact Hl'|].
  change (startGridX, startGridY) with (tileOf (0, 0)).
  rewrite He', He. unfold tileOf, exitOf. cbn [fst snd]. f_equal; lia.
Qed.

Lemma initGame_exit_reachable_witness :
  exists W, initGame (fun _ => 0%Q) 1 = Ok W /\
    exists l, walk (corridor (grid W)) (startGridX, startGridY) l /\
              endOf (startGridX, startGridY) l = (exitX W, exitY W).
Proof.
  apply (initGame_exit_reachable (fun _ => 0%Q) 1); [apply valid_rng_zero | lia].
Defined.

(** * More on the movement step *)

Lemma isWall_floor (g : Grid) (x y x' y' : Q) :
  Qfloor x = Qfloor x' -> Qfloor y = Qfloor y' -> isWall g x y = isWall g x' y'.
Proof. intros Hx Hy. unfold isWall. rewrite Hx, Hy. reflexivity. Qed.

Lemma isWall_returns (g : Grid) row0 (x y : Q) :
  g !! 0%nat = Some row0 -> exists b, isWall g x y = Ok b.
Proof.
  intros R0. unfold isWall. rewrite (outside_nonempty _ _ _ _ R0). simpl.
  destruct (negb _); eauto.
Qed.

Lemma isWall_false_row (g : Grid) (x y : Q) :
  isWall g x y = Ok false -> exists row0, g !! 0%nat = Some row0.
Proof.
  unfold isWall, outside. destruct (Qfloor x <? 0); simpl; [discriminate|].
  destruct (g !! 0%nat); [eauto|discriminate].
Qed.

Lemma Qmult_unit_bounds (c m : Q) :
  (-1 <= c)%Q -> (c <= 1)%Q -> (0 <= m)%Q ->
  ((0 <= c)%Q -> (0 <= c * m)%Q /\ (c * m <= m)%Q) /\
  ((c <= 0)%Q -> (- m <= c * m)%Q /\ (c * m <= 0)%Q).
Proof.
  intros H1 H2 Hm. split; intros Hc.
  - split.
    + apply Qmult_le_0_compat; assumption.
    + rewrite <- (Qmult_1_l m) at 2. apply Qmult_le_compat_r; assumption.
  - assert (H : (0 <= (- c) * m)%Q /\ ((- c) * m <= m)%Q).
    { split.
      - apply Qmult_le_0_compat; [Lqa.lra|assumption].
      - rewrite <- (Qmult_1_l m) at 2. apply Qmult_le_compat_r; [Lqa.lra|assumption]. }
    destruct H as [Ha Hb].
    assert (E : ((- c) * m == - (c * m))%Q) by ring.
    rewrite E in Ha, Hb. split; Lqa.lra.
Qed.

Lemma Qfloor_between_up (a b c : Q) :
  (a <= b)%Q -> (b <= c)%Q -> (c < inject_Z (Qfloor a + 2))%Q ->
  Qfloor b = Qfloor a \/ Qfloor b = Qfloor c.
Proof.
  intros Hab Hbc Hc.
  pose proof (Qfloor_resp_le _ _ Hab). pose proof (Qfloor_resp_le _ _ Hbc).
  pose proof (Qfloor_le c) as Fc.
  assert (Hz : (inject_Z (Qfloor c) < inject_Z (Qfloor a + 2))%Q)
    by (eapply Qle_lt_trans; eauto).
  rewrite <- Zlt_Qlt in Hz. lia.
Qed.

Lemma Qfloor_between_down (a b c : Q) :
  (c <= b)%Q -> (b <= a)%Q -> (inject_Z (Qfloor a - 1) <= c)%Q ->
  Qfloor b = Qfloor a \/ Qfloor b = Qfloor c.
Proof.
  intros Hcb Hba Hc.
  pose proof (Qfloor_resp_le _ _ Hcb). pose proof (Qfloor_resp_le _ _ Hba).
  pose proof (Qfloor_resp_le _ _ Hc) as Fc. rewrite Qfloor_Z in Fc. lia.
Qed.

Lemma isWall_false_inside (g : Grid) (x y : Q) :
  isWall g x y = Ok false ->
  exists row0, g !! 0%nat = Some row0 /\
    0 <= Qfloor x < Z.of_nat (length row0) /\ 0 <= Qfloor y < Z.of_nat (length g).
Proof.
  intros H. destruct (isWall_false_row _ _ _ H) as [row0 R0].
  exists row0. split; [exact R0|].
  unfold isWall in H. rewrite (outside_nonempty _ _ _ _ R0) in H.
  destruct ((0 <=? Qfloor x) && (Qfloor x <? Z.of_nat (length row0))
            && (0 <=? Qfloor y) && (Qfloor y <? Z.of_nat (length g))) eqn:E;
    [|cbn in H; discriminate].
  rewrite !andb_true_iff in E. destruct E as [[[E1 E2] E3] E4].
  apply Z.leb_le in E1, E3. apply Z.ltb_lt in E2, E4. lia.
Qed.

(** ** Consequences of the three properties of a rounding *)

Lemma rounding_compat bound fl (a b : Q) :
  rounding bound fl -> (a == b)%Q -> (fl a == fl b)%Q.
Proof.
  intros (Hmono & _ & _) Hab.
  apply Qle_antisym; apply Hmono; rewrite Hab; apply Qle_refl.
Qed.

Lemma rounding_exact bound fl (q : Q) (k : Z) :
  rounding bound fl -> (q == k # 4)%Q -> -4 <= k <= 4 * (bound + 2) ->
  (fl q == q)%Q.
Proof.
  intros Hfl Hq Hk. rewrite (rounding_compat bound fl q (k # 4) Hfl Hq).
  destruct Hfl as (_ & _ & Hex). rewrite (Hex k Hk). symmetry. exact Hq.
Qed.

Lemma rounding_between bound fl (lo hi q : Q) (klo khi : Z) :
  rounding bound fl ->
  (lo == klo # 4)%Q -> -4 <= klo <= 4 * (bound + 2) ->
  (hi == khi # 4)%Q -> -4 <= khi <= 4 * (bound + 2) ->
  (lo <= q)%Q -> (q <= hi)%Q -> (lo <= fl q)%Q /\ (fl q <= hi)%Q.
Proof.
  intros Hfl Elo Hlo Ehi Hhi H1 H2.
  pose proof (rounding_exact bound fl lo klo Hfl Elo Hlo) as Xlo.
  pose proof (rounding_exact bound fl hi khi Hfl Ehi Hhi) as Xhi.
  destruct Hfl as (Hmono & _ & _).
  split.
  - rewrite <- Xlo. apply Hmono. exact H1.
  - rewrite <- Xhi. apply Hmono. exact H2.
Qed.

Lemma quarters (n : Z) :
  (inject_Z n + (3 # 2) == (4 * n + 6) # 4)%Q /\
  (inject_Z n + (7 # 4) == (4 * n + 7) # 4)%Q /\
  (inject_Z n - (1 # 2) == (4 * n - 2) # 4)%Q /\
  (inject_Z n - (3 # 4) == (4 * n - 3) # 4)%Q.
Proof. repeat split; unfold Qeq, Qminus, Qplus, Qopp, inject_Z; simpl; lia. Qed.

(** One axis of a forward move in rounded arithmetic: [old] is the
    coordinate before the move, [c] the cosine or sine of the heading, [ms]
    the rounded step and [s] the strafing term, which is zero. *)
Lemma forward_axis_fl bound fl (c ms old s : Q) :
  rounding bound fl ->
  (-1 <= c)%Q -> (c <= 1)%Q -> (0 <= ms)%Q -> (ms <= 1 # 2)%Q ->
  0 <= Qfloor old < bound -> (fl old == old)%Q -> (s == 0)%Q ->
  let newC := fl (fl (old + fl (c * ms)) + fl s)%Q in
  let probe := fl (newC + fl (c * fl radius))%Q in
  (Qfloor newC = Qfloor old \/ Qfloor newC = Qfloor probe) /\ (fl newC == newC)%Q.
Proof.
  intros Hfl C1 C2 M0 M1 Hn Hold Hs. cbv zeta.
  pose proof Hfl as (Hmono & Hidem & _).
  split; [|apply Hidem].
  set (n := Qfloor old) in *.
  pose proof (Qfloor_le old) as Fl. pose proof (Qlt_floor old) as Fu.
  fold n in Fl, Fu. rewrite inject_Z_plus in Fu. change (inject_Z 1) with 1%Q in Fu.
  destruct (quarters n) as (Q1 & Q2 & Q3 & Q4).
  assert (Z0 : (0 == 0 # 4)%Q) by reflexivity.
  assert (Zh : ((1 # 2) == 2 # 4)%Q) by reflexivity.
  assert (Zq : ((1 # 4) == 1 # 4)%Q) by reflexivity.
  assert (Zmh : (- (1 # 2) == -2 # 4)%Q) by reflexivity.
  assert (Zmq : (- (1 # 4) == -1 # 4)%Q) by reflexivity.
  (* the radius literal *)
  destruct (rounding_between bound fl 0 (1 # 4) radius 0 1 Hfl Z0 ltac:(lia) Zq ltac:(lia))
    as [R0 R1]; [unfold radius; discriminate|unfold radius; discriminate|].
  (* the strafing term *)
  assert (Efs : (fl s == 0)%Q).
  { rewrite (rounding_compat bound fl s 0 Hfl Hs).
    apply (rounding_exact bound fl 0 0 Hfl Z0). lia. }
  set (t := fl (c * ms)%Q) in *.
  set (a := fl (old + t)%Q) in *.
  assert (Ea : (fl (a + fl s)%Q == a)%Q).
  { rewrite (rounding_compat bound fl (a + fl s) a Hfl) by (rewrite Efs; ring).
    unfold a. apply Hidem. }
  set (r := fl radius) in *.
  set (u := fl (c * r)%Q) in *.
  assert (Ep : (fl (fl (a + fl s) + u) == fl (a + u))%Q)
    by (apply (rounding_compat bound fl _ _ Hfl); rewrite Ea; reflexivity).
  assert (Faa : (fl a == a)%Q) by (unfold a; apply Hidem).
  rewrite (Qfloor_comp _ _ Ea), (Qfloor_comp _ _ Ep).
  destruct (Qmult_unit_bounds c ms C1 C2 M0) as [Pm Nm].
  destruct (Qmult_unit_bounds c r C1 C2 R0) as [Pr Nr].
  destruct (Qlt_le_dec c 0) as [Hc|Hc].
  - (* towards smaller coordinates *)
    destruct Nm as [Ta Tb]; [Lqa.lra|]. destruct Nr as [Ua Ub]; [Lqa.lra|].
    destruct (rounding_between bound fl (- (1 # 2)) 0 (c * ms) (-2) 0 Hfl
                Zmh ltac:(lia) Z0 ltac:(lia)) as [T0 T1]; [Lqa.lra|Lqa.lra|].
    destruct (rounding_between bound fl (- (1 # 4)) 0 (c * r) (-1) 0 Hfl
                Zmq ltac:(lia) Z0 ltac:(lia)) as [U0 U1]; [Lqa.lra|Lqa.lra|].
    fold t in T0, T1. fold u in U0, U1.
    assert (A1 : (a <= old)%Q).
    { rewrite <- Hold. apply Hmono. Lqa.lra. }
    assert (A0 : (inject_Z n - (1 # 2) <= a)%Q).
    { rewrite <- (rounding_exact bound fl _ _ Hfl Q3) by lia. apply Hmono. Lqa.lra. }
    assert (P1 : (fl (a + u) <= a)%Q).
    { rewrite <- Faa at 2. apply Hmono. Lqa.lra. }
    assert (P0 : (inject_Z n - (3 # 4) <= fl (a + u))%Q).
    { rewrite <- (rounding_exact bound fl _ _ Hfl Q4) by lia. apply Hmono. Lqa.lra. }
    apply Qfloor_between_down; [exact P1|exact A1|].
    fold n. replace (n - 1) with (n + -1) by lia.
    rewrite inject_Z_plus. change (inject_Z (-1)) with (-1)%Q. Lqa.lra.
  - (* towards larger coordinates *)
    destruct (Pm Hc) as [Ta Tb]. destruct (Pr Hc) as [Ua Ub].
    destruct (rounding_between bound fl 0 (1 # 2) (c * ms) 0 2 Hfl
                Z0 ltac:(lia) Zh ltac:(lia)) as [T0 T1]; [Lqa.lra|Lqa.lra|].
    destruct (rounding_between bound fl 0 (1 # 4) (c * r) 0 1 Hfl
                Z0 ltac:(lia) Zq ltac:(lia)) as [U0 U1]; [Lqa.lra|Lqa.lra|].
    fold t in T0, T1. fold u in U0, U1.
    assert (A0 : (old <= a)%Q).
    { rewrite <- Hold. apply Hmono. Lqa.lra. }
    assert (A1 : (a <= inject_Z n + (3 # 2))%Q).
    { rewrite <- (rounding_exact bound fl _ _ Hfl Q1) by lia. apply Hmono. Lqa.lra. }
    assert (P0 : (a <= fl (a + u))%Q).
    { rewrite <- Faa at 1. apply Hmono. Lqa.lra. }
    assert (P1 : (fl (a + u) <= inject_Z n + (7 # 4))%Q).
    { rewrite <- (rounding_exact bound fl _ _ Hfl Q2) by lia. apply Hmono. Lqa.lra. }
    apply Qfloor_between_up; [exact A0|exact P0|].
    fold n. rewrite inject_Z_plus. change (inject_Z 2) with 2%Q. Lqa.lra.
Qed.

Lemma forward_step_fl bound fl (g : Grid) hd delta pos :
  rounding bound fl ->
  Z.of_nat (length g) <= bound ->
  (forall row, g !! 0%nat = Some row -> Z.of_nat (length row) <= bound) ->
  (-1 <= cosA hd)%Q -> (cosA hd <= 1)%Q -> (-1 <= sinA hd)%Q -> (sinA hd <= 1)%Q ->
  (0 <= delta)%Q -> (moveSpeed * delta <= 1 # 2)%Q ->
  isWall g pos.1 pos.2 = Ok false -> (fl pos.1 == pos.1)%Q -> (fl pos.2 == pos.2)%Q ->
  exists p, updatePositionFl fl g hd (mkKeys true false false false) delta pos = Ok p /\
            isWall g p.1 p.2 = Ok false /\ (fl p.1 == p.1)%Q /\ (fl p.2 == p.2)%Q.
Proof.
  intros Hfl Hrows Hcols C1 C2 S1 S2 Hd Hm Hclear Hx Hy.
  destruct (isWall_false_inside _ _ _ Hclear) as (row0 & R0 & Ix & Iy).
  pose proof (Hcols row0 R0) as Hc0.
  assert (Z0 : (0 == 0 # 4)%Q) by reflexivity.
  assert (Zh : ((1 # 2) == 2 # 4)%Q) by reflexivity.
  assert (M0 : (0 <= moveSpeed * delta)%Q) by (unfold moveSpeed; Lqa.lra).
  destruct (rounding_between bound fl 0 (1 # 2) (moveSpeed * delta) 0 2 Hfl
              Z0 ltac:(lia) Zh ltac:(lia) M0 Hm) as [V0 V1].
  assert (W0 : (0 <= 0 + fl (moveSpeed * delta))%Q) by Lqa.lra.
  assert (W1 : (0 + fl (moveSpeed * delta) <= 1 # 2)%Q) by Lqa.lra.
  destruct (rounding_between bound fl 0 (1 # 2) _ 0 2 Hfl
              Z0 ltac:(lia) Zh ltac:(lia) W0 W1) as [MS0 MS1].
  unfold updatePositionFl. cbn [forward backward strafeLeft strafeRight].
  set (ms := fl (0 + fl (moveSpeed * delta))%Q) in *.
  assert (Kx : (cosA90 hd * 0 == 0)%Q) by ring.
  assert (Ky : (sinA90 hd * 0 == 0)%Q) by ring.
  destruct (forward_axis_fl bound fl (cosA hd) ms pos.1 _ Hfl C1 C2 MS0 MS1
              ltac:(lia) Hx Kx) as [Fx Xfix].
  destruct (forward_axis_fl bound fl (sinA hd) ms pos.2 _ Hfl S1 S2 MS0 MS1
              ltac:(lia) Hy Ky) as [Fy Yfix].
  set (newX := fl (fl (pos.1 + fl (cosA hd * ms)) + fl (cosA90 hd * 0))%Q) in *.
  set (newY := fl (fl (pos.2 + fl (sinA hd * ms)) + fl (sinA90 hd * 0))%Q) in *.
  destruct (isWall_returns g row0 (fl (newX + fl (cosA hd * fl radius))%Q) pos.2 R0)
    as [bx Hbx].
  rewrite Hbx. simpl.
  set (x1 := if bx then pos.1 else newX).
  assert (Hx1 : isWall g x1 pos.2 = Ok false /\ (fl x1 == x1)%Q).
  { unfold x1. destruct bx; [split; assumption|]. split; [|exact Xfix].
    destruct Fx as [E|E].
    - rewrite (isWall_floor g newX pos.2 pos.1 pos.2 E eq_refl). exact Hclear.
    - rewrite (isWall_floor g newX pos.2 _ pos.2 E eq_refl). exact Hbx. }
  destruct Hx1 as [Hx1 Hx1f].
  destruct (isWall_returns g row0 x1 (fl (newY + fl (sinA hd * fl radius))%Q) R0)
    as [by_ Hby].
  rewrite Hby. simpl. eexists. split; [reflexivity|]. cbn [fst snd].
  destruct by_; [repeat split; assumption|].
  split; [|split; assumption].
  destruct Fy as [E|E].
  - rewrite (isWall_floor g x1 newY x1 pos.2 eq_refl E). exact Hx1.
  - rewrite (isWall_floor g x1 newY x1 _ eq_refl E). exact Hby.
Qed.

Lemma truncate_rounding (bound : Z) : rounding bound truncate.
Proof.
  unfold rounding, truncate. split; [|split].
  - intros a b Hab.
    assert (H : Qfloor (a * 1024) <= Qfloor (b * 1024)).
    { apply Qfloor_resp_le. Lqa.lra. }
    unfold Qle. cbn [Qnum Qden]. lia.
  - intros a.
    assert (E : ((Qfloor (a * 1024) # 1024) * 1024 == inject_Z (Qfloor (a * 1024)))%Q).
    { unfold Qeq, Qmult, inject_Z. simpl. lia. }
    rewrite (Qfloor_comp _ _ E), Qfloor_Z. reflexivity.
  - intros k _.
    assert (E : ((k # 4) * 1024 == inject_Z (256 * k))%Q).
    { unfold Qeq, Qmult, inject_Z. simpl. lia. }
    rewrite (Qfloor_comp _ _ E), Qfloor_Z. unfold Qeq. cbn [Qnum Qden]. lia.
Qed.

(** X14.  Walking forward never puts the player in a wall or outside the grid,
    also in rounded arithmetic: from a position on an open tile, with only
    the forward key held and frames of at most 1/6 s (the step is at most
    half a tile), the player is on an open tile after every frame, for every
    rounding of the arithmetic that keeps the order, leaves rounded numbers
    as they are and is exact on the multiples of 1/4 within the grid. *)
Theorem forward_stays_clear (fl : Q -> Q) (bound : Z) (g : Grid) hd delta n pos :
  rounding bound fl ->
  Z.of_nat (length g) <= bound ->
  (forall row, g !! 0%nat = Some row -> Z.of_nat (length row) <= bound) ->
  (-1 <= cosA hd)%Q -> (cosA hd <= 1)%Q -> (-1 <= sinA hd)%Q -> (sinA hd <= 1)%Q ->
  (0 <= delta)%Q -> (moveSpeed * delta <= 1 # 2)%Q ->
  isWall g pos.1 pos.2 = Ok false -> (fl pos.1 == pos.1)%Q -> (fl pos.2 == pos.2)%Q ->
  exists p, framesFl fl g hd (mkKeys true false false false) delta n pos = Ok p /\
            isWall g p.1 p.2 = Ok false.
Proof.
  intros Hfl Hrows Hcols C1 C2 S1 S2 Hd Hm. revert pos.
  induction n as [|n IH]; intros pos Hclear Hx Hy; cbn [framesFl].
  - exists pos. auto.
  - destruct (forward_step_fl bound fl g hd delta pos Hfl Hrows Hcols C1 C2 S1 S2 Hd Hm
                Hclear Hx Hy) as (p & Hp & Hc & Hpx & Hpy).
    rewrite Hp. simpl. apply IH; assumption.
Qed.

Lemma forward_stays_clear_witness :
  exists p, framesFl truncate [[1; 1; 1; 1]; [1; 0; 0; 1]; [1; 1; 1; 1]]
              (mkHeading (4 # 5) (-3 # 5) (3 # 5) (4 # 5))
              (mkKeys true false false false) (1 # 7) 9 (3 # 2, 3 # 2) = Ok p /\
            isWall [[1; 1; 1; 1]; [1; 0; 0; 1]; [1; 1; 1; 1]] p.1 p.2 = Ok false.
Proof.
  apply (forward_stays_clear truncate 4 [[1; 1; 1; 1]; [1; 0; 0; 1]; [1; 1; 1; 1]]
           (mkHeading (4 # 5) (-3 # 5) (3 # 5) (4 # 5)) (1 # 7) 9 (3 # 2, 3 # 2)).
  - apply truncate_rounding.
  - vm_compute. discriminate.
  - intros row [= <-]. vm_compute. discriminate.
  - discriminate.
  - discriminate.
  - discriminate.
  - discriminate.
  - discriminate.
  - discriminate.
  - reflexivity.
  - reflexivity.
  - reflexivity.
Defined.

Lemma isWall_compat (g : Grid) (x y x' y' : Q) :
  (x == x')%Q -> (y == y')%Q -> isWall g x y = isWall g x' y'.
Proof.
  intros Hx Hy. apply isWall_floor; apply Qfloor_comp; assumption.
Qed.

(** With exact arithmetic the rounded step is the step [updatePosition]. *)
Lemma updatePositionFl_exact (g : Grid) hd keys delta pos :
  match updatePositionFl (fun q => q) g hd keys delta pos,
        updatePosition g hd keys delta pos with
  | Ok p, Ok p' => (p.1 == p'.1)%Q /\ (p.2 == p'.2)%Q
  | Ok _, _ | _, Ok _ => False
  | _, _ => True
  end.
Proof.
  unfold updatePositionFl, updatePosition.
  set (nx := (pos.1 + cosA hd * _ + cosA90 hd * _)%Q).
  set (ny := (pos.2 + sinA hd * _ + sinA90 hd * _)%Q).
  set (nx' := (pos.1 + cosA hd * _ + cosA90 hd * _)%Q).
  set (ny' := (pos.2 + sinA hd * _ + sinA90 hd * _)%Q).
  assert (Ex : (nx == nx')%Q)
    by (unfold nx, nx'; destruct keys as [[] [] [] []]; cbn; ring).
  assert (Ey : (ny == ny')%Q)
    by (unfold ny, ny'; destruct keys as [[] [] [] []]; cbn; ring).
  clearbody nx ny nx' ny'.
  rewrite (isWall_compat g (nx + cosA hd * radius) pos.2 (nx' + cosA hd * radius) pos.2)
    by (rewrite ?Ex; reflexivity).
  destruct (isWall g (nx' + cosA hd * radius) pos.2) as [bx| | |]; simpl; auto.
  rewrite (isWall_compat g (if bx then pos.1 else nx) (ny + sinA hd * radius)
             (if bx then pos.1 else nx') (ny' + sinA hd * radius))
    by (destruct bx; rewrite ?Ex, ?Ey; reflexivity).
  destruct (isWall g _ _) as [by_| | |]; simpl; auto.
  destruct bx, by_; split; try reflexivity; assumption.
Qed.

(** X15.  With no movement key held the position does not change, whatever the
    walls around the player. *)
Theorem idle_keeps_position (g : Grid) hd delta pos p :
  updatePosition g hd (mkKeys false false false false) delta pos = Ok p ->
  (p.1 == pos.1)%Q /\ (p.2 == pos.2)%Q.
Proof.
  unfold updatePosition. cbn [forward backward strafeLeft strafeRight].
  destruct (isWall g _ pos.2) as [bx| | |]; simpl; try discriminate.
  destruct (isWall g _ _) as [by_| | |]; simpl; try discriminate.
  intros [= <-]. simpl. destruct bx, by_; split; try reflexivity; ring.
Qed.

Lemma idle_keeps_position_witness :
  ((3 # 2) + 1 * (0 - 0) + 0 * (0 - 0) == 3 # 2)%Q /\
  ((3 # 2) + 0 * (0 - 0) + 1 * (0 - 0) == 3 # 2)%Q.
Proof.
  apply (idle_keeps_position [[1; 1; 1]; [1; 0; 1]; [1; 1; 1]] (mkHeading 1 0 0 1)
           (1 # 20) (3 # 2, 3 # 2)
           ((3 # 2) + 1 * (0 - 0) + 0 * (0 - 0), (3 # 2) + 0 * (0 - 0) + 1 * (0 - 0))%Q).
  vm_compute. reflexivity.
Defined.

(** * The heading *)

Lemma wrapAngle_bounds (a : R) :
  (0 <= wrapAngle a < 2 * PI)%R <-> (- (2 * PI) <= a < 4 * PI)%R.
Proof.
  pose proof PI_RGT_0 as Hpi. unfold wrapAngle.
  destruct (Rlt_dec a 0) as [Hneg|Hpos];
    destruct (Rge_dec _ (PI * 2)) as [Hge|Hlt]; split; intros H; Lra.lra.
Qed.

(** X16.  [wrapAngle] brings an angle into [0, 2 PI) exactly when the angle is
    less than one turn off: it adds or removes one turn, never more. *)
Theorem wrapAngle_range (a : R) :
  (0 <= wrapAngle a < 2 * PI)%R <-> (- (2 * PI) <= a < 4 * PI)%R.
Proof. exact (wrapAngle_bounds a). Qed.

(** X17.  From a heading in [0, 2 PI), a frame of at most two seconds leaves the
    heading in [0, 2 PI), whichever turn keys are held. *)
Theorem rotate_range (turnLeft turnRight : bool) (delta angle : R) :
  (0 <= angle < 2 * PI)%R -> (0 <= delta <= 2)%R ->
  (0 <= rotate turnLeft turnRight delta angle < 2 * PI)%R.
Proof.
  intros Ha Hd. pose proof PI_RGT_0 as Hpi. unfold rotate, rotSpeed.
  apply wrapAngle_bounds.
  assert (H1 : (0 <= PI * delta)%R) by (apply Rmult_le_pos; Lra.lra).
  assert (H2 : (PI * delta <= PI * 2)%R) by (apply Rmult_le_compat_l; Lra.lra).
  remember (PI * delta)%R as t.
  destruct turnLeft, turnRight; Lra.lra.
Qed.

Lemma rotate_range_witness :
  (0 <= rotate true false 1 0 < 2 * PI)%R.
Proof.
  pose proof PI_RGT_0 as Hpi.
  apply (rotate_range true false 1 0); Lra.lra.
Defined.

(** * The column drawn for one ray *)

Lemma lineHeight_nonneg (h : Z) (cd : Dist) : 0 <= h -> 0 <= lineHeight h cd.
Proof.
  intros Hh. destruct cd as [q|]; cbn [lineHeight]; [|lia].
  destruct (Qlt_le_dec 0 q); [|exact Hh].
  change 0 with (Qfloor 0). apply Qfloor_resp_le. apply Qdiv_nonneg; [|assumption].
  change 0%Q with (inject_Z 0). rewrite <- Zle_Qle. exact Hh.
Qed.

Lemma Qfloor_half_sum (a b : Z) :
  Qfloor (inject_Z a / 2 + inject_Z b / 2) = (a + b) / 2.
Proof.
  assert (E : (inject_Z a / 2 + inject_Z b / 2 == (a + b) # 2)%Q).
  { unfold Qeq, Qdiv, Qmult, Qplus, Qinv, inject_Z. simpl. lia. }
  rewrite E. reflexivity.
Qed.

Lemma Qfloor_half_diff (a b : Z) :
  Qfloor (- inject_Z a / 2 + inject_Z b / 2) = (b - a) / 2.
Proof.
  assert (E : (- inject_Z a / 2 + inject_Z b / 2 == (b - a) # 2)%Q).
  { unfold Qeq, Qdiv, Qmult, Qplus, Qinv, Qopp, inject_Z. simpl. lia. }
  rewrite E. reflexivity.
Qed.

Lemma inject_Z_half (h : Z) : (inject_Z h / 2 == h # 2)%Q.
Proof. unfold Qeq, Qdiv, Qmult, Qinv, inject_Z. simpl. lia. Qed.

Lemma drawColumn_edges (h : Z) cd side ss es :
  drawStart (drawColumn h cd side ss es) =
    (if (h - lineHeight h cd) / 2 <? 0 then 0 else (h - lineHeight h cd) / 2) /\
  drawEnd (drawColumn h cd side ss es) =
    (if h <=? (lineHeight h cd + h) / 2 then h - 1 else (lineHeight h cd + h) / 2).
Proof.
  unfold drawColumn. cbn [drawStart drawEnd].
  rewrite Qfloor_half_diff, Qfloor_half_sum. split; reflexivity.
Qed.

Lemma drawColumn_floorMark (h : Z) cd side ss es :
  floorMark (drawColumn h cd side ss es) =
    if es || ss then
      Some (if es then ExitTint else StartTint, Qfloor (levelOf 200 20 cd),
            if Qlt_le_dec (inject_Z (drawEnd (drawColumn h cd side ss es)))
                          (inject_Z h / 2)
            then (inject_Z h / 2)%Q
            else inject_Z (drawEnd (drawColumn h cd side ss es)))
    else None.
Proof. reflexivity. Qed.

(** X18.  The wall slice of a column lies inside the canvas and is not inverted:
    on a canvas at least one pixel high, [0 <= drawStart <= drawEnd <= h - 1];
    and a floor line starts at or below both the slice's end and the middle
    of the canvas, and not below the canvas. *)
Theorem drawColumn_in_canvas (h : Z) cd side ss es :
  1 <= h ->
  0 <= drawStart (drawColumn h cd side ss es)
    <= drawEnd (drawColumn h cd side ss es) /\
  drawEnd (drawColumn h cd side ss es) <= h - 1 /\
  forall t lvl fs, floorMark (drawColumn h cd side ss es) = Some (t, lvl, fs) ->
    (inject_Z (drawEnd (drawColumn h cd side ss es)) <= fs)%Q /\
    (inject_Z h / 2 <= fs)%Q /\ (fs <= inject_Z h)%Q.
Proof.
  intros Hh.
  destruct (drawColumn_edges h cd side ss es) as [Es Ee].
  pose proof (lineHeight_nonneg h cd ltac:(lia)) as Hl.
  assert (Hde : 0 <= drawEnd (drawColumn h cd side ss es) <= h - 1).
  { rewrite Ee. destruct (Z.leb_spec h ((lineHeight h cd + h) / 2)); [lia|].
    split; [apply Z.div_pos; lia|lia]. }
  split; [|split; [lia|]].
  - rewrite Es, Ee.
    assert (Hm : (h - lineHeight h cd) / 2 <= (lineHeight h cd + h) / 2)
      by (apply Z.div_le_mono; lia).
    assert (Hu : (h - lineHeight h cd) / 2 <= h - 1).
    { assert ((h - lineHeight h cd) / 2 <= h / 2) by (apply Z.div_le_mono; lia).
      assert (h / 2 < h) by (apply Z.div_lt; lia). lia. }
    assert (Hp : 0 <= (lineHeight h cd + h) / 2) by (apply Z.div_pos; lia).
    destruct (Z.ltb_spec ((h - lineHeight h cd) / 2) 0);
      destruct (Z.leb_spec h ((lineHeight h cd + h) / 2)); lia.
  - intros t lvl fs Hf.
    assert (Hdq : (inject_Z (drawEnd (drawColumn h cd side ss es)) <= inject_Z h)%Q)
      by (rewrite <- Zle_Qle; lia).
    assert (H0 : (0 <= inject_Z h)%Q)
      by (change 0%Q with (inject_Z 0); rewrite <- Zle_Qle; lia).
    rewrite drawColumn_floorMark in Hf.
    set (de := drawEnd (drawColumn h cd side ss es)) in *.
    destruct (es || ss); [|discriminate].
    assert (Efs : fs = if Qlt_le_dec (inject_Z de) (inject_Z h / 2)
                       then (inject_Z h / 2)%Q else inject_Z de) by congruence.
    rewrite Efs. clear Efs Hf.
    destruct (Qlt_le_dec _ _) as [Hlt|Hle]; revert Hdq; try revert Hlt; try revert Hle;
      unfold Qdiv; change (/ 2)%Q with (1 # 2)%Q; intros; repeat split; Lqa.lra.
Qed.

Lemma drawColumn_in_canvas_witness :
  0 <= drawStart (drawColumn 200 (Finite (3 # 2)) 0 false true)
    <= drawEnd (drawColumn 200 (Finite (3 # 2)) 0 false true) /\
  drawEnd (drawColumn 200 (Finite (3 # 2)) 0 false true) <= 200 - 1 /\
  forall t lvl fs,
    floorMark (drawColumn 200 (Finite (3 # 2)) 0 false true) = Some (t, lvl, fs) ->
    (inject_Z (drawEnd (drawColumn 200 (Finite (3 # 2)) 0 false true)) <= fs)%Q /\
    (inject_Z 200 / 2 <= fs)%Q /\ (fs <= inject_Z 200)%Q.
Proof.
  apply (drawColumn_in_canvas 200 (Finite (3 # 2)) 0 false true). lia.
Defined.

Lemma clampLevel_range (b : Q) : (30 <= clampLevel b)%Q /\ (clampLevel b <= 255)%Q.
Proof.
  unfold clampLevel.
  destruct (Qlt_le_dec b 30); destruct (Qlt_le_dec 255 _); split; Lqa.lra.
Qed.

Lemma clampLevel_mono (a b : Q) : (a <= b)%Q -> (clampLevel a <= clampLevel b)%Q.
Proof.
  intros Hab. unfold clampLevel.
  destruct (Qlt_le_dec a 30); destruct (Qlt_le_dec b 30);
    repeat destruct (Qlt_le_dec 255 _); Lqa.lra.
Qed.

Lemma levelOf_range (base k : Q) cd : 30 <= Qfloor (levelOf base k cd) <= 255.
Proof.
  assert (H : (30 <= levelOf base k cd)%Q /\ (levelOf base k cd <= 255)%Q).
  { destruct cd as [q|]; cbn [levelOf]; [apply clampLevel_range|split; Lqa.lra]. }
  destruct H as [Hlo Hhi]. split.
  - change 30 with (Qfloor 30). apply Qfloor_resp_le. exact Hlo.
  - change 255 with (Qfloor 255). apply Qfloor_resp_le. exact Hhi.
Qed.

(** X19.  Every grey and tint level a column is drawn with is a colour channel
    value between 30 and 255, whatever the distance; a wall at a distance
    that is not negative is never brighter than 220. *)
Theorem drawColumn_levels (h : Z) cd side ss es :
  30 <= wallLevel (drawColumn h cd side ss es) <= 255 /\
  (forall t lvl fs, floorMark (drawColumn h cd side ss es) = Some (t, lvl, fs) ->
     30 <= lvl <= 255) /\
  (forall q, cd = Finite q -> (0 <= q)%Q ->
     wallLevel (drawColumn h cd side ss es) <= 220).
Proof.
  unfold drawColumn. cbn [wallLevel floorMark]. split; [apply levelOf_range|split].
  - intros t lvl fs. destruct (es || ss); [|discriminate].
    intros [= _ <- _]. apply levelOf_range.
  - intros q -> Hq. cbn [levelOf].
    refine (Qfloor_resp_le _ 220%Q _). unfold clampLevel.
    destruct (side =? 1); cbv iota;
      destruct (Qlt_le_dec _ 30); destruct (Qlt_le_dec 255 _); Lqa.lra.
Qed.

Lemma lineHeight_antitone (h : Z) (q1 q2 : Q) :
  0 <= h -> (0 < q1)%Q -> (q1 <= q2)%Q ->
  lineHeight h (Finite q2) <= lineHeight h (Finite q1).
Proof.
  intros Hh H1 H12. cbn [lineHeight].
  destruct (Qlt_le_dec 0 q1) as [_|C]; [|Lqa.lra].
  destruct (Qlt_le_dec 0 q2) as [H2|C]; [|Lqa.lra].
  apply Qfloor_resp_le.
  assert (Hq : (0 <= inject_Z h)%Q)
    by (change 0%Q with (inject_Z 0); rewrite <- Zle_Qle; exact Hh).
  apply Qle_shift_div_l; [exact H1|].
  assert (E : (inject_Z h / q2 * q1 == inject_Z h * (q1 / q2))%Q)
    by (field; intros C; rewrite C in H2; Lqa.lra).
  rewrite E. rewrite <- (Qmult_1_r (inject_Z h)) at 2.
  assert (Hr : (q1 / q2 <= 1)%Q) by (apply Qle_shift_div_r; [exact H2|Lqa.lra]).
  rewrite (Qmult_comm (inject_Z h) (q1 / q2)), (Qmult_comm (inject_Z h) 1).
  apply Qmult_le_compat_r; assumption.
Qed.

(** X20.  Of two walls hit on the same kind of face, the farther one is drawn
    no brighter and with a slice that is no taller: its level is at most the
    nearer one's, its slice starts no higher and ends no lower. *)
Theorem drawColumn_farther (h : Z) (q1 q2 : Q) side ss es ss' es' :
  0 <= h -> (0 < q1)%Q -> (q1 <= q2)%Q ->
  wallLevel (drawColumn h (Finite q2) side ss' es')
    <= wallLevel (drawColumn h (Finite q1) side ss es) /\
  drawStart (drawColumn h (Finite q1) side ss es)
    <= drawStart (drawColumn h (Finite q2) side ss' es') /\
  drawEnd (drawColumn h (Finite q2) side ss' es')
    <= drawEnd (drawColumn h (Finite q1) side ss es).
Proof.
  intros Hh H1 H12.
  pose proof (lineHeight_antitone h q1 q2 Hh H1 H12) as Hl.
  destruct (drawColumn_edges h (Finite q1) side ss es) as [Es1 Ee1].
  destruct (drawColumn_edges h (Finite q2) side ss' es') as [Es2 Ee2].
  split; [|split].
  - unfold drawColumn. cbn [wallLevel levelOf]. apply Qfloor_resp_le.
    apply clampLevel_mono.
    assert (q1 * 40 <= q2 * 40)%Q by Lqa.lra. Lqa.lra.
  - rewrite Es1, Es2.
    assert (Hm : (h - lineHeight h (Finite q1)) / 2 <= (h - lineHeight h (Finite q2)) / 2)
      by (apply Z.div_le_mono; lia).
    set (a1 := (h - lineHeight h (Finite q1)) / 2) in *.
    set (a2 := (h - lineHeight h (Finite q2)) / 2) in *.
    destruct (Z.ltb_spec a1 0); destruct (Z.ltb_spec a2 0); lia.
  - rewrite Ee1, Ee2.
    assert (Hm : (lineHeight h (Finite q2) + h) / 2 <= (lineHeight h (Finite q1) + h) / 2)
      by (apply Z.div_le_mono; lia).
    set (b1 := (lineHeight h (Finite q1) + h) / 2) in *.
    set (b2 := (lineHeight h (Finite q2) + h) / 2) in *.
    destruct (Z.leb_spec h b1); destruct (Z.leb_spec h b2); lia.
Qed.

Lemma drawColumn_farther_witness :
  wallLevel (drawColumn 200 (Finite 3) 1 false false)
    <= wallLevel (drawColumn 200 (Finite (1 # 2)) 1 true false) /\
  drawStart (drawColumn 200 (Finite (1 # 2)) 1 true false)
    <= drawStart (drawColumn 200 (Finite 3) 1 false false) /\
  drawEnd (drawColumn 200 (Finite 3) 1 false false)
    <= drawEnd (drawColumn 200 (Finite (1 # 2)) 1 true false).
Proof.
  apply (drawColumn_farther 200 (1 # 2) 3 1 true false false false);
    [lia|reflexivity|discriminate].
Defined.

(** X21.  A ray that left the grid without a hit (distance [Infinity]) draws an
    empty slice at the middle row, in the darkest grey. *)
Theorem drawColumn_no_hit (h : Z) side ss es :
  1 <= h ->
  drawStart (drawColumn h Infinity side ss es) = h / 2 /\
  drawEnd (drawColumn h Infinity side ss es) = h / 2 /\
  wallLevel (drawColumn h Infinity side ss es) = 30.
Proof.
  intros Hh. destruct (drawColumn_edges h Infinity side ss es) as [Es Ee].
  rewrite Es, Ee. cbn [lineHeight]. rewrite Z.sub_0_r, Z.add_0_l.
  assert (0 <= h / 2) by (apply Z.div_pos; lia).
  assert (h / 2 < h) by (apply Z.div_lt; lia).
  destruct (Z.ltb_spec (h / 2) 0); destruct (Z.leb_spec h (h / 2)); try lia.
  repeat split; reflexivity.
Qed.

Lemma drawColumn_no_hit_witness :
  drawStart (drawColumn 201 Infinity 0 false false) = 201 / 2 /\
  drawEnd (drawColumn 201 Infinity 0 false false) = 201 / 2 /\
  wallLevel (drawColumn 201 Infinity 0 false false) = 30.
Proof.
  apply (drawColumn_no_hit 201 0 false false). lia.
Defined.

(** * Keyboard input *)

Ltac split_codes code :=
  repeat match goal with
         | |- context [String.eqb code ?s] => destruct (String.eqb code s)
         end.

Ltac elem_cases :=
  repeat match goal with
         | H : _ ∈ [] |- _ => apply elem_of_nil in H; destruct H
         | H : _ ∈ _ :: _ |- _ => apply elem_of_cons in H; destruct H as [H|H]
         end.

(** X22.  Releasing a key after pressing it leaves the key flags as releasing it
    alone would: whatever was held, the flag of the key is clear and the
    other flags are as before the press. *)
Theorem key_press_release (env : Browser) (code : string) (st : KeyState * ViewMode) :
  onKeyUp code (onKeyDown env code st).1.1 = onKeyUp code st.1.
Proof.
  unfold onKeyDown. destruct (String.eqb code "KeyM").
  - destruct st.2; reflexivity.
  - cbn [fst]. unfold onKeyUp, setKey. split_codes code; reflexivity.
Qed.

(** X23.  A key press never clears a flag and a key release never sets one. *)
Theorem key_events_monotone (env : Browser) (code : string) (st : KeyState * ViewMode) :
  flagsLe st.1 (onKeyDown env code st).1.1 /\ flagsLe (onKeyUp code st.1) st.1.
Proof.
  unfold onKeyDown, onKeyUp, setKey, flagsLe. split.
  - destruct (String.eqb code "KeyM").
    + destruct st.2; cbn [fst]; tauto.
    + cbn [fst]. split_codes code; cbn; tauto.
  - split_codes code; cbn; intuition discriminate.
Qed.

(** X24.  Pointer lock is requested only when the view returns to first person on
    a device without touch that does not hold the lock, and released only
    when the view goes to the map while the lock is held; keys other than M
    leave the view and the pointer lock alone. *)
Theorem onKeyDown_pointer_lock (env : Browser) (code : string) (st : KeyState * ViewMode) :
  (RequestPointerLock ∈ (onKeyDown env code st).2 ->
     code = "KeyM" /\ st.2 = MapView /\ (onKeyDown env code st).1.2 = FirstPerson /\
     touchDevice env = false /\ pointerLocked env = false) /\
  (ExitPointerLock ∈ (onKeyDown env code st).2 ->
     code = "KeyM" /\ st.2 = FirstPerson /\ (onKeyDown env code st).1.2 = MapView /\
     pointerLocked env = true) /\
  (code <> "KeyM" ->
     (onKeyDown env code st).1.2 = st.2 /\ (onKeyDown env code st).2 = []).
Proof.
  destruct st as [ks v]. unfold onKeyDown. cbn [fst snd].
  destruct (String.eqb_spec code "KeyM") as [->|Hne].
  - split; [|split]; intros Hin; [| |congruence];
      destruct v, (pointerLocked env), (touchDevice env); cbn in Hin |- *;
      elem_cases; try discriminate; repeat split; reflexivity.
  - split; [|split]; intros Hin; cbn in Hin |- *; elem_cases; split; reflexivity.
Qed.

(** X25.  Pressing M twice restores the view, and M never changes a key flag. *)
Theorem view_toggle_twice (env env' : Browser) (st : KeyState * ViewMode) :
  (onKeyDown env' "KeyM" (onKeyDown env "KeyM" st).1).1 = st /\
  (onKeyDown env "KeyM" st).1.1 = st.1 /\
  (onKeyDown env "KeyM" st).1.2 <> st.2.
Proof.
  destruct st as [ks v]. unfold onKeyDown. cbn.
  destruct v; cbn; repeat split; discriminate.
Qed.

(** * Touch input *)

Lemma touchFlags_spec (acc : bool * bool * bool * bool) (info : TouchInfo) :
  ((touchFlags acc info).1.1.1 = true <->
     acc.1.1.1 = true \/ (ttype info = MoveTouch /\ (dragY info < -20)%Q)) /\
  ((touchFlags acc info).1.1.2 = true <->
     acc.1.1.2 = true \/ (ttype info = MoveTouch /\ (20 < dragY info)%Q)) /\
  ((touchFlags acc info).1.2 = true <->
     acc.1.2 = true \/ (ttype info = MoveTouch /\ (dragX info < -20)%Q)) /\
  ((touchFlags acc info).2 = true <->
     acc.2 = true \/ (ttype info = MoveTouch /\ (20 < dragX info)%Q)).
Proof.
  destruct acc as [[[f b] l] r]. unfold touchFlags, dragX, dragY.
  destruct (ttype info); cbn [fst snd].
  - split; [|split; [|split]]; (split;
      [intros H; destruct (Qlt_le_dec _ _);
         [right; split; [reflexivity|assumption]|left; exact H]
      |intros [H|[_ H]]; destruct (Qlt_le_dec _ _);
         [reflexivity|exact H|reflexivity|exfalso; Lqa.lra]]).
  - split; [|split; [|split]]; (split;
      [intros H; left; exact H|intros [H|[H _]]; [exact H|discriminate]]).
Qed.

Lemma foldl_flag {A B : Type} (step : A -> B -> A) (p : A -> bool) (P : B -> Prop) :
  (forall acc a, p (step acc a) = true <-> p acc = true \/ P a) ->
  forall l acc, p (foldl step acc l) = true <->
                p acc = true \/ exists a, a ∈ l /\ P a.
Proof.
  intros Hstep l. induction l as [|b l IH]; intros acc; cbn [foldl].
  - split; [intros H; left; exact H|].
    intros [H|(a & Ha & _)]; [exact H|apply elem_of_nil in Ha; destruct Ha].
  - rewrite IH, Hstep. split.
    + intros [[H|H]|(a & Ha & HP)].
      * left; exact H.
      * right. exists b. split; [apply list_elem_of_here|exact H].
      * right. exists a. split; [apply list_elem_of_further; exact Ha|exact HP].
    + intros [H|(a & Ha & HP)]; [left; left; exact H|].
      apply elem_of_cons in Ha. destruct Ha as [->|Ha].
      * left; right; exact HP.
      * right. exists a. split; assumption.
Qed.

Lemma someMoveTouch_list (ts : gmap Z TouchInfo) (P : TouchInfo -> Prop) :
  (exists info, info ∈ (map_to_list ts).*2 /\ ttype info = MoveTouch /\ P info) <->
  someMoveTouch ts P.
Proof.
  unfold someMoveTouch. split.
  - intros (info & Hin & Ht & HP). apply list_elem_of_fmap in Hin.
    destruct Hin as ([id info'] & -> & Hin). apply elem_of_map_to_list in Hin.
    exists id, info'. auto.
  - intros (id & info & Hl & Ht & HP). exists info. split; [|auto].
    apply list_elem_of_fmap. exists (id, info). split; [reflexivity|].
    apply elem_of_map_to_list. exact Hl.
Qed.

Lemma updateTouchMovement_spec (ts : gmap Z TouchInfo) (ks : KeyState) :
  (k_forward (updateTouchMovement ts ks) = true <->
     someMoveTouch ts (fun i => (dragY i < -20)%Q)) /\
  (k_backward (updateTouchMovement ts ks) = true <->
     someMoveTouch ts (fun i => (20 < dragY i)%Q)) /\
  (k_strafeLeft (updateTouchMovement ts ks) = true <->
     someMoveTouch ts (fun i => (dragX i < -20)%Q)) /\
  (k_strafeRight (updateTouchMovement ts ks) = true <->
     someMoveTouch ts (fun i => (20 < dragX i)%Q)) /\
  k_turnLeft (updateTouchMovement ts ks) = k_turnLeft ks /\
  k_turnRight (updateTouchMovement ts ks) = k_turnRight ks.
Proof.
  unfold updateTouchMovement.
  set (l := (map_to_list ts).*2).
  pose proof (foldl_flag touchFlags (fun acc => acc.1.1.1) _
                (fun acc a => proj1 (touchFlags_spec acc a)) l
                (false, false, false, false)) as F1.
  pose proof (foldl_flag touchFlags (fun acc => acc.1.1.2) _
                (fun acc a => proj1 (proj2 (touchFlags_spec acc a))) l
                (false, false, false, false)) as F2.
  pose proof (foldl_flag touchFlags (fun acc => acc.1.2) _
                (fun acc a => proj1 (proj2 (proj2 (touchFlags_spec acc a)))) l
                (false, false, false, false)) as F3.
  pose proof (foldl_flag touchFlags (fun acc => acc.2) _
                (fun acc a => proj2 (proj2 (proj2 (touchFlags_spec acc a)))) l
                (false, false, false, false)) as F4.
  destruct (foldl touchFlags _ l) as [[[f b] l'] r]. cbn [fst snd] in *.
  cbn [k_forward k_backward k_strafeLeft k_strafeRight k_turnLeft k_turnRight].
  rewrite <- !someMoveTouch_list. fold l.
  split; [|split; [|split; [|split; [|split; reflexivity]]]].
  - rewrite F1. split; [intros [C|H']; [discriminate|exact H']|intros H'; right; exact H'].
  - rewrite F2. split; [intros [C|H']; [discriminate|exact H']|intros H'; right; exact H'].
  - rewrite F3. split; [intros [C|H']; [discriminate|exact H']|intros H'; right; exact H'].
  - rewrite F4. split; [intros [C|H']; [discriminate|exact H']|intros H'; right; exact H'].
Qed.

(** X26.  The movement flags after [updateTouchMovement] say exactly which way
    some finger of the movement half has been dragged by more than 20 pixels
    since it touched down; the turn flags are left as they were. *)
Theorem updateTouchMovement_flags (ts : gmap Z TouchInfo) (ks : KeyState) :
  (k_forward (updateTouchMovement ts ks) = true <->
     someMoveTouch ts (fun i => (dragY i < -20)%Q)) /\
  (k_backward (updateTouchMovement ts ks) = true <->
     someMoveTouch ts (fun i => (20 < dragY i)%Q)) /\
  (k_strafeLeft (updateTouchMovement ts ks) = true <->
     someMoveTouch ts (fun i => (dragX i < -20)%Q)) /\
  (k_strafeRight (updateTouchMovement ts ks) = true <->
     someMoveTouch ts (fun i => (20 < dragX i)%Q)) /\
  k_turnLeft (updateTouchMovement ts ks) = k_turnLeft ks /\
  k_turnRight (updateTouchMovement ts ks) = k_turnRight ks.
Proof. exact (updateTouchMovement_spec ts ks). Qed.

Lemma touchEnd_lookup (changed : list Touch) (ts : gmap Z TouchInfo) (id : Z) :
  foldl (fun ts t => match ts !! identifier t with
                     | None => ts
                     | Some _ => delete (identifier t) ts
                     end) ts changed !! id =
  if decide (id ∈ identifier <$> changed) then None else ts !! id.
Proof.
  revert ts. induction changed as [|t changed IH]; intros ts; cbn [foldl].
  - rewrite decide_False; [reflexivity|]. csimpl. apply not_elem_of_nil.
  - rewrite IH. csimpl.
    assert (E : match ts !! identifier t with
                | None => ts
                | Some _ => delete (identifier t) ts
                end = delete (identifier t) ts).
    { destruct (ts !! identifier t) eqn:El; [reflexivity|].
      symmetry. apply delete_id. exact El. }
    rewrite E.
    destruct (decide (id ∈ identifier <$> changed)) as [Hin|Hnin].
    + rewrite decide_True; [reflexivity|]. apply list_elem_of_further. exact Hin.
    + destruct (decide (id = identifier t)) as [->|Hne].
      * rewrite decide_True; [|apply list_elem_of_here]. apply lookup_delete_eq.
      * rewrite decide_False.
        -- apply lookup_delete_ne. congruence.
        -- intros Hc. apply elem_of_cons in Hc. destruct Hc; [congruence|contradiction].
Qed.

(** X27.  When every finger of the movement half is lifted, the player stops:
    after [touchend] for touches that include all ongoing movement touches,
    the four movement flags are clear, whatever they were. *)
Theorem touchEnd_stops (changed : list Touch) (st : TouchState) :
  (forall id info, ongoing st !! id = Some info -> ttype info = MoveTouch ->
                   id ∈ identifier <$> changed) ->
  moveKeys (tkeys (touchEnd changed st)) = moveKeys noKeys.
Proof.
  intros Hall. unfold touchEnd. cbn [tkeys].
  set (ts := foldl _ (ongoing st) changed).
  assert (Hno : forall P, ~ someMoveTouch ts P).
  { intros P (id & info & Hl & Ht & _). unfold ts in Hl.
    rewrite touchEnd_lookup in Hl.
    destruct (decide (id ∈ identifier <$> changed)) as [Hin|Hnin]; [discriminate|].
    apply Hnin. eapply Hall; eauto. }
  destruct (updateTouchMovement_spec ts (tkeys st)) as (F1 & F2 & F3 & F4 & _).
  unfold moveKeys, noKeys. cbn [k_forward k_backward k_strafeLeft k_strafeRight].
  f_equal.
  - destruct (k_forward _); [|reflexivity]. exfalso. eapply Hno. apply F1. reflexivity.
  - destruct (k_backward _); [|reflexivity]. exfalso. eapply Hno. apply F2. reflexivity.
  - destruct (k_strafeLeft _); [|reflexivity]. exfalso. eapply Hno. apply F3. reflexivity.
  - destruct (k_strafeRight _); [|reflexivity]. exfalso. eapply Hno. apply F4. reflexivity.
Qed.

Lemma touchEnd_stops_witness :
  moveKeys (tkeys (touchEnd [mkTouch 7 100 50]
    (mkTouchState (<[7 := mkTouchInfo 100 200 100 150 MoveTouch]> ∅)
       (mkKeyState true false false false true false) 0))) = moveKeys noKeys.
Proof.
  apply (touchEnd_stops [mkTouch 7 100 50]
    (mkTouchState (<[7 := mkTouchInfo 100 200 100 150 MoveTouch]> ∅)
       (mkKeyState true false false false true false) 0)).
  intros id info Hl _. cbn [ongoing] in Hl.
  destruct (decide (id = 7)) as [->|Hne].
  - csimpl. apply list_elem_of_here.
  - rewrite lookup_insert_ne in Hl by congruence. rewrite lookup_empty in Hl. discriminate.
Defined.

(** X28.  A drag of one finger.  A finger put down on the left half of the window
    and then moved sets the movement flag of each direction in which it is
    more than 20 pixels away from where it went down, and leaves the heading
    alone; a finger put down on the right half turns the heading by 0.005
    radians per pixel moved horizontally in first person, and not at all in
    the map view. *)
Theorem touch_drag (innerWidth : Q) (view : ViewMode) (t0 t1 : Touch) (st : TouchState) :
  identifier t1 = identifier t0 ->
  ((clientX t0 < innerWidth / 2)%Q ->
     ((clientY t1 - clientY t0 < -20)%Q ->
        k_forward (tkeys (touchMove view [t1] (touchStart innerWidth [t0] st))) = true) /\
     ((20 < clientY t1 - clientY t0)%Q ->
        k_backward (tkeys (touchMove view [t1] (touchStart innerWidth [t0] st))) = true) /\
     ((clientX t1 - clientX t0 < -20)%Q ->
        k_strafeLeft (tkeys (touchMove view [t1] (touchStart innerWidth [t0] st))) = true) /\
     ((20 < clientX t1 - clientX t0)%Q ->
        k_strafeRight (tkeys (touchMove view [t1] (touchStart innerWidth [t0] st))) = true) /\
     tangle (touchMove view [t1] (touchStart innerWidth [t0] st)) = tangle st) /\
  ((innerWidth / 2 <= clientX t0)%Q ->
     tangle (touchMove view [t1] (touchStart innerWidth [t0] st)) =
       match view with
       | FirstPerson => (tangle st + (clientX t1 - clientX t0) * (5 # 1000))%Q
       | MapView => tangle st
       end).
Proof.
  intros Hid. unfold touchMove, touchStart. cbn [foldl ongoing tangle tkeys].
  unfold touchMoveOne. cbn [fst snd]. rewrite Hid, lookup_insert_eq.
  cbn [ttype startX startY lastX lastY].
  destruct (Qlt_le_dec (clientX t0) (innerWidth / 2)) as [Hl|Hr].
  - split; [|intros C; exfalso; Lqa.lra]. intros _.
    cbn [tkeys tangle].
    set (ts := <[identifier t0 := _]> (<[identifier t0 := _]> (ongoing st))).
    destruct (updateTouchMovement_spec ts (tkeys st)) as (F1 & F2 & F3 & F4 & _).
    assert (Hs : forall P : TouchInfo -> Prop,
               P (mkTouchInfo (clientX t0) (clientY t0) (clientX t1) (clientY t1) MoveTouch) ->
               someMoveTouch ts P).
    { intros P HP. exists (identifier t0). eexists. split; [apply lookup_insert_eq|].
      split; [reflexivity|exact HP]. }
    repeat split.
    + intros Hd. apply F1, Hs. exact Hd.
    + intros Hd. apply F2, Hs. exact Hd.
    + intros Hd. apply F3, Hs. exact Hd.
    + intros Hd. apply F4, Hs. exact Hd.
  - split; [intros C; exfalso; Lqa.lra|]. intros _.
    destruct view; reflexivity.
Qed.

Lemma touch_drag_witness :
  ((100 < 800 / 2)%Q ->
     ((260 - 300 < -20)%Q ->
        k_forward (tkeys (touchMove FirstPerson [mkTouch 3 100 260]
          (touchStart 800 [mkTouch 3 100 300] (mkTouchState ∅ noKeys 0)))) = true) /\
     ((20 < 260 - 300)%Q ->
        k_backward (tkeys (touchMove FirstPerson [mkTouch 3 100 260]
          (touchStart 800 [mkTouch 3 100 300] (mkTouchState ∅ noKeys 0)))) = true) /\
     ((100 - 100 < -20)%Q ->
        k_strafeLeft (tkeys (touchMove FirstPerson [mkTouch 3 100 260]
          (touchStart 800 [mkTouch 3 100 300] (mkTouchState ∅ noKeys 0)))) = true) /\
     ((20 < 100 - 100)%Q ->
        k_strafeRight (tkeys (touchMove FirstPerson [mkTouch 3 100 260]
          (touchStart 800 [mkTouch 3 100 300] (mkTouchState ∅ noKeys 0)))) = true) /\
     tangle (touchMove FirstPerson [mkTouch 3 100 260]
          (touchStart 800 [mkTouch 3 100 300] (mkTouchState ∅ noKeys 0))) = 0%Q) /\
  ((800 / 2 <= 100)%Q ->
     tangle (touchMove FirstPerson [mkTouch 3 100 260]
          (touchStart 800 [mkTouch 3 100 300] (mkTouchState ∅ noKeys 0))) =
       (0 + (100 - 100) * (5 # 1000))%Q).
Proof.
  apply (touch_drag 800 FirstPerson (mkTouch 3 100 300) (mkTouch 3 100 260)
           (mkTouchState ∅ noKeys 0)).
  reflexivity.
Defined.
